(** * Forgy AI editor: sessions, live audio, speech recognition, audio codec

    A shallow embedding of the stateful core of the editor:
    - [App]: the session list kept by [App.tsx] (upload, edit, transcript
      turn, version and session selection);
    - [GeminiService]: [encode], [decode] and [createBlob] of
      [services/geminiService.ts];
    - [GeminiLive]: [stopSession] and the audio branch of [onmessage] of
      [hooks/useGeminiLive.ts], the branch split at its [await];
    - [SpeechRecognition]: the handlers of [hooks/useSpeechRecognition.ts];
    - [EditImage], [DecodeAudioData]: the rest of
      [services/geminiService.ts];
    - [LiveHook]: [startSession] and the callbacks of the live connection;
    - [AppFlow], [MediaViewer], [Mascot], [VisionBoard]: the handlers and
      components of [App.tsx] around the session list.

    React state setters are modelled by explicit state passing; a
    functional updater [setX(prev => f prev)] is applied to the state it
    is queued on.  Refs that mirror state through [useEffect] are separate
    fields, synchronised by an explicit commit step.  [handleGenerate] and
    the audio branch of [onmessage] are split at their [await]: what runs
    before it, and what the continuation does on the state current when
    it runs. *)

From Stdlib Require Import ZArith QArith Qminmax Lqa DecimalString.
From Stdlib.Strings Require Import Ascii String Byte.
From stdpp Require Import base list strings gmap.

Close Scope Q_scope.
Open Scope Z_scope.

(** JavaScript truthiness of a string: every string but the empty one. *)
Definition truthy (s : string) : bool :=
  match s with
  | EmptyString => false
  | String _ _ => true
  end.

(** [Number.prototype.toString] on an integer: decimal digits, with a
    leading minus sign for negative numbers. *)
Definition toString (n : Z) : string := NilZero.string_of_int (Z.to_int n).

(** ** types.ts *)

Inductive MediaType := image | video.

Record MediaVersion := mkMediaVersion {
  src : string;
  prompt : string;
  type : MediaType
}.

Record Session := mkSession {
  id : string;
  versions : list MediaVersion;
  transcript : list string;
  currentIndex : nat
}.

Global Instance MediaType_eq_dec : EqDecision MediaType.
Proof. solve_decision. Defined.
Global Instance MediaVersion_eq_dec : EqDecision MediaVersion.
Proof. solve_decision. Defined.
Global Instance Session_eq_dec : EqDecision Session.
Proof. solve_decision. Defined.

(** ** App.tsx *)
Module App.

Inductive Sound := snd_start | snd_scribble | snd_success | snd_error.

(** What a pending [setTimeout] callback does when it fires. *)
Inductive TimerAction :=
  | ClearSuccessAnim   (* () => setIsSuccessAnim(false) *)
  | ClearError         (* () => setError(null) *)
  | NoAction.          (* the empty callback of handleImageUpload *)

(** Effects other than React state updates, in program order. *)
Inductive Effect :=
  | PlaySound (s : Sound)
  | ConsoleError
  | SetInterval (ms : Z)
  | ClearInterval
  | SetTimeout (a : TimerAction) (ms : Z).

(** The effects by which a failure shows as a console message and a
    banner that a timer clears, together with the clean-up of the
    [finally] block. *)
Definition banner_or_console (e : Effect) : Prop :=
  e = ConsoleError \/ (exists ms, e = SetTimeout ClearError ms) \/ e = ClearInterval.

Record AppState := mkApp {
  sessions : list Session;
  activeSessionId : option string;
  isLoading : bool;
  isSuccessAnim : bool;
  error : option string;
  (* refs, written by the useEffect that follows a render *)
  sessionsRef : list Session;
  activeSessionIdRef : option string
}.

Definition initial : AppState :=
  mkApp [] None false false None [] None.

Definition setSessions (f : list Session -> list Session) (st : AppState) : AppState :=
  mkApp (f (sessions st)) (activeSessionId st) (isLoading st) (isSuccessAnim st)
        (error st) (sessionsRef st) (activeSessionIdRef st).

Definition setActiveSessionId (a : option string) (st : AppState) : AppState :=
  mkApp (sessions st) a (isLoading st) (isSuccessAnim st)
        (error st) (sessionsRef st) (activeSessionIdRef st).

Definition setIsLoading (b : bool) (st : AppState) : AppState :=
  mkApp (sessions st) (activeSessionId st) b (isSuccessAnim st)
        (error st) (sessionsRef st) (activeSessionIdRef st).

Definition setIsSuccessAnim (b : bool) (st : AppState) : AppState :=
  mkApp (sessions st) (activeSessionId st) (isLoading st) b
        (error st) (sessionsRef st) (activeSessionIdRef st).

Definition setError (e : option string) (st : AppState) : AppState :=
  mkApp (sessions st) (activeSessionId st) (isLoading st) (isSuccessAnim st)
        e (sessionsRef st) (activeSessionIdRef st).

(** The effect run after a render: both refs take the rendered state. *)
Definition commitRefs (st : AppState) : AppState :=
  mkApp (sessions st) (activeSessionId st) (isLoading st) (isSuccessAnim st)
        (error st) (sessions st) (activeSessionId st).

(** [prev.map(s => s.id === id ? updater(s) : s)] *)
Definition mapSession (i : string) (updater : Session -> Session)
    (prev : list Session) : list Session :=
  (fun s => if decide (id s = i) then updater s else s) <$> prev.

Definition updateSession (updater : Session -> Session) (st : AppState) : AppState :=
  match activeSessionIdRef st with
  | Some i => if truthy i then setSessions (mapSession i updater) st else st
  | None => st
  end.

(** [...(x ? [label + x] : [])] *)
Definition lineIf (label x : string) : list string :=
  if truthy x then [label +:+ x] else [].

Definition addTurn (user ai : string) (s : Session) : Session :=
  mkSession (id s) (versions s)
    (transcript s ++ lineIf "**You:** " user ++ lineIf "**AI:** " ai)
    (currentIndex s).

Definition handleTurnComplete (user ai : string) (st : AppState) : AppState :=
  match activeSessionIdRef st with
  | Some i => if truthy i then setSessions (mapSession i (addTurn user ai)) st else st
  | None => st
  end.

(** The updater of a successful edit:
    [{...s, versions: [...s.versions, {src, prompt, type}], currentIndex: s.versions.length}] *)
Definition appendVersion (resultUrl p : string) (s : Session) : Session :=
  mkSession (id s) (versions s ++ [mkMediaVersion resultUrl p image])
    (transcript s) (length (versions s)).

(** The updater of a timeline click: [{...s, currentIndex: i}] *)
Definition setCurrentIndex (i : nat) (s : Session) : Session :=
  mkSession (id s) (versions s) (transcript s) i.

(** [sessions.find(s => s.id === a)] with [a : string | null] *)
Definition findSession (a : option string) (l : list Session) : option Session :=
  match a with
  | Some i => List.find (fun s => bool_decide (id s = i)) l
  | None => None
  end.

(** What the awaited [editImage] call does: resolve with a data URI, or
    reject. *)
Inductive EditOutcome := EditResolved (resultUrl : string) | EditRejected.

Inductive GenResult := GenSuccess | GenError (msg : string).

(** [handleGenerate] up to the [await]: the lookup in the refs, the
    loading flag and the opening sounds.  [None] is the early
    [return { error: "No session" }]; otherwise the third component is
    the source image handed to [editImage], or [None] when reading
    [.src] of the last version throws (no version at all). *)
Definition handleGenerate_begin (st : AppState)
    : option (AppState * list Effect * option string) :=
  match findSession (activeSessionIdRef st) (sessionsRef st) with
  | None => None
  | Some session =>
      Some (setIsLoading true st,
            [PlaySound snd_start; PlaySound snd_scribble; SetInterval 2000],
            src <$> last (versions session))
  end.

(** [handleGenerate] after the [await]: the [try] tail, the [catch] and
    the [finally], run on the state current at that time. *)
Definition handleGenerate_settle (p : string) (o : EditOutcome) (st : AppState)
    : AppState * list Effect * GenResult :=
  match o with
  | EditResolved resultUrl =>
      (setIsLoading false
         (setIsSuccessAnim true (updateSession (appendVersion resultUrl p) st)),
       [PlaySound snd_success; SetTimeout ClearSuccessAnim 4000; ClearInterval],
       GenSuccess)
  | EditRejected =>
      (setIsLoading false
         (setError (Some "Generation failed. Please try again.") st),
       [ConsoleError; PlaySound snd_error; SetTimeout ClearError 3000; ClearInterval],
       GenError "Failed")
  end.

(** The whole of [handleGenerate] when nothing else runs during the
    [await]; [editImage] stands for the vendor call. *)
Definition handleGenerate (editImage : string -> string -> EditOutcome)
    (p : string) (st : AppState) : AppState * list Effect * GenResult :=
  match handleGenerate_begin st with
  | None => (st, [], GenError "No session")
  | Some (st1, effs, source) =>
      let o := match source with
               | Some sourceImage => editImage sourceImage p
               | None => EditRejected
               end in
      let '(st2, effs2, r) := handleGenerate_settle p o st1 in
      (st2, effs ++ effs2, r)
  end.

(** What [fileToBase64] does: resolve with the data URI, or reject. *)
Inductive FileOutcome := FileRead (base64 : string) | FileFailed.

Definition newSession (base64 : string) (now : Z) : Session :=
  mkSession (toString now) [mkMediaVersion base64 "Original" image] [] 0.

(** [handleImageUpload]; [now] is the value of [Date.now()]. *)
Definition handleImageUpload (f : FileOutcome) (now : Z) (st : AppState)
    : AppState * list Effect :=
  match f with
  | FileRead base64 =>
      let s := newSession base64 now in
      (setIsLoading false
         (setActiveSessionId (Some (id s))
            (setSessions (fun prev => prev ++ [s]) (setIsLoading true st))),
       [SetTimeout NoAction 500])
  | FileFailed => (setIsLoading false (setIsLoading true st), [ConsoleError])
  end.

(** [const activeSession = sessions.find(s => s.id === activeSessionId)] *)
Definition activeSession (st : AppState) : option Session :=
  findSession (activeSessionId st) (sessions st).

(** Every way the application state changes. *)
Inductive Event :=
  | Upload (f : FileOutcome) (now : Z)
  | EditBegin
  | EditSettle (p : string) (o : EditOutcome)
  | TurnComplete (user ai : string)
  | SelectVersion (i : nat)          (* timeline click *)
  | SelectSession (i : string)       (* Header onSelect *)
  | NewSession                       (* Header onNew *)
  | Fire (a : TimerAction)           (* a pending timeout fires *)
  | Commit.                          (* render, then the ref effect *)

Definition fire (a : TimerAction) (st : AppState) : AppState :=
  match a with
  | ClearSuccessAnim => setIsSuccessAnim false st
  | ClearError => setError None st
  | NoAction => st
  end.

Definition step (st : AppState) (e : Event) : AppState :=
  match e with
  | Upload f now => (handleImageUpload f now st).1
  | EditBegin =>
      match handleGenerate_begin st with
      | Some (st', _, _) => st'
      | None => st
      end
  | EditSettle p o => (handleGenerate_settle p o st).1.1
  | TurnComplete user ai => handleTurnComplete user ai st
  | SelectVersion i => updateSession (setCurrentIndex i) st
  | SelectSession i => setActiveSessionId (Some i) st
  | NewSession => setActiveSessionId None st
  | Fire a => fire a st
  | Commit => commitRefs st
  end.

Definition run (evs : list Event) (st : AppState) : AppState :=
  foldl step st evs.

End App.

(** ** Typed arrays *)

(** [const a = new T(len); for (let i = 0; i < len; i++) a[i] = f(i);]
    on an array whose elements start at [zero]. *)
Definition for_fill {A} (zero : A) (len : nat) (f : nat -> A) : list A :=
  foldl (fun a i => <[i := f i]> a) (replicate len zero) (seq 0 len).

(** A Uint8Array is a [list byte]; storing a number keeps it modulo 256,
    and storing NaN (here [None]) stores 0. *)
Definition toUint8 (n : option N) : Byte.byte :=
  match n with
  | Some n => default Byte.x00 (Byte.of_N (n mod 256))
  | None => Byte.x00
  end.

(** ** services/geminiService.ts *)
Module GeminiService.

(** *** The browser's [btoa] and [atob]

    A binary string is a [string]: its characters are the code units 0
    to 255.  [btoa] is total on such strings; [atob] follows the
    forgiving-base64 decoding of the platform and fails ([None], the
    thrown InvalidCharacterError) on input that is not base64. *)

Definition alphabet : list ascii :=
  list_ascii_of_string
    "ABCDEFGHIJKLMNOPQRSTUVWXYZabcdefghijklmnopqrstuvwxyz0123456789+/".

Definition b64_char (n : N) : ascii :=
  nth (N.to_nat n) alphabet "A"%char.

Fixpoint index_of (c : ascii) (l : list ascii) : option N :=
  match l with
  | [] => None
  | x :: l' => if Ascii.eqb c x then Some 0%N else N.succ <$> index_of c l'
  end.

Definition b64_index (c : ascii) : option N := index_of c alphabet.

Definition pad : ascii := "="%char.

Fixpoint btoa_groups (l : list N) : list ascii :=
  match l with
  | [] => []
  | [a] =>
      [b64_char (a / 4); b64_char ((a mod 4) * 16); pad; pad]
  | [a; b] =>
      [b64_char (a / 4); b64_char ((a mod 4) * 16 + b / 16);
       b64_char ((b mod 16) * 4); pad]
  | a :: b :: c :: rest =>
      b64_char (a / 4) :: b64_char ((a mod 4) * 16 + b / 16)
      :: b64_char ((b mod 16) * 4 + c / 64) :: b64_char (c mod 64)
      :: btoa_groups rest
  end%N.

(** The sextets of [btoa_groups] before they are turned to characters,
    and the number of [=] that follow them. *)
Fixpoint btoa_sextets (l : list N) : list N :=
  match l with
  | [] => []
  | [a] => [a / 4; (a mod 4) * 16]
  | [a; b] => [a / 4; (a mod 4) * 16 + b / 16; (b mod 16) * 4]
  | a :: b :: c :: rest =>
      a / 4 :: (a mod 4) * 16 + b / 16 :: (b mod 16) * 4 + c / 64 :: c mod 64
      :: btoa_sextets rest
  end%N.

Fixpoint pad_count (l : list N) : nat :=
  match l with
  | [] => 0
  | [_] => 2
  | [_; _] => 1
  | _ :: _ :: _ :: rest => pad_count rest
  end.

Definition btoa (s : string) : string :=
  string_of_list_ascii (btoa_groups (N_of_ascii <$> list_ascii_of_string s)).

(** ASCII whitespace: tab, line feed, form feed, carriage return, space. *)
Definition is_ascii_whitespace (c : ascii) : bool :=
  let n := N_of_ascii c in
  (n =? 9)%N || (n =? 10)%N || (n =? 12)%N || (n =? 13)%N || (n =? 32)%N.

(** Drop one or two trailing [=] of a string whose length is a multiple
    of four. *)
Definition strip_padding (l : list ascii) : list ascii :=
  if (length l mod 4 =? 0)%nat then
    match rev l with
    | p1 :: p2 :: r =>
        if Ascii.eqb p1 pad then
          if Ascii.eqb p2 pad then rev r else rev (p2 :: r)
        else l
    | [p1] => if Ascii.eqb p1 pad then [] else l
    | [] => l
    end
  else l.

(** Sextets to bytes: 24 bits give three bytes; a tail of 12 bits gives
    one byte and a tail of 18 bits two, the spare low bits dropped. *)
Fixpoint atob_groups (l : list N) : list N :=
  match l with
  | s0 :: s1 :: s2 :: s3 :: rest =>
      let n := ((s0 * 64 + s1) * 64 + s2) * 64 + s3 in
      n / 65536 :: (n / 256) mod 256 :: n mod 256 :: atob_groups rest
  | [s0; s1; s2] =>
      let n := ((s0 * 64 + s1) * 64 + s2) / 4 in
      [n / 256; n mod 256]
  | [s0; s1] => [(s0 * 64 + s1) / 16]
  | _ => []
  end%N.

Definition atob (s : string) : option string :=
  let data := filter (fun c => is_ascii_whitespace c = false) (list_ascii_of_string s) in
  let data := strip_padding data in
  if (length data mod 4 =? 1)%nat then None
  else
    sextets ← mapM b64_index data;
    Some (string_of_list_ascii (ascii_of_N <$> atob_groups sextets)).

(** [s.charCodeAt(i)]; [None] is NaN (index out of range). *)
Definition charCodeAt (s : string) (i : nat) : option N :=
  N_of_ascii <$> String.get i s.

(** [String.fromCharCode(b)] for a byte [b], as a one-character string. *)
Definition fromCharCode (b : Byte.byte) : string :=
  String (ascii_of_byte b) EmptyString.

Definition decode (base64 : string) : option (list Byte.byte) :=
  binaryString ← atob base64;
  let len := String.length binaryString in
  Some (for_fill Byte.x00 len (fun i => toUint8 (charCodeAt binaryString i))).

Definition encode (bytes : list Byte.byte) : string :=
  let binary := foldl (fun binary b => binary +:+ fromCharCode b) EmptyString bytes in
  btoa binary.

(** *** createBlob *)

(** A Float32Array element.  Finite values are kept as exact rationals
    (every finite float is one); [data[i] * 32768] is a scaling by a
    power of two, which is exact in the double arithmetic that carries
    it out. *)
Inductive Float32 :=
  | F_nan
  | F_inf (negative : bool)
  | F_fin (q : Q).

Definition fmul32768 (x : Float32) : Float32 :=
  match x with
  | F_fin q => F_fin (q * 32768)%Q
  | other => other
  end.

(** Truncation toward zero of a rational. *)
Definition trunc (q : Q) : Z := Z.quot (Qnum q) (Z.pos (Qden q)).

(** ToInt16 of the language: NaN and the infinities give 0; otherwise
    truncate, reduce modulo 2^16 and read the result as signed. *)
Definition ToInt16 (x : Float32) : Z :=
  match x with
  | F_fin q =>
      let int16bit := trunc q mod 65536 in
      if 32768 <=? int16bit then int16bit - 65536 else int16bit
  | _ => 0
  end.

(** [data[i]]; out of range is [undefined], which the product turns to NaN. *)
Definition sampleAt (data : list Float32) (i : nat) : Float32 :=
  default F_nan (data !! i).

Definition samples_int16 (data : list Float32) : list Z :=
  for_fill 0 (length data) (fun i => ToInt16 (fmul32768 (sampleAt data i))).

(** [new Uint8Array(int16.buffer)]: the two bytes of each element, low
    byte first. *)
Definition int16_bytes (v : Z) : list Byte.byte :=
  let u := Z.to_N (v mod 65536) in
  [toUint8 (Some u); toUint8 (Some (u / 256)%N)].

Record Blob := mkBlob { data : string; mimeType : string }.

Definition createBlob (samples : list Float32) : Blob :=
  mkBlob (encode (samples_int16 samples ≫= int16_bytes)) "audio/pcm;rate=16000".

(** [decodeAudioData(data, ctx, sampleRate, 1).duration]: the number of
    16-bit frames over the sample rate.  An odd byte length makes the
    Int16Array view throw, and with no frame at all [createBuffer]
    throws ([None]). *)
Definition bufferDuration (bytes : list Byte.byte) (sampleRate : positive) : option Q :=
  if (length bytes mod 2 =? 0)%nat && (1 <=? length bytes / 2)%nat
  then Some (Qmake (Z.of_nat (length bytes / 2)) sampleRate)
  else None.

End GeminiService.

(** ** hooks/useGeminiLive.ts *)
Module GeminiLive.

(** The settled value of [sessionPromiseRef.current]: the vendor session,
    or a rejection (the [await] in [stopSession] then throws into its
    empty [catch]). *)
Inductive SessionPromise := Connected (s : nat) | ConnectFailed.

(** Calls made on vendor and browser objects, in program order.  Objects
    are named by numbers. *)
Inductive Call :=
  | SessionClose (s : nat)
  | TrackStop (t : nat)
  | NodeDisconnect (n : nat)
  | ContextClose (c : nat)
  | SourceStart (s : nat) (start duration : Q)
  | SourceStop (s : nat).

Record LiveState := mkLive {
  isLive : bool;
  sessionPromiseRef : option SessionPromise;
  inputContext : option nat;           (* audioContextRefs.current.input *)
  outputContext : option nat;          (* audioContextRefs.current.output *)
  streamRef : option (list nat);       (* the tracks of the MediaStream *)
  sourceNode : option nat;             (* audioNodesRef.current.source *)
  processorNode : option nat;          (* audioNodesRef.current.processor *)
  nextStartTimeRef : Q;
  audioSourcesRef : gset nat;
  currentInputTranscriptionRef : string;
  currentOutputTranscriptionRef : string;
  interimTranscript : string;          (* last onInterimTranscript argument *)
  aiSpeaking : bool;                   (* last onAiSpeakingStatusChange argument *)
  freshSource : nat;                   (* name of the next created source *)
  calls : list Call
}.

Definition initial : LiveState :=
  mkLive false None None None None None None 0%Q ∅ EmptyString EmptyString EmptyString false 0%nat [].

(** The calls of an [if (ref) { ref.m(); ref = null; }] block. *)
Definition whenSet {A} (o : option A) (f : A -> list Call) : list Call :=
  match o with
  | Some a => f a
  | None => []
  end.

(** [stopSession], for a connection promise that has settled: its
    [await] then resumes before any other handler runs.  It releases
    what the references hold when it is called. *)
Definition stopSession (st : LiveState) : LiveState :=
  let closeSession :=
    whenSet (sessionPromiseRef st) (fun p =>
      match p with
      | Connected s => [SessionClose s]
      | ConnectFailed => []
      end) in
  let stopTracks := whenSet (streamRef st) (fmap TrackStop) in
  let disconnectSource := whenSet (sourceNode st) (fun n => [NodeDisconnect n]) in
  let disconnectProcessor := whenSet (processorNode st) (fun n => [NodeDisconnect n]) in
  let closeInput := whenSet (inputContext st) (fun c => [ContextClose c]) in
  let closeOutput := whenSet (outputContext st) (fun c => [ContextClose c]) in
  let stopSources := SourceStop <$> elements (audioSourcesRef st) in
  mkLive false None None None None None None 0%Q ∅
    (currentInputTranscriptionRef st) (currentOutputTranscriptionRef st)
    EmptyString (aiSpeaking st) (freshSource st)
    (calls st ++ closeSession ++ stopTracks ++ disconnectSource
       ++ disconnectProcessor ++ closeInput ++ closeOutput ++ stopSources).

(** The transcription branches of [onmessage]: the texts of
    [inputTranscription] and [outputTranscription] when present, and the
    [turnComplete] flag.  The second component is the call of
    [onTurnComplete], if any. *)
Definition onServerContent (input output : option string) (turnComplete : bool)
    (st : LiveState) : LiveState * option (string * string) :=
  let inputT :=
    currentInputTranscriptionRef st +:+ default EmptyString input in
  let interim :=
    if input is Some _ then inputT else interimTranscript st in
  let outputT :=
    currentOutputTranscriptionRef st +:+ default EmptyString output in
  let keep (i o t : string) :=
    mkLive (isLive st) (sessionPromiseRef st) (inputContext st)
      (outputContext st) (streamRef st) (sourceNode st) (processorNode st)
      (nextStartTimeRef st) (audioSourcesRef st) i o t
      (aiSpeaking st) (freshSource st) (calls st) in
  if turnComplete then (keep EmptyString EmptyString EmptyString, Some (inputT, outputT))
  else (keep inputT outputT interim, None).

(** The audio branch of [onmessage] suspends once, at
    [await decodeAudioData(...)].  What its continuation closed over:
    the output context [ctx], the start time [start] computed before the
    [await], and the decoded buffer, of which the duration is used. *)
Record Suspended := mkSuspended {
  ctx : nat;
  start : Q;
  duration : Q
}.

(** The audio branch of [onmessage] up to its [await], for a message
    carrying [audioData], run when the output context's clock reads
    [currentTime]: the speaking status, the start time read off the
    watermark, and the decoding, which runs inside the call.  The second
    component is the continuation left pending; there is none when the
    branch is not taken or when decoding throws. *)
Definition playAudio_begin (currentTime : Q) (audioData : string) (st : LiveState)
    : LiveState * option Suspended :=
  match outputContext st with
  | Some ctx =>
      if truthy audioData then
        let speaking :=
          if decide (size (audioSourcesRef st) = 0%nat) then true else aiSpeaking st in
        let start := Qmax (nextStartTimeRef st) currentTime in
        (mkLive (isLive st) (sessionPromiseRef st) (inputContext st)
           (outputContext st) (streamRef st) (sourceNode st) (processorNode st)
           (nextStartTimeRef st) (audioSourcesRef st)
           (currentInputTranscriptionRef st) (currentOutputTranscriptionRef st)
           (interimTranscript st) speaking (freshSource st) (calls st),
         mkSuspended ctx start <$>
           (GeminiService.decode audioData ≫=
              (fun bytes => GeminiService.bufferDuration bytes 24000)))
      else (st, None)
  | None => (st, None)
  end.

(** The audio branch after its [await], on the state current when the
    continuation runs: the source is created and started at the start
    time computed before the [await], the watermark is written, the
    source joins the set. *)
Definition playAudio_resume (k : Suspended) (st : LiveState) : LiveState :=
  let source := freshSource st in
  mkLive (isLive st) (sessionPromiseRef st) (inputContext st)
    (outputContext st) (streamRef st) (sourceNode st) (processorNode st)
    (start k + duration k)%Q
    ({[source]} ∪ audioSourcesRef st)
    (currentInputTranscriptionRef st) (currentOutputTranscriptionRef st)
    (interimTranscript st) (aiSpeaking st) (S source)
    (calls st ++ [SourceStart source (start k) (duration k)]).

(** The audio branch of a message that is handled alone in its task:
    the decoder never suspends, so the continuation runs as soon as the
    handler has returned, before any other handler is called. *)
Definition playAudio (currentTime : Q) (audioData : string) (st : LiveState)
    : LiveState :=
  let '(st1, k) := playAudio_begin currentTime audioData st in
  match k with
  | Some k => playAudio_resume k st1
  | None => st1
  end.

(** Several messages handled by one task ([onmessage] called again
    before the continuation of the previous call has run): every call
    runs up to its [await], then the continuations run in the order of
    the calls. *)
Definition beginAll (chunks : list (Q * string)) (st : LiveState)
    : LiveState * list Suspended :=
  foldl (fun acc c =>
           let '(st', k) := playAudio_begin c.1 c.2 acc.1 in
           (st', acc.2 ++ option_list k))
        (st, []) chunks.

Definition resumeAll (ks : list Suspended) (st : LiveState) : LiveState :=
  foldl (fun st k => playAudio_resume k st) st ks.

Definition playBatch (chunks : list (Q * string)) (st : LiveState) : LiveState :=
  let '(st1, ks) := beginAll chunks st in resumeAll ks st1.

(** [source.onended] *)
Definition onended (source : nat) (st : LiveState) : LiveState :=
  let sources := audioSourcesRef st ∖ {[source]} in
  mkLive (isLive st) (sessionPromiseRef st) (inputContext st)
    (outputContext st) (streamRef st) (sourceNode st) (processorNode st)
    (nextStartTimeRef st) sources
    (currentInputTranscriptionRef st) (currentOutputTranscriptionRef st)
    (interimTranscript st)
    (if decide (size sources = 0%nat) then false else aiSpeaking st)
    (freshSource st) (calls st).

(** A run of audio messages of one live session, each handled alone in
    its task: each chunk comes with the clock reading at its arrival. *)
Definition playAll (chunks : list (Q * string)) (st : LiveState) : LiveState :=
  foldl (fun st c => playAudio c.1 c.2 st) st chunks.

(** A run of tasks of one live session, each handling the audio
    messages of its batch. *)
Definition playTasks (tasks : list (list (Q * string))) (st : LiveState)
    : LiveState :=
  foldl (fun st task => playBatch task st) st tasks.

(** The playback intervals [(start, end)] requested so far, in order. *)
Definition scheduled (st : LiveState) : list (Q * Q) :=
  calls st ≫= (fun c =>
    match c with
    | SourceStart _ start duration => [(start, (start + duration)%Q)]
    | _ => []
    end).

(** No overlap: each interval starts no earlier than the watermark [w]
    left by the one before it, and the run ends with watermark [w']. *)
Fixpoint chained (w : Q) (l : list (Q * Q)) (w' : Q) : Prop :=
  match l with
  | [] => w' = w
  | (s, e) :: l' => (w <= s)%Q /\ (s <= e)%Q /\ chained e l' w'
  end.

(** No gap: each interval starts exactly at the watermark left by the
    one before it. *)
Fixpoint abutting (w : Q) (l : list (Q * Q)) : Prop :=
  match l with
  | [] => True
  | (s, e) :: l' => (s == w)%Q /\ abutting e l'
  end.

(** A connected session with two microphone tracks and nothing played. *)
Definition liveExample : LiveState :=
  mkLive true (Some (Connected 7%nat)) (Some 1%nat) (Some 2%nat)
    (Some [3%nat; 4%nat]) (Some 5%nat) (Some 6%nat) 0%Q ∅
    EmptyString EmptyString EmptyString false 0%nat [].

(** Two chunks of three frames each, the second arriving at clock 1. *)
Definition twoChunks : list (Q * string) :=
  [(0%Q, "AAAAAAAA"); (1%Q, "AAAAAAAA")].

End GeminiLive.

(** ** hooks/useSpeechRecognition.ts *)
Module SpeechRecognition.

Inductive Call := RecStart | RecStop | ConsoleLog | ConsoleError.

Record State := mkState {
  isListening : bool;          (* the React state *)
  rendered : bool;             (* isListening as seen by the last render *)
  isListeningRef : bool;
  transcript : string;
  finalTranscriptRef : string;
  recognitionRef : bool;       (* a recognizer exists *)
  timers : list Z;             (* delays of the pending restart timeouts *)
  calls : list Call
}.

Definition initial (supported : bool) : State :=
  mkState false false false EmptyString EmptyString supported [] [].

Definition restartDelay : Z := 250.

(** [recognition.onend] *)
Definition onend (st : State) : State :=
  if isListeningRef st then
    mkState (isListening st) (rendered st) (isListeningRef st) (transcript st)
      (finalTranscriptRef st) (recognitionRef st)
      (timers st ++ [restartDelay]) (calls st ++ [ConsoleLog])
  else st.

(** The callback given to [setTimeout] by [onend], when the oldest
    pending timeout fires. *)
Definition restart (st : State) : State :=
  match timers st with
  | [] => st
  | _ :: pending =>
      mkState (isListening st) (rendered st) (isListeningRef st) (transcript st)
        (finalTranscriptRef st) (recognitionRef st) pending
        (if isListeningRef st && recognitionRef st
         then calls st ++ [RecStart] else calls st)
  end.

Definition isFatalError (e : string) : bool :=
  bool_decide (e = "not-allowed") || bool_decide (e = "service-not-allowed").

(** [recognition.onerror] *)
Definition onerror (e : string) (st : State) : State :=
  mkState (if isFatalError e then false else isListening st)
    (rendered st) (isListeningRef st) (transcript st)
    (finalTranscriptRef st) (recognitionRef st) (timers st)
    (calls st ++ [ConsoleError]).

(** [recognition.onresult] on the results from [resultIndex] on, each a
    transcript with its [isFinal] flag. *)
Definition onresult (results : list (string * bool)) (st : State) : State :=
  let '(final, interim) :=
    foldl (fun '(final, interim) '(part, isFinal) =>
             if isFinal : bool then (final +:+ part +:+ " ", interim)
             else (final, interim +:+ part))
          (finalTranscriptRef st, EmptyString) results in
  mkState (isListening st) (rendered st) (isListeningRef st)
    (final +:+ interim) final (recognitionRef st) (timers st) (calls st).

Definition startListening (st : State) : State :=
  if recognitionRef st && negb (rendered st) then
    mkState true (rendered st) (isListeningRef st) EmptyString EmptyString
      (recognitionRef st) (timers st) (calls st ++ [RecStart])
  else st.

Definition stopListening (st : State) : State :=
  if recognitionRef st && rendered st then
    mkState false (rendered st) false (transcript st)
      (finalTranscriptRef st) (recognitionRef st) (timers st)
      (calls st ++ [RecStop])
  else st.

(** A render followed by its effects: the handlers now see the current
    [isListening], and the effect depending on it runs when it changed. *)
Definition commit (st : State) : State :=
  mkState (isListening st) (isListening st)
    (if bool_decide (rendered st = isListening st)
     then isListeningRef st else isListening st)
    (transcript st) (finalTranscriptRef st) (recognitionRef st)
    (timers st) (calls st).

Inductive Event :=
  | StartListening
  | StopListening
  | OnEnd
  | OnError (e : string)
  | OnResult (results : list (string * bool))
  | TimerFires
  | Commit.

Definition step (st : State) (e : Event) : State :=
  match e with
  | StartListening => startListening st
  | StopListening => stopListening st
  | OnEnd => onend st
  | OnError e => onerror e st
  | OnResult r => onresult r st
  | TimerFires => restart st
  | Commit => commit st
  end.

Definition run (evs : list Event) (st : State) : State := foldl step st evs.

Definition isStartListening (e : Event) : bool :=
  match e with
  | StartListening => true
  | _ => false
  end.

(** The hook after an intentional stop or a fatal error has been
    rendered: neither the state nor the ref says listening. *)
Definition stopped (st : State) : Prop :=
  isListening st = false /\ isListeningRef st = false.

(** A supported browser after [startListening] and the render that
    follows it. *)
Definition listeningExample : State :=
  commit (startListening (initial true)).

End SpeechRecognition.

(** ** App.tsx: the handlers and effects around the session list *)
Module AppFlow.
Import App.

(** [handleFunctionCall]: only the tool named editImage reaches
    [handleGenerate]. *)
Definition handleFunctionCall (editImage : string -> string -> EditOutcome)
    (name promptArg : string) (st : AppState)
    : AppState * list Effect * GenResult :=
  if decide (name = "editImage") then handleGenerate editImage promptArg st
  else (st, [], GenError "Unknown").

(** The image [handleStartLiveSession] hands to [startSession]:
    [session?.versions[session.currentIndex]?.src]. *)
Definition handleStartLiveSession (st : AppState) : option string :=
  s ← activeSession st; src <$> versions s !! currentIndex s.

(** The effect on [activeSessionId, sessions.length]: [Some image] when
    it calls [startSession(image)], [None] when it does nothing. *)
Definition autoStart (isLive : bool) (st : AppState) : option string :=
  match activeSessionId st with
  | Some i =>
      if truthy i && negb (length (sessions st) =? 0)%nat && negb isLive then
        match findSession (Some i) (sessions st) with
        | Some session =>
            if (length (versions session) =? 1)%nat
               && (length (transcript session) =? 0)%nat
            then src <$> versions session !! 0%nat
            else None
        | None => None
        end
      else None
  | None => None
  end.

(** [s'] continues [s]: same identifier, history and transcript extended
    at their ends. *)
Definition extends (s s' : Session) : Prop :=
  id s' = id s /\
  versions s `prefix_of` versions s' /\
  transcript s `prefix_of` transcript s'.

(** A session as uploads make them and edits keep them: a non-empty
    identifier, the uploaded original first, images only. *)
Definition wfSession (s : Session) : Prop :=
  truthy (id s) = true /\
  (exists base64 rest, versions s = mkMediaVersion base64 "Original" image :: rest) /\
  Forall (fun v => type v = image) (versions s).

Definition wfState (st : AppState) : Prop :=
  Forall wfSession (sessions st) /\ Forall wfSession (sessionsRef st).

(** The version shown, [versions[currentIndex]], exists. *)
Definition indexOk (s : Session) : Prop :=
  (currentIndex s < length (versions s))%nat.

(** A timeline click carries the index of a version of the session it
    updates. *)
Definition clickOk (st : AppState) (e : Event) : Prop :=
  match e with
  | SelectVersion i =>
      forall s, s ∈ sessions st -> activeSessionIdRef st = Some (id s) ->
                (i < length (versions s))%nat
  | _ => True
  end.

Fixpoint clicksInRange (st : AppState) (evs : list Event) : Prop :=
  match evs with
  | [] => True
  | e :: evs => clickOk st e /\ clicksInRange (step st e) evs
  end.

End AppFlow.

(** ** Strings *)

(** [s.split(sep)] for a one-character separator: the pieces between the
    separators, at least one piece. *)
Fixpoint split (sep : ascii) (s : string) : list string :=
  match s with
  | EmptyString => [EmptyString]
  | String c s' =>
      if Ascii.eqb c sep then EmptyString :: split sep s'
      else match split sep s' with
           | piece :: pieces => String c piece :: pieces
           | [] => [String c EmptyString]
           end
  end.

(** The character [c] does not occur in [s]. *)
Definition free_of (c : ascii) (s : string) : Prop :=
  c ∉ list_ascii_of_string s.

(** ** services/geminiService.ts: editImage *)
Module EditImage.

(** [imageBase64.split(',')[1]]: the payload handed to the vendor,
    [None] (undefined) when the source has no comma. *)
Definition sourceData (imageBase64 : string) : option string :=
  split "," imageBase64 !! 1%nat.

(** [imageBase64.split(',')[0].split(':')[1].split(';')[0]]: [None] is the
    TypeError thrown when the part before the first comma has no colon. *)
Definition sourceMimeType (imageBase64 : string) : option string :=
  header ← split "," imageBase64 !! 0%nat;
  afterColon ← split ":" header !! 1%nat;
  split ";" afterColon !! 0%nat.

(** A part of the vendor's answer: [inlineData] as (mimeType, data) when
    present. *)
Record Part := mkPart {
  inlineData : option (string * string);
  text : option string
}.

(** The request built by [editImage]: the image part and the prompt. *)
Record Request := mkRequest {
  imageData : option string;
  imageMimeType : string;
  promptText : string
}.

(** [`data:${mimeType};base64,${base64ImageBytes}`] *)
Definition dataUri (mimeType base64ImageBytes : string) : string :=
  "data:" +:+ mimeType +:+ ";base64," +:+ base64ImageBytes.

(** The loop over the parts: the first part with [inlineData] decides. *)
Fixpoint firstImage (parts : list Part) : option string :=
  match parts with
  | [] => None
  | part :: parts' =>
      match inlineData part with
      | Some (mimeType, bytes) => Some (dataUri mimeType bytes)
      | None => firstImage parts'
      end
  end.

(** [editImage]; [None] stands for every way it throws or rejects: no API
    key, a source without colon, a failed or malformed vendor answer
    ([generateContent] gives [None]), an answer with no image.
    [apiKey] is [process.env.API_KEY]. *)
Definition editImage (apiKey : option string)
    (generateContent : Request -> option (list Part))
    (imageBase64 prompt : string) : option string :=
  match apiKey with
  | Some key =>
      if truthy key then
        mimeType ← sourceMimeType imageBase64;
        parts ← generateContent (mkRequest (sourceData imageBase64) mimeType prompt);
        firstImage parts
      else None
  | None => None
  end.

(** The vendor call as [App.handleGenerate] awaits it. *)
Definition editOutcome (apiKey : option string)
    (generateContent : Request -> option (list Part))
    (imageBase64 prompt : string) : App.EditOutcome :=
  match editImage apiKey generateContent imageBase64 prompt with
  | Some resultUrl => App.EditResolved resultUrl
  | None => App.EditRejected
  end.

End EditImage.

(** ** services/geminiService.ts: decodeAudioData *)
Module DecodeAudioData.

(** One element of [new Int16Array(data.buffer)]: two bytes, low byte
    first, read as a signed number. *)
Definition int16_of_pair (lo hi : Byte.byte) : Z :=
  let u := Z.of_N (Byte.to_N lo) + 256 * Z.of_N (Byte.to_N hi) in
  if 32768 <=? u then u - 65536 else u.

Fixpoint int16_pairs (bytes : list Byte.byte) : list Z :=
  match bytes with
  | lo :: hi :: rest => int16_of_pair lo hi :: int16_pairs rest
  | _ => []
  end.

(** [new Int16Array(data.buffer)]; a buffer of odd length throws. *)
Definition int16_view (bytes : list Byte.byte) : option (list Z) :=
  if (length bytes mod 2 =? 0)%nat then Some (int16_pairs bytes) else None.

Record AudioBuffer := mkAudioBuffer {
  sampleRate : positive;
  channelData : list (list Q)
}.

(** [dataInt16[i] / 32768.0], which is exact. *)
Definition toFloat (v : option Z) : Q :=
  match v with
  | Some v => Qmake v 32768
  | None => 0%Q
  end.

(** [decodeAudioData(data, ctx, sampleRate, numChannels)].  The frame
    count is [dataInt16.length / numChannels]; [createBuffer] keeps its
    whole part and throws ([None]) when that is zero or when the channel
    count is not between 1 and [maxChannels], the limit of the platform
    (32 or more); writes past the end of a channel are dropped.  The
    sample rate is taken in the platform's range. *)
Definition decodeAudioData (maxChannels : nat) (bytes : list Byte.byte)
    (rate : positive) (numChannels : nat) : option AudioBuffer :=
  dataInt16 ← int16_view bytes;
  let frameCount := (length dataInt16 / numChannels)%nat in
  if (1 <=? numChannels)%nat && (numChannels <=? maxChannels)%nat
     && (1 <=? frameCount)%nat
  then
    Some (mkAudioBuffer rate
      ((fun channel =>
          for_fill 0%Q frameCount
            (fun i => toFloat (dataInt16 !! (i * numChannels + channel)%nat)))
       <$> seq 0 numChannels))
  else None.

(** [buffer.duration] *)
Definition duration (buffer : AudioBuffer) : Q :=
  match channelData buffer with
  | channel :: _ => Qmake (Z.of_nat (length channel)) (sampleRate buffer)
  | [] => 0%Q
  end.

(** The round trip of the live audio format: what [createBlob] sends,
    taken through [decode] and [decodeAudioData] as one channel. *)
Definition loopback (maxChannels : nat) (samples : list GeminiService.Float32)
    (rate : positive) : option AudioBuffer :=
  bytes ← GeminiService.decode
             (GeminiService.data (GeminiService.createBlob samples));
  decodeAudioData maxChannels bytes rate 1.

End DecodeAudioData.

(** ** hooks/useGeminiLive.ts: the life cycle of a live session *)
Module LiveHook.
Import GeminiLive.

(** What the hook sends to the vendor session and how it wires the audio
    nodes ([None] as target is the context's destination). *)
Inductive Sent :=
  | SendMedia (mimeType : string) (data : option string)
  | Connect (node : nat) (target : option nat).

(** The hook: the refs of [GeminiLive.LiveState], the [error] state, and
    what the callbacks of the latest [startSession] closed over (its
    image argument and its session promise). *)
Record Hook := mkHook {
  live : LiveState;
  error : option string;
  startImage : option string;
  connection : option SessionPromise;
  sent : list Sent;
  consoleErrors : nat
}.

Definition initial : Hook :=
  mkHook GeminiLive.initial None None None [] 0.

(** What [startSession] meets: the microphone ([None]: the request is
    rejected), the names of the two audio contexts it creates,
    [process.env.API_KEY], and how the connection promise settles. *)
Record StartEnv := mkStartEnv {
  userMedia : option (list nat);
  inputContextId : nat;
  outputContextId : nat;
  apiKey : option string;
  connect : SessionPromise
}.

Definition keyPresent (apiKey : option string) : bool :=
  match apiKey with
  | Some key => truthy key
  | None => false
  end.

(** The [catch] of [startSession]: log, set the error, stop. *)
Definition startFailed (st : LiveState) (h : Hook) : Hook :=
  mkHook (stopSession st) (Some "Connection failed") (startImage h)
    (connection h) (sent h) (S (consoleErrors h)).

Definition startSession (env : StartEnv) (currentImageBase64 : option string)
    (h : Hook) : Hook :=
  let st := live h in
  if isLive st then h
  else
    let cleared :=
      mkLive (isLive st) (sessionPromiseRef st) (inputContext st)
        (outputContext st) (streamRef st) (sourceNode st) (processorNode st)
        (nextStartTimeRef st) (audioSourcesRef st) EmptyString EmptyString
        (interimTranscript st) (aiSpeaking st) (freshSource st) (calls st) in
    match userMedia env with
    | None => startFailed cleared h
    | Some tracks =>
        let acquired (promise : option SessionPromise) :=
          mkLive (isLive st) promise (Some (inputContextId env))
            (Some (outputContextId env)) (Some tracks) (sourceNode st)
            (processorNode st) (nextStartTimeRef st) (audioSourcesRef st)
            EmptyString EmptyString (interimTranscript st) (aiSpeaking st)
            (freshSource st) (calls st) in
        if keyPresent (apiKey env) then
          mkHook (acquired (Some (connect env))) None currentImageBase64
            (Some (connect env)) (sent h) (consoleErrors h)
        else startFailed (acquired (sessionPromiseRef st)) h
    end.

(** What a [sessionPromise.then(s => s.send...)] sends: nothing unless
    the promise resolves. *)
Definition whenConnected (h : Hook) (messages : list Sent) : list Sent :=
  match connection h with
  | Some (Connected _) => messages
  | _ => []
  end.

(** [onopen]; the two numbers name the nodes it creates.  The image is
    sent from a [then] of the session promise, hence after the nodes
    are wired. *)
Definition onopen (sourceId processorId : nat) (h : Hook) : Hook :=
  let st := live h in
  let opened (source processor : option nat) :=
    mkLive true (sessionPromiseRef st) (inputContext st) (outputContext st)
      (streamRef st) source processor (nextStartTimeRef st)
      (audioSourcesRef st) (currentInputTranscriptionRef st)
      (currentOutputTranscriptionRef st) (interimTranscript st)
      (aiSpeaking st) (freshSource st) (calls st) in
  match inputContext st, streamRef st with
  | Some _, Some _ =>
      let image :=
        match startImage h with
        | Some img =>
            if truthy img
            then whenConnected h [SendMedia "image/jpeg" (split "," img !! 1%nat)]
            else []
        | None => []
        end in
      mkHook (opened (Some sourceId) (Some processorId)) (error h)
        (startImage h) (connection h)
        (sent h
           ++ [Connect sourceId (Some processorId); Connect processorId None]
           ++ image)
        (consoleErrors h)
  | _, _ =>
      mkHook (opened (sourceNode st) (processorNode st)) (error h)
        (startImage h) (connection h) (sent h) (consoleErrors h)
  end.

(** [processor.onaudioprocess] on one block of microphone samples. *)
Definition onaudioprocess (samples : list GeminiService.Float32) (h : Hook) : Hook :=
  let blob := GeminiService.createBlob samples in
  mkHook (live h) (error h) (startImage h) (connection h)
    (sent h ++ whenConnected h
       [SendMedia (GeminiService.mimeType blob) (Some (GeminiService.data blob))])
    (consoleErrors h).

(** The parts of a server message the hook reads (tool calls apart). *)
Record Message := mkMessage {
  inputTranscription : option string;
  outputTranscription : option string;
  turnComplete : bool;
  audioData : option string
}.

(** [onmessage] without its tool calls, for a message handled alone in
    its task (the continuation of the audio branch runs before any other
    handler); the second component is the call of [onTurnComplete], if
    any. *)
Definition onmessage (currentTime : Q) (msg : Message) (h : Hook)
    : Hook * option (string * string) :=
  let '(st1, turn) :=
    onServerContent (inputTranscription msg) (outputTranscription msg)
      (turnComplete msg) (live h) in
  let st2 :=
    match audioData msg with
    | Some audio => playAudio currentTime audio st1
    | None => st1
    end in
  (mkHook st2 (error h) (startImage h) (connection h) (sent h) (consoleErrors h),
   turn).

(** [onmessage] up to the [await] of its audio branch: the transcription
    branches and the first half of the audio branch.  The components
    after the state are the call of [onTurnComplete] and the continuation
    left pending, if any. *)
Definition onmessage_begin (currentTime : Q) (msg : Message) (st : LiveState)
    : LiveState * option (string * string) * option Suspended :=
  let '(st1, turn) :=
    onServerContent (inputTranscription msg) (outputTranscription msg)
      (turnComplete msg) st in
  match audioData msg with
  | Some audio =>
      let '(st2, k) := playAudio_begin currentTime audio st1 in (st2, turn, k)
  | None => (st1, turn, None)
  end.

(** Several messages handled by one task: each call of [onmessage] runs
    up to its [await], then the continuations run in the order of the
    calls.  The second component lists the calls of [onTurnComplete]. *)
Definition onmessages (msgs : list (Q * Message)) (h : Hook)
    : Hook * list (string * string) :=
  let '(st1, turns, ks) :=
    foldl (fun acc m =>
             let '(st', turn, k) := onmessage_begin m.1 m.2 acc.1.1 in
             (st', acc.1.2 ++ option_list turn, acc.2 ++ option_list k))
          (live h, [], []) msgs in
  (mkHook (resumeAll ks st1) (error h) (startImage h) (connection h) (sent h)
     (consoleErrors h),
   turns).

Definition withLive (f : LiveState -> LiveState) (h : Hook) : Hook :=
  mkHook (f (live h)) (error h) (startImage h) (connection h) (sent h)
    (consoleErrors h).

Inductive Event :=
  | Start (env : StartEnv) (currentImageBase64 : option string)
  | Open (sourceId processorId : nat)
  | AudioProcess (samples : list GeminiService.Float32)
  | Receive (currentTime : Q) (msg : Message)
  | ReceiveBatch (msgs : list (Q * Message))   (* several messages, one task *)
  | Ended (source : nat)
  | Stop.                       (* the button, onclose, onerror, unmount *)

Definition step (h : Hook) (e : Event) : Hook :=
  match e with
  | Start env img => startSession env img h
  | Open sourceId processorId => onopen sourceId processorId h
  | AudioProcess samples => onaudioprocess samples h
  | Receive currentTime msg => (onmessage currentTime msg h).1
  | ReceiveBatch msgs => (onmessages msgs h).1
  | Ended source => withLive (onended source) h
  | Stop => withLive stopSession h
  end.

Definition run (evs : list Event) (h : Hook) : Hook := foldl step h evs.

(** The events of a session that is up: audio in, messages, ended
    sources. *)
Definition whileOpen (e : Event) : Prop :=
  match e with
  | AudioProcess _ | Receive _ _ | ReceiveBatch _ | Ended _ => True
  | _ => False
  end.

(** Nothing of a live session is held. *)
Definition released (st : LiveState) : Prop :=
  isLive st = false /\ sessionPromiseRef st = None /\ streamRef st = None /\
  sourceNode st = None /\ processorNode st = None /\
  inputContext st = None /\ outputContext st = None /\
  audioSourcesRef st = ∅ /\ nextStartTimeRef st = 0%Q.

(** The speaking indicator is on while a source is in the set. *)
Definition speakingWhilePlaying (st : LiveState) : Prop :=
  audioSourcesRef st <> ∅ -> aiSpeaking st = true.

(** The references a session holds while it is up. *)
Definition heldRefs (st : LiveState) :=
  (sessionPromiseRef st, streamRef st, sourceNode st, processorNode st,
   inputContext st, outputContext st).

(** A run of server messages, with the calls of [onTurnComplete] it
    makes, in order. *)
Definition receive (acc : Hook * list (string * string)) (m : Q * Message)
    : Hook * list (string * string) :=
  let '(h', turn) := onmessage m.1 m.2 acc.1 in
  (h', acc.2 ++ option_list turn).

Definition receiveAll (msgs : list (Q * Message)) (h : Hook)
    : Hook * list (string * string) :=
  foldl receive (h, []) msgs.

(** The texts of the fragments, joined in order. *)
Definition joinAll (fragments : list (option string)) : string :=
  foldr (fun fragment rest => default EmptyString fragment +:+ rest)
    EmptyString fragments.

(** [onTurnComplete] is [App.handleTurnComplete]. *)
Definition deliver (turns : list (string * string)) (app : App.AppState)
    : App.AppState :=
  foldl (fun app '(user, ai) => App.handleTurnComplete user ai app) app turns.

End LiveHook.

(** ** hooks/useSpeechRecognition.ts: transcripts and restarts, counted *)
Module SpeechCounts.
Import SpeechRecognition.

(** The text [onresult] adds to the final transcript: each final part
    followed by a space, in order. *)
Definition finals (results : list (string * bool)) : string :=
  foldr (fun '(part, isFinal) rest =>
           if isFinal : bool then part +:+ " " +:+ rest else rest)
        EmptyString results.

(** The interim text of the results: the parts that are not final, in
    order. *)
Definition interims (results : list (string * bool)) : string :=
  foldr (fun '(part, isFinal) rest =>
           if isFinal : bool then rest else part +:+ rest)
        EmptyString results.

Definition isRecStart (c : Call) : bool :=
  match c with
  | RecStart => true
  | _ => false
  end.

(** How often [recognition.start()] was called. *)
Definition startCalls (log : list Call) : nat :=
  length (List.filter isRecStart log).

Definition isOnEnd (e : Event) : bool :=
  match e with
  | OnEnd => true
  | _ => false
  end.

End SpeechCounts.

(** ** App.tsx: MediaViewer *)
Module MediaViewer.

Record Viewer := mkViewer { scale : Q; showOriginal : bool }.

(** [useState(1)], [useState(false)] *)
Definition initial : Viewer := mkViewer 1 false.

Inductive Action :=
  | ZoomOut      (* setScale(s => Math.max(1, s - 0.5)) *)
  | ZoomIn       (* setScale(s => Math.min(3, s + 0.5)) *)
  | ResetZoom    (* setScale(1) *)
  | ComparePress     (* onMouseDown, onTouchStart *)
  | CompareRelease.  (* onMouseUp, onMouseLeave, onTouchEnd *)

Definition step (v : Viewer) (a : Action) : Viewer :=
  match a with
  | ZoomOut => mkViewer (Qmax 1 (scale v - (1 # 2))) (showOriginal v)
  | ZoomIn => mkViewer (Qmin 3 (scale v + (1 # 2))) (showOriginal v)
  | ResetZoom => mkViewer 1 (showOriginal v)
  | ComparePress => mkViewer (scale v) true
  | CompareRelease => mkViewer (scale v) false
  end.

Definition run (actions : list Action) (v : Viewer) : Viewer :=
  foldl step v actions.

End MediaViewer.

(** ** App.tsx: Mascot *)
Module Mascot.

Inductive MascotMode := idle | listening | speaking | drawing | success.

(** [Math.max(-4, Math.min(4, (client / inner) * 8 - 4))] *)
Definition pupil (client inner : Q) : Q :=
  Qmax (-4) (Qmin 4 (client / inner * 8 - 4)).

(** [handleMouseMove]: the pupils follow the pointer only when the mascot
    is idle or listening. *)
Definition handleMouseMove (mode : MascotMode)
    (clientX clientY innerWidth innerHeight : Q) (pupilPos : Q * Q) : Q * Q :=
  match mode with
  | idle | listening => (pupil clientX innerWidth, pupil clientY innerHeight)
  | _ => pupilPos
  end.

End Mascot.

(** ** App.tsx: VisionBoard *)
Module VisionBoard.

(** [\s] on code units up to 255. *)
Definition isSpace (c : ascii) : bool :=
  let n := N_of_ascii c in
  ((9 <=? n) && (n <=? 13) || (n =? 32) || (n =? 160))%N.

(** [s] without the prefix [p], when it starts with it. *)
Fixpoint dropPrefix (p s : string) : option string :=
  match p, s with
  | EmptyString, _ => Some s
  | String a p', String b s' => if Ascii.eqb a b then dropPrefix p' s' else None
  | String _ _, EmptyString => None
  end.

(** [line.startsWith(p)] *)
Definition startsWith (p line : string) : bool :=
  match dropPrefix p line with
  | Some _ => true
  | None => false
  end.

(** A match of [/\*\*(You:|AI:)\*\*\s?/] at the start of [s]: what
    follows the match. *)
Definition matchTag (s : string) : option string :=
  let afterTag :=
    match dropPrefix "**You:**" s with
    | Some rest => Some rest
    | None => dropPrefix "**AI:**" s
    end in
  match afterTag with
  | Some (String c rest) => if isSpace c then Some rest else Some (String c rest)
  | other => other
  end.

(** [line.replace(/\*\*(You:|AI:)\*\*\s?/, '')]: the leftmost match is
    removed, the rest kept. *)
Fixpoint removeTag (line : string) : string :=
  match matchTag line with
  | Some rest => rest
  | None =>
      match line with
      | EmptyString => EmptyString
      | String c line' => String c (removeTag line')
      end
  end.

(** What a transcript line shows: on the user's side or not, and its
    text. *)
Definition renderLine (line : string) : bool * string :=
  (startsWith "**You:**" line, removeTag line).

End VisionBoard.

(** A separator that does not occur in a literal string. *)
Ltac free_literal :=
  unfold free_of; simpl;
  repeat (apply not_elem_of_cons; split; [discriminate|]);
  apply not_elem_of_nil.

(** * Proof automation *)

(** Goals over [/] and [mod] by constants, on [N] or [Z]. *)
Ltac divmod := zify; Z.to_euclidean_division_equations; lia.

(** The same, after splitting the [Forall] hypotheses on a list of bytes. *)
Ltac euclid :=
  repeat match goal with
         | H : Forall _ (_ :: _) |- _ => apply Forall_cons_1 in H as [? H]
         end;
  cbv beta in *; divmod.

(** Membership in an append of call lists. *)
Ltac in_app :=
  solve [ assumption
        | apply list_elem_of_here
        | apply elem_of_app; left; in_app
        | apply elem_of_app; right; in_app ].

(** * Properties *)

(** ** Sessions (App.tsx) *)
Section AppProperties.
Import App.

(** An upload, a render and an edit that resolves, run end to end. *)
Example handleGenerate_example :
  let st := commitRefs
    (handleImageUpload (FileRead "data:image/png;base64,AAAA")
       1700000000000 initial).1 in
  let out := handleGenerate (fun _ _ => EditResolved "data:image/png;base64,BBBB")
               "add a hat" st in
  out.2 = GenSuccess /\
  sessions out.1.1 =
    [mkSession "1700000000000"
       [mkMediaVersion "data:image/png;base64,AAAA" "Original" image;
        mkMediaVersion "data:image/png;base64,BBBB" "add a hat" image]
       [] 1%nat].
Proof. vm_compute. split; reflexivity. Qed.

(** With no session found in the refs the request ends at once. *)
Lemma handleGenerate_no_session
    (editImage : string -> string -> EditOutcome) (p : string) (st : AppState) :
  findSession (activeSessionIdRef st) (sessionsRef st) = None ->
  handleGenerate editImage p st = (st, [], GenError "No session").
Proof. intros H. unfold handleGenerate, handleGenerate_begin. by rewrite H. Qed.

(** An edit that resolves while no session is active changes no session. *)
Lemma edit_settle_without_active_session (p resultUrl : string) (st : AppState) :
  activeSessionIdRef st = None ->
  sessions (handleGenerate_settle p (EditResolved resultUrl) st).1.1 = sessions st.
Proof. intros H. simpl. unfold updateSession. by rewrite H. Qed.

Lemma truthy_toString (n : Z) : truthy (toString n) = true.
Proof.
  unfold toString. destruct (Z.to_int n) as [d|d]; simpl.
  - destruct d; reflexivity.
  - reflexivity.
Qed.

(** The identifier of an uploaded session is never the empty string, so
    [updateSession] does not skip it. *)
Lemma newSession_id_truthy (base64 : string) (now : Z) :
  truthy (id (newSession base64 now)) = true.
Proof. apply truthy_toString. Qed.

Lemma mapSession_lookup (i : string) (f : Session -> Session)
    (l : list Session) (k : nat) :
  mapSession i f l !! k =
  (fun s => if decide (id s = i) then f s else s) <$> (l !! k).
Proof. unfold mapSession. apply list_lookup_fmap. Qed.

Lemma mapSession_ids (i : string) (f : Session -> Session) (l : list Session) :
  (forall s, id (f s) = id s) ->
  id <$> mapSession i f l = id <$> l.
Proof.
  intros Hf. unfold mapSession. rewrite <- list_fmap_compose.
  apply list_fmap_ext. intros _ s _. simpl.
  destruct (decide (id s = i)); [apply Hf | reflexivity].
Qed.

Lemma updateSession_ids (f : Session -> Session) (st : AppState) :
  (forall s, id (f s) = id s) ->
  id <$> sessions (updateSession f st) = id <$> sessions st.
Proof.
  intros Hf. unfold updateSession.
  destruct (activeSessionIdRef st) as [i|]; [|reflexivity].
  destruct (truthy i); [|reflexivity].
  simpl. by apply mapSession_ids.
Qed.

Lemma step_ids (st : AppState) (e : Event) :
  id <$> sessions st `prefix_of` id <$> sessions (step st e).
Proof.
  destruct e as [f now| |p o|user ai|i|i| |a|]; simpl.
  - destruct f as [base64|]; simpl.
    + rewrite fmap_app. by apply prefix_app_r.
    + done.
  - unfold handleGenerate_begin.
    by destruct (findSession _ _).
  - destruct o as [resultUrl|]; simpl; [|done].
    by rewrite updateSession_ids.
  - unfold handleTurnComplete.
    destruct (activeSessionIdRef st) as [i|]; [|done].
    destruct (truthy i); [|done].
    simpl. by rewrite mapSession_ids.
  - by rewrite updateSession_ids.
  - done.
  - done.
  - by destruct a.
  - done.
Qed.

(** C8. No event of the application removes a session: along any run of
    uploads, edits, transcript turns, version and session selections,
    timers and renders, the list of session identifiers only grows at its
    end, and every session present before is still present, at the same
    place and under the same identifier, after. *)
Theorem sessions_only_grow (evs : list App.Event) (st : App.AppState) :
  id <$> App.sessions st `prefix_of` id <$> App.sessions (App.run evs st) /\
  (length (App.sessions st) <= length (App.sessions (App.run evs st)))%nat /\
  forall (k : nat) (s : Session),
    App.sessions st !! k = Some s ->
    exists s', App.sessions (App.run evs st) !! k = Some s' /\ id s' = id s.
Proof.
  assert (H : id <$> sessions st `prefix_of` id <$> sessions (run evs st)).
  { revert st. induction evs as [|e evs IH]; intros st; simpl.
    - done.
    - etrans; [apply step_ids | apply IH]. }
  split; [exact H|]. split.
  - apply prefix_length in H. by rewrite !length_fmap in H.
  - intros k s Hk.
    assert (Hid : (id <$> sessions st) !! k = Some (id s))
      by (by rewrite list_lookup_fmap, Hk).
    eapply prefix_lookup_Some in Hid; [|exact H].
    rewrite list_lookup_fmap in Hid.
    destruct (sessions (run evs st) !! k) as [s'|]; [|discriminate].
    exists s'. split; [done|]. by injection Hid.
Qed.

Lemma sessions_only_grow_witness :
  let st := (App.handleImageUpload (App.FileRead "data:image/png;base64,AAAA")
               1700000000000 App.initial).1 in
  let evs := [App.Commit; App.EditBegin;
              App.EditSettle "add a hat" (App.EditResolved "data:image/png;base64,BBBB");
              App.NewSession; App.Commit;
              App.Upload (App.FileRead "data:image/png;base64,CCCC") 1700000000500;
              App.TurnComplete "hello" "hi"] in
  App.sessions st !! 0%nat
    = Some (App.newSession "data:image/png;base64,AAAA" 1700000000000) /\
  exists s', App.sessions (App.run evs st) !! 0%nat = Some s' /\
             id s' = "1700000000000".
Proof.
  intros st evs. split; [reflexivity|].
  exact (proj2 (proj2 (sessions_only_grow evs st)) 0%nat
           (App.newSession "data:image/png;base64,AAAA" 1700000000000) eq_refl).
Defined.

(** Counterexample to C1 as worded (every successful edit appends to the
    session): an edit is begun on the uploaded session, the New button
    clears the active session while the vendor call is pending, and the
    edit then resolves.  It reports success, and the session it was
    started from still has its one version. *)
Lemma edit_success_without_new_version :
  let st := App.run
    [App.Upload (App.FileRead "data:image/png;base64,AAAA") 1700000000000;
     App.Commit; App.EditBegin; App.NewSession; App.Commit] App.initial in
  let out := App.handleGenerate_settle "add a hat"
               (App.EditResolved "data:image/png;base64,BBBB") st in
  App.handleGenerate_begin
    (App.run [App.Upload (App.FileRead "data:image/png;base64,AAAA") 1700000000000;
              App.Commit] App.initial)
    <> None /\
  out.2 = App.GenSuccess /\
  App.sessions out.1.1
    = [mkSession "1700000000000"
         [mkMediaVersion "data:image/png;base64,AAAA" "Original" image] [] 0%nat] /\
  ~ (exists s, s ∈ App.sessions out.1.1 /\
               mkMediaVersion "data:image/png;base64,BBBB" "add a hat" image
                 ∈ versions s).
Proof.
  assert (Hs : App.sessions
    (App.handleGenerate_settle "add a hat"
       (App.EditResolved "data:image/png;base64,BBBB")
       (App.run
          [App.Upload (App.FileRead "data:image/png;base64,AAAA") 1700000000000;
           App.Commit; App.EditBegin; App.NewSession; App.Commit] App.initial)).1.1
    = [mkSession "1700000000000"
         [mkMediaVersion "data:image/png;base64,AAAA" "Original" image] [] 0%nat])
    by (vm_compute; reflexivity).
  cbv zeta. split; [vm_compute; discriminate|]. split; [reflexivity|].
  split; [exact Hs|]. rewrite Hs.
  intros (s & Hin & Hv).
  apply list_elem_of_singleton in Hin. subst s. cbn [versions] in Hv.
  apply list_elem_of_singleton in Hv. discriminate Hv.
Qed.

(** C1 (amended). When an edit succeeds, every session that carries the
    identifier which [activeSessionIdRef] holds when the result arrives
    gets exactly one new version at the end of its versions, made of the
    result URI, the prompt and kind image; its current index is the index
    of that version; its earlier versions, its identifier and its
    transcript stay as they were; sessions with another identifier, and
    the number of sessions, are unchanged. *)
Theorem edit_success_appends_version
    (st : App.AppState) (p resultUrl i : string) :
  App.activeSessionIdRef st = Some i ->
  truthy i = true ->
  let out := App.handleGenerate_settle p (App.EditResolved resultUrl) st in
  let st' := out.1.1 in
  out.2 = App.GenSuccess /\
  length (App.sessions st') = length (App.sessions st) /\
  forall (k : nat) (s : Session),
    App.sessions st !! k = Some s ->
    if decide (id s = i) then
      exists s',
        App.sessions st' !! k = Some s' /\
        versions s' = versions s ++ [mkMediaVersion resultUrl p image] /\
        length (versions s') = S (length (versions s)) /\
        currentIndex s' = length (versions s) /\
        versions s' !! currentIndex s' = Some (mkMediaVersion resultUrl p image) /\
        (forall j v, versions s !! j = Some v -> versions s' !! j = Some v) /\
        id s' = id s /\ transcript s' = transcript s
    else App.sessions st' !! k = Some s.
Proof.
  intros Href Hi. simpl. unfold updateSession. rewrite Href, Hi. simpl.
  split; [reflexivity|]. split.
  - unfold mapSession. by rewrite length_fmap.
  - intros k s Hk. rewrite mapSession_lookup, Hk. simpl.
    destruct (decide (id s = i)) as [_|_]; [|reflexivity].
    eexists. split; [reflexivity|]. simpl.
    repeat split.
    + rewrite length_app. simpl. lia.
    + rewrite lookup_app_r by lia. by rewrite Nat.sub_diag.
    + intros j v Hj. by apply lookup_app_l_Some.
Qed.


(** A state with one uploaded session, rendered and committed. *)
Lemma edit_success_appends_version_witness :
  let st := App.commitRefs
    (App.handleImageUpload (App.FileRead "data:image/png;base64,AAAA")
       1700000000000 App.initial).1 in
  App.activeSessionIdRef st = Some "1700000000000" /\
  truthy "1700000000000" = true /\
  exists s',
    App.sessions
      (App.handleGenerate_settle "add a hat"
         (App.EditResolved "data:image/png;base64,BBBB") st).1.1 !! 0%nat
      = Some s' /\
    versions s' =
      [mkMediaVersion "data:image/png;base64,AAAA" "Original" image;
       mkMediaVersion "data:image/png;base64,BBBB" "add a hat" image] /\
    currentIndex s' = 1%nat.
Proof.
  intros st.
  split; [reflexivity|]. split; [reflexivity|].
  destruct (edit_success_appends_version st "add a hat"
              "data:image/png;base64,BBBB" "1700000000000"
              eq_refl eq_refl) as (_ & _ & H).
  specialize (H 0%nat (newSession "data:image/png;base64,AAAA" 1700000000000)
                eq_refl).
  destruct (decide _) as [_|Hne] in H; [|exfalso; apply Hne; reflexivity].
  destruct H as (s' & Hs' & Hv & _ & Hc & _).
  exists s'. split; [exact Hs'|]. split; [exact Hv | exact Hc].
Defined.

(** Counterexample to C4 as worded (banner and console only): a failed
    edit also plays the error sound. *)
Lemma edit_failure_plays_error_sound :
  ~ Forall App.banner_or_console
      (App.handleGenerate_settle "add a hat" App.EditRejected App.initial).1.2.
Proof.
  intros H. apply Forall_cons_1 in H as [_ H].
  apply Forall_cons_1 in H as [[H|[[ms H]|H]] _]; discriminate H.
Qed.

(** C4 (amended). An edit request that ends in failure leaves the
    session list exactly as it was, so no version is appended and no
    current index or transcript moves, and leaves the active session
    alone; it sets the error banner, logs to the console, plays the error
    sound and arms one timer of 3000 ms that clears the banner.  The same
    holds of the failure branch taken on whatever state is current when
    the awaited call rejects. *)
Theorem edit_failure_keeps_sessions
    (editImage : string -> string -> App.EditOutcome) (p : string)
    (st : App.AppState) :
  let out := App.handleGenerate editImage p st in
  out.2 = App.GenError "Failed" ->
  (App.sessions out.1.1 = App.sessions st /\
   App.activeSessionId out.1.1 = App.activeSessionId st /\
   App.activeSession out.1.1 = App.activeSession st /\
   App.isLoading out.1.1 = false /\
   App.error out.1.1 = Some "Generation failed. Please try again." /\
   out.1.2 = [App.PlaySound App.snd_start; App.PlaySound App.snd_scribble;
              App.SetInterval 2000;
              App.ConsoleError; App.PlaySound App.snd_error;
              App.SetTimeout App.ClearError 3000; App.ClearInterval] /\
   App.error (App.fire App.ClearError out.1.1) = None /\
   App.sessions (App.fire App.ClearError out.1.1) = App.sessions st) /\
  (forall st1,
     let late := App.handleGenerate_settle p App.EditRejected st1 in
     App.sessions late.1.1 = App.sessions st1 /\
     App.activeSessionId late.1.1 = App.activeSessionId st1 /\
     App.error late.1.1 = Some "Generation failed. Please try again." /\
     late.1.2 = [App.ConsoleError; App.PlaySound App.snd_error;
                 App.SetTimeout App.ClearError 3000; App.ClearInterval] /\
     late.2 = App.GenError "Failed").
Proof.
  intros out Hfail. split; [|by intros st1; simpl].
  revert Hfail. subst out. unfold handleGenerate, handleGenerate_begin.
  destruct (findSession (activeSessionIdRef st) (sessionsRef st)) as [session|];
    [|discriminate].
  destruct (src <$> last (versions session)) as [sourceImage|].
  - destruct (editImage sourceImage p) as [resultUrl|]; [discriminate|].
    intros _. simpl. by repeat split.
  - intros _. simpl. by repeat split.
Qed.

Lemma edit_failure_keeps_sessions_witness :
  let st := App.commitRefs
    (App.handleImageUpload (App.FileRead "data:image/png;base64,AAAA")
       1700000000000 App.initial).1 in
  let out := App.handleGenerate (fun _ _ => App.EditRejected) "add a hat" st in
  out.2 = App.GenError "Failed" /\
  App.sessions out.1.1 = App.sessions st.
Proof.
  intros st out. split; [reflexivity|].
  exact (proj1 (proj1
    (edit_failure_keeps_sessions (fun _ _ => App.EditRejected) "add a hat" st
       eq_refl))).
Defined.

Lemma find_app_fresh (i : string) (l : list Session) (s : Session) :
  (forall s0, s0 ∈ l -> id s0 <> i) -> id s = i ->
  List.find (fun s => bool_decide (id s = i)) (l ++ [s]) = Some s.
Proof.
  intros Hfresh Hs. induction l as [|x l IH]; simpl.
  - by rewrite bool_decide_eq_true_2.
  - rewrite bool_decide_eq_false_2.
    + apply IH. intros s0 H0. apply Hfresh. by right.
    + apply Hfresh. by left.
Qed.

(** C6. A successfully read upload appends exactly one session to the
    list, holding the single version (data URI, prompt Original, kind
    image), an empty transcript and current index 0; the active
    identifier becomes that of the new session, and the session shown is
    the new one as long as its timestamp identifier is not already borne
    by a session of the list. *)
Theorem upload_creates_session
    (st : App.AppState) (base64 : string) (now : Z) :
  let st' := (App.handleImageUpload (App.FileRead base64) now st).1 in
  let s := App.newSession base64 now in
  App.sessions st' = App.sessions st ++ [s] /\
  length (App.sessions st') = S (length (App.sessions st)) /\
  versions s = [mkMediaVersion base64 "Original" image] /\
  transcript s = [] /\
  currentIndex s = 0%nat /\
  App.activeSessionId st' = Some (id s) /\
  ((forall s0, s0 ∈ App.sessions st -> id s0 <> id s) ->
   App.activeSession st' = Some s).
Proof.
  simpl. repeat split.
  - rewrite length_app. simpl. lia.
  - intros Hfresh. unfold activeSession. simpl.
    by apply find_app_fresh.
Qed.

Lemma upload_creates_session_witness :
  let st := (App.handleImageUpload (App.FileRead "data:image/png;base64,AAAA")
               1700000000000 App.initial).1 in
  (forall s0, s0 ∈ App.sessions st ->
     id s0 <> id (App.newSession "data:image/png;base64,CCCC" 1700000000500)) /\
  App.activeSession
    (App.handleImageUpload (App.FileRead "data:image/png;base64,CCCC")
       1700000000500 st).1
  = Some (App.newSession "data:image/png;base64,CCCC" 1700000000500).
Proof.
  intros st.
  assert (Hfresh : forall s0, s0 ∈ App.sessions st ->
     id s0 <> id (App.newSession "data:image/png;base64,CCCC" 1700000000500)).
  { intros s0 Hin. apply list_elem_of_singleton in Hin. subst s0. discriminate. }
  split; [exact Hfresh|].
  exact (proj2 (proj2 (proj2 (proj2 (proj2 (proj2
    (upload_creates_session st "data:image/png;base64,CCCC" 1700000000500))))))
    Hfresh).
Defined.

End AppProperties.

(** ** Codec (services/geminiService.ts) *)
Section CodecProperties.
Import GeminiService.

(** *** The typed-array fill loop *)

Lemma for_fill_partial {A} (zero : A) (f : nat -> A) (len k : nat) :
  (k <= len)%nat ->
  foldl (fun a i => <[i := f i]> a) (replicate len zero) (seq 0 k)
  = (f <$> seq 0 k) ++ replicate (len - k) zero.
Proof.
  induction k as [|k IH]; intros Hk.
  - simpl. by rewrite Nat.sub_0_r.
  - rewrite seq_S, foldl_snoc, IH by lia. simpl.
    rewrite fmap_app. simpl.
    replace (len - k)%nat with (S (len - S k)) by lia. simpl.
    rewrite insert_app_r_alt by (rewrite length_fmap, length_seq; lia).
    rewrite length_fmap, length_seq, Nat.sub_diag. simpl.
    by rewrite <- app_assoc.
Qed.

Lemma for_fill_spec {A} (zero : A) (len : nat) (f : nat -> A) :
  for_fill zero len f = f <$> seq 0 len.
Proof.
  unfold for_fill. rewrite for_fill_partial by lia.
  rewrite Nat.sub_diag. simpl. apply app_nil_r.
Qed.

Lemma for_fill_lookup {A} (zero : A) (len : nat) (f : nat -> A) (i : nat) :
  (i < len)%nat -> for_fill zero len f !! i = Some (f i).
Proof.
  intros Hi. rewrite for_fill_spec, list_lookup_fmap.
  by rewrite lookup_seq_lt.
Qed.

Lemma length_for_fill {A} (zero : A) (len : nat) (f : nat -> A) :
  length (for_fill zero len f) = len.
Proof. by rewrite for_fill_spec, length_fmap, length_seq. Qed.

(** *** Strings and bytes *)

Lemma append_string_of_list_ascii (l k : list ascii) :
  string_of_list_ascii l +:+ string_of_list_ascii k = string_of_list_ascii (l ++ k).
Proof.
  induction l as [|c l IH]; [reflexivity|].
  simpl. rewrite <- IH. reflexivity.
Qed.

Lemma encode_loop (bytes : list Byte.byte) (acc : list ascii) :
  foldl (fun binary b => binary +:+ fromCharCode b) (string_of_list_ascii acc) bytes
  = string_of_list_ascii (acc ++ (ascii_of_byte <$> bytes)).
Proof.
  revert acc. induction bytes as [|b bytes IH]; intros acc; simpl.
  - by rewrite app_nil_r.
  - unfold fromCharCode at 2.
    change (String (ascii_of_byte b) EmptyString) with (string_of_list_ascii [ascii_of_byte b]).
    rewrite append_string_of_list_ascii, IH.
    by rewrite <- app_assoc.
Qed.

Lemma get_string_of_list_ascii (l : list ascii) (i : nat) :
  String.get i (string_of_list_ascii l) = l !! i.
Proof.
  revert i. induction l as [|c l IH]; intros [|i]; simpl; auto.
Qed.

Lemma length_string_of_list_ascii (l : list ascii) :
  String.length (string_of_list_ascii l) = length l.
Proof. induction l as [|c l IH]; simpl; [done | by rewrite IH]. Qed.

Lemma toUint8_of_byte (b : Byte.byte) :
  toUint8 (Some (N_of_ascii (ascii_of_byte b))) = b.
Proof. destruct b; reflexivity. Qed.


(** *** Base64 *)

(** Induction over a list three elements at a time. *)
Lemma list_ind3 {A} (P : list A -> Prop) :
  P [] -> (forall a, P [a]) -> (forall a b, P [a; b]) ->
  (forall a b c rest, P rest -> P (a :: b :: c :: rest)) ->
  forall l, P l.
Proof.
  intros H0 H1 H2 H3 l.
  assert (H : P l /\ (forall a, P (a :: l)) /\ (forall a b, P (a :: b :: l))).
  { induction l as [|x l (IH0 & IH1 & IH2)]; [by auto|].
    repeat split; auto. }
  apply H.
Qed.

Lemma btoa_groups_split (l : list N) :
  btoa_groups l = (b64_char <$> btoa_sextets l) ++ replicate (pad_count l) pad.
Proof.
  induction l as [|a|a b|a b c rest IH] using list_ind3; try reflexivity.
  change (btoa_groups (a :: b :: c :: rest)) with
    (b64_char (a / 4) :: b64_char ((a mod 4) * 16 + b / 16)
     :: b64_char ((b mod 16) * 4 + c / 64) :: b64_char (c mod 64)
     :: btoa_groups rest)%N.
  rewrite IH. reflexivity.
Qed.

Lemma btoa_sextets_bound (l : list N) :
  Forall (fun a => a < 256)%N l -> Forall (fun s => s < 64)%N (btoa_sextets l).
Proof.
  induction l as [|a|a b|a b c rest IH] using list_ind3; intros Hl.
  - constructor.
  - simpl. repeat (apply Forall_cons; split; [euclid|]). constructor.
  - simpl. repeat (apply Forall_cons; split; [euclid|]). constructor.
  - change (btoa_sextets (a :: b :: c :: rest)) with
      (a / 4 :: (a mod 4) * 16 + b / 16 :: (b mod 16) * 4 + c / 64 :: c mod 64
       :: btoa_sextets rest)%N.
    apply Forall_cons_1 in Hl as [Ha Hl].
    apply Forall_cons_1 in Hl as [Hb Hl].
    apply Forall_cons_1 in Hl as [Hc Hl].
    cbv beta in Ha, Hb, Hc.
    repeat (apply Forall_cons; split; [divmod|]).
    by apply IH.
Qed.

Lemma atob_groups_btoa_sextets (l : list N) :
  Forall (fun a => a < 256)%N l -> atob_groups (btoa_sextets l) = l.
Proof.
  induction l as [|a|a b|a b c rest IH] using list_ind3; intros Hl.
  - reflexivity.
  - simpl. f_equal. euclid.
  - simpl. f_equal; [|f_equal]; euclid.
  - change (btoa_sextets (a :: b :: c :: rest)) with
      (a / 4 :: (a mod 4) * 16 + b / 16 :: (b mod 16) * 4 + c / 64 :: c mod 64
       :: btoa_sextets rest)%N.
    apply Forall_cons_1 in Hl as [Ha Hl].
    apply Forall_cons_1 in Hl as [Hb Hl].
    apply Forall_cons_1 in Hl as [Hc Hl].
    cbv beta in Ha, Hb, Hc.
    cbn [atob_groups]. rewrite IH by done.
    f_equal; [|f_equal; [|f_equal]]; divmod.
Qed.

Lemma length_btoa_sextets (l : list N) :
  ((length (btoa_sextets l) + pad_count l) mod 4 = 0
   /\ length (btoa_sextets l) mod 4 <> 1 /\ pad_count l <= 2)%nat.
Proof.
  induction l as [|a|a b|a b c rest IH] using list_ind3;
    try (simpl; repeat split; lia).
  change (btoa_sextets (a :: b :: c :: rest)) with
      (a / 4 :: (a mod 4) * 16 + b / 16 :: (b mod 16) * 4 + c / 64 :: c mod 64
       :: btoa_sextets rest)%N.
  change (pad_count (a :: b :: c :: rest)) with (pad_count rest).
  cbn [length].
  destruct IH as (IH1 & IH2 & IH3).
  repeat split; [ | |exact IH3].
  - replace (S (S (S (S (length (btoa_sextets rest))))) + pad_count rest)%nat
      with ((length (btoa_sextets rest) + pad_count rest) + 1 * 4)%nat by lia.
    by rewrite Nat.Div0.mod_add.
  - replace (S (S (S (S (length (btoa_sextets rest))))))
      with (length (btoa_sextets rest) + 1 * 4)%nat by lia.
    by rewrite Nat.Div0.mod_add.
Qed.


Lemma b64_char_in_alphabet (n : N) : b64_char n ∈ alphabet.
Proof.
  unfold b64_char. apply list_elem_of_In.
  destruct (Nat.lt_ge_cases (N.to_nat n) (length alphabet)) as [Hlt|Hge].
  - by apply nth_In.
  - rewrite nth_overflow by done. by left.
Qed.

Lemma alphabet_plain :
  Forall (fun c => is_ascii_whitespace c = false /\ c <> pad) alphabet.
Proof. repeat (constructor; [by split|]). constructor. Qed.

Lemma b64_char_plain (n : N) :
  is_ascii_whitespace (b64_char n) = false /\ b64_char n <> pad.
Proof.
  pose proof alphabet_plain as H. rewrite Forall_forall in H.
  apply H, b64_char_in_alphabet.
Qed.

Lemma b64_index_char (n : N) : (n < 64)%N -> b64_index (b64_char n) = Some n.
Proof.
  intros Hn.
  assert (H : forall k, (k < 64)%nat ->
            b64_index (b64_char (N.of_nat k)) = Some (N.of_nat k)).
  { intros k Hk. do 64 (destruct k as [|k]; [reflexivity|]). lia. }
  rewrite <- (N2Nat.id n). apply H. lia.
Qed.

Lemma filter_all {A} (P : A -> Prop) `{!forall x, Decision (P x)} (l : list A) :
  Forall P l -> filter P l = l.
Proof.
  induction 1 as [|x l Hx _ IH]; [done|].
  rewrite filter_cons_True by done. by rewrite IH.
Qed.

Lemma strip_padding_padded (m : list ascii) (pads : nat) :
  Forall (fun c => c <> pad) m -> (pads <= 2)%nat ->
  ((length m + pads) mod 4 = 0)%nat ->
  strip_padding (m ++ replicate pads pad) = m.
Proof.
  intros Hm Hpads Hlen. unfold strip_padding.
  rewrite length_app, length_replicate, Hlen. simpl.
  rewrite rev_app_distr.
  assert (Hrev : Forall (fun c => c <> pad) (rev m)).
  { by apply List.Forall_rev. }
  assert (Hneq : forall c, c <> pad -> Ascii.eqb c pad = false).
  { intros c Hc. by apply Ascii.eqb_neq. }
  destruct pads as [|[|[|pads]]]; [| | |lia]; simpl.
  - rewrite app_nil_r.
    destruct (rev m) as [|p1 [|p2 r]] eqn:E; [done| |].
    + apply Forall_cons_1 in Hrev as [Hp1 _]. by rewrite Hneq.
    + apply Forall_cons_1 in Hrev as [Hp1 _]. by rewrite Hneq.
  - destruct (rev m) as [|p2 r] eqn:E.
    + apply (f_equal (@rev _)) in E. rewrite rev_involutive in E. by subst m.
    + apply Forall_cons_1 in Hrev as [Hp2 _]. rewrite (Hneq _ Hp2).
      change (rev r ++ [p2]) with (rev (p2 :: r)).
      rewrite <- E. apply rev_involutive.
  - apply rev_involutive.
Qed.

Lemma atob_btoa (s : string) : atob (btoa s) = Some s.
Proof.
  unfold atob, btoa.
  set (l := N_of_ascii <$> list_ascii_of_string s).
  assert (Hl : Forall (fun a => a < 256)%N l).
  { apply Forall_fmap, Forall_true. intros c. apply N_ascii_bounded. }
  rewrite list_ascii_of_string_of_list_ascii.
  assert (Hplain : Forall (fun c => is_ascii_whitespace c = false /\ c <> pad)
                     (b64_char <$> btoa_sextets l)).
  { apply Forall_fmap, Forall_true. intros n. apply b64_char_plain. }
  destruct (length_btoa_sextets l) as (Hlen & Hlen1 & Hpads).
  rewrite filter_all.
  2:{ rewrite btoa_groups_split. apply Forall_app. split.
      - eapply Forall_impl; [exact Hplain|]. by intros c [? _].
      - by apply Forall_replicate. }
  rewrite btoa_groups_split, strip_padding_padded; [| |done|].
  2:{ eapply Forall_impl; [exact Hplain|]. by intros c [_ ?]. }
  2:{ by rewrite length_fmap. }
  rewrite length_fmap.
  destruct (length (btoa_sextets l) mod 4 =? 1)%nat eqn:E.
  { apply Nat.eqb_eq in E. done. }
  rewrite mapM_fmap_Forall_Some.
  2:{ eapply Forall_impl; [by apply btoa_sextets_bound|].
      intros n Hn. by apply b64_index_char. }
  simpl. rewrite atob_groups_btoa_sextets by done.
  unfold l. rewrite <- list_fmap_compose.
  erewrite list_fmap_ext; [|intros _ c _; apply ascii_N_embedding].
  rewrite list_fmap_id. by rewrite string_of_list_ascii_of_string.
Qed.

(** C9. Decoding an encoded byte array succeeds and returns the same
    bytes. *)
Theorem decode_encode (bytes : list Byte.byte) :
  GeminiService.decode (GeminiService.encode bytes) = Some bytes.
Proof.
  unfold decode, encode.
  change EmptyString with (string_of_list_ascii []).
  rewrite encode_loop, atob_btoa. simpl.
  f_equal. rewrite for_fill_spec, length_string_of_list_ascii, length_fmap.
  apply list_eq. intros i.
  rewrite list_lookup_fmap.
  destruct (decide (i < length bytes)%nat) as [Hi|Hi].
  - rewrite lookup_seq_lt by done. simpl.
    unfold charCodeAt. rewrite get_string_of_list_ascii, list_lookup_fmap.
    destruct (lookup_lt_is_Some_2 bytes i Hi) as [b Hb].
    rewrite Hb. f_equal. apply toUint8_of_byte.
  - rewrite lookup_seq_ge by lia. simpl.
    symmetry. apply lookup_ge_None. lia.
Qed.


(** *** createBlob *)

Lemma samples_int16_lookup (samples : list Float32) (i : nat) (s : Float32) :
  samples !! i = Some s ->
  samples_int16 samples !! i = Some (ToInt16 (fmul32768 s)).
Proof.
  intros Hs. unfold samples_int16.
  rewrite for_fill_lookup by (by eapply lookup_lt_Some).
  unfold sampleAt. by rewrite Hs.
Qed.

Lemma ToInt16_range (q : Q) :
  let v := ToInt16 (F_fin q) in
  -32768 <= v < 32768 /\ v mod 65536 = trunc q mod 65536.
Proof.
  simpl. destruct (Z.leb_spec 32768 (trunc q mod 65536)) as [H|H].
  - split; [divmod|].
    rewrite <- (Z.mod_add _ 1 65536) by lia.
    rewrite <- (Zmod_mod (trunc q) 65536) at 2.
    f_equal. lia.
  - split; [divmod|]. apply Zmod_mod.
Qed.

Lemma ToInt16_small (q : Q) :
  -32768 <= trunc q < 32768 -> ToInt16 (F_fin q) = trunc q.
Proof.
  intros H. simpl.
  destruct (Z.leb_spec 32768 (trunc q mod 65536)) as [H'|H']; divmod.
Qed.

Lemma trunc_scaled_range (q : Q) :
  (-1 <= q)%Q -> (q < 1)%Q -> -32768 <= trunc (q * 32768) < 32768.
Proof.
  destruct q as [n d]. unfold Qle, Qlt, trunc, Qmult. cbn [Qnum Qden].
  intros Hlo Hhi. rewrite Pos.mul_1_r.
  assert (HD : 0 < Z.pos d) by lia.
  revert Hlo Hhi HD. generalize (Z.pos d). intros D Hlo Hhi HD.
  split.
  - apply Z.quot_le_lower_bound; lia.
  - destruct (Z.lt_ge_cases n 0) as [Hn|Hn].
    + replace (n * 32768) with (- (- n * 32768)) by lia.
      rewrite Z.quot_opp_l by lia.
      pose proof (Z.quot_pos (- n * 32768) D). lia.
    + apply Z.quot_lt_upper_bound; lia.
Qed.

Lemma trunc_scaled_one (q : Q) : (q == 1)%Q -> trunc (q * 32768) = 32768.
Proof.
  destruct q as [n d]. unfold Qeq, trunc, Qmult. cbn [Qnum Qden]. intros H.
  rewrite Pos.mul_1_r.
  replace n with (Z.pos d) by lia.
  rewrite Z.mul_comm. apply Z.quot_mul. lia.
Qed.

Example createBlob_example :
  createBlob [F_fin 1; F_fin (Qmake 1 2)]
  = mkBlob "AIAAQA==" "audio/pcm;rate=16000".
Proof. vm_compute. reflexivity. Qed.

(** *** What the blob holds *)

Lemma encode_as_btoa (bytes : list Byte.byte) :
  encode bytes = btoa (string_of_list_ascii (ascii_of_byte <$> bytes)).
Proof.
  unfold encode. change EmptyString with (string_of_list_ascii []).
  by rewrite encode_loop.
Qed.

Lemma toUint8_of_ascii (c : ascii) :
  toUint8 (Some (N_of_ascii c)) = byte_of_ascii c.
Proof.
  unfold toUint8. pose proof (N_ascii_bounded c).
  rewrite N.mod_small by done.
  by rewrite <- byte_of_ascii_via_N.
Qed.

(** Decoding the base64 text of any binary string gives its bytes. *)
Lemma decode_btoa (cs : list ascii) :
  decode (btoa (string_of_list_ascii cs)) = Some (byte_of_ascii <$> cs).
Proof.
  unfold decode. rewrite atob_btoa. cbn [mbind option_bind].
  f_equal. rewrite for_fill_spec, length_string_of_list_ascii.
  apply list_eq. intros i. rewrite !list_lookup_fmap.
  destruct (decide (i < length cs)%nat) as [Hi|Hi].
  - rewrite lookup_seq_lt by done. simpl.
    unfold charCodeAt. rewrite get_string_of_list_ascii.
    destruct (lookup_lt_is_Some_2 cs i Hi) as [c Hc].
    rewrite Hc. simpl. f_equal. apply toUint8_of_ascii.
  - rewrite lookup_seq_ge by lia. simpl.
    by rewrite (proj2 (lookup_ge_None cs i)) by lia.
Qed.

Lemma decode_createBlob (samples : list Float32) :
  decode (data (createBlob samples)) = Some (samples_int16 samples ≫= int16_bytes).
Proof.
  unfold createBlob. cbn [data]. rewrite encode_as_btoa, decode_btoa.
  f_equal. rewrite <- list_fmap_compose.
  erewrite list_fmap_ext; [apply list_fmap_id|].
  intros _ b _. apply byte_of_ascii_of_byte.
Qed.

Lemma to_N_toUint8 (n : N) : Byte.to_N (toUint8 (Some n)) = (n mod 256)%N.
Proof.
  unfold toUint8.
  destruct (Byte.of_N (n mod 256)) as [b|] eqn:E.
  - by apply Byte.to_of_N.
  - apply Byte.of_N_None_iff in E.
    pose proof (N.mod_upper_bound n 256 ltac:(done)). lia.
Qed.

Lemma int16_of_pair_bytes (v : Z) :
  -32768 <= v < 32768 ->
  DecodeAudioData.int16_pairs (int16_bytes v) = [v].
Proof.
  intros Hv. unfold int16_bytes. cbn [DecodeAudioData.int16_pairs]. f_equal.
  unfold DecodeAudioData.int16_of_pair. rewrite !to_N_toUint8.
  set (u := Z.to_N (v mod 65536)).
  assert (Hu : Z.of_N u = v mod 65536).
  { subst u. rewrite Z2N.id; [done|]. apply Z.mod_pos_bound. lia. }
  assert (Hlohi : Z.of_N (u mod 256) + 256 * Z.of_N ((u / 256) mod 256)
                  = v mod 65536).
  { rewrite <- Hu. pose proof (Z.mod_pos_bound v 65536 ltac:(lia)).
    rewrite !N2Z.inj_mod, N2Z.inj_div. rewrite Hu. simpl Z.of_N. divmod. }
  rewrite Hlohi.
  destruct (Z.leb_spec 32768 (v mod 65536)); divmod.
Qed.

Lemma int16_pairs_bytes (l : list Z) :
  Forall (fun v => -32768 <= v < 32768) l ->
  DecodeAudioData.int16_pairs (l ≫= int16_bytes) = l /\
  length (l ≫= int16_bytes) = (2 * length l)%nat.
Proof.
  induction 1 as [|v l Hv _ [IH1 IH2]]; [done|].
  rewrite bind_cons.
  change (int16_bytes v ++ l ≫= int16_bytes)
    with (toUint8 (Some (Z.to_N (v mod 65536)))
          :: toUint8 (Some (Z.to_N (v mod 65536) / 256)%N)
          :: l ≫= int16_bytes).
  split.
  - cbn [DecodeAudioData.int16_pairs]. rewrite IH1. f_equal.
    pose proof (int16_of_pair_bytes v Hv) as H. unfold int16_bytes in H.
    cbn [DecodeAudioData.int16_pairs] in H. by injection H.
  - cbn [length]. rewrite IH2. lia.
Qed.

Lemma samples_int16_range (samples : list Float32) :
  Forall (fun v => -32768 <= v < 32768) (samples_int16 samples).
Proof.
  unfold samples_int16. rewrite for_fill_spec. apply Forall_fmap, Forall_true.
  intros i. simpl. destruct (sampleAt samples i) as [| |q]; simpl; [lia..|].
  apply (ToInt16_range (q * 32768)).
Qed.

(** C10. The blob that [createBlob] returns carries the MIME type
    audio/pcm;rate=16000 and, as base64 text, two bytes for each sample.
    Read back as 16-bit little-endian signed integers, the bytes give for
    each finite sample [s] the integer congruent modulo 2^16 to the
    truncation of [s * 32768]; nothing is clamped: the sample 1 gives
    -32768, and a sample from -1 up to but excluding 1 gives the
    truncation itself. *)
Theorem createBlob_wraps_samples (samples : list GeminiService.Float32) :
  let blob := GeminiService.createBlob samples in
  GeminiService.mimeType blob = "audio/pcm;rate=16000" /\
  exists bytes,
    GeminiService.decode (GeminiService.data blob) = Some bytes /\
    length bytes = (2 * length samples)%nat /\
    length (DecodeAudioData.int16_pairs bytes) = length samples /\
    forall (i : nat) (q : Q),
      samples !! i = Some (GeminiService.F_fin q) ->
      let t := GeminiService.trunc (q * 32768) in
      exists v,
        DecodeAudioData.int16_pairs bytes !! i = Some v /\
        -32768 <= v < 32768 /\
        v mod 65536 = t mod 65536 /\
        ((q == 1)%Q -> t = 32768 /\ v = -32768) /\
        ((-1 <= q)%Q /\ (q < 1)%Q -> v = t).
Proof.
  intros blob. split; [reflexivity|].
  exists (samples_int16 samples ≫= int16_bytes).
  destruct (int16_pairs_bytes (samples_int16 samples) (samples_int16_range samples))
    as [Hpairs Hlen].
  assert (Hn : length (samples_int16 samples) = length samples).
  { unfold samples_int16. apply length_for_fill. }
  split; [apply decode_createBlob|].
  split; [by rewrite Hlen, Hn|].
  rewrite Hpairs. split; [exact Hn|].
  intros i q Hs t. eexists. split; [by apply samples_int16_lookup|].
  cbn [fmul32768]. fold t.
  destruct (ToInt16_range (q * 32768)) as [Hr Hm].
  split; [exact Hr|]. split; [exact Hm|]. split.
  - intros H1. pose proof (trunc_scaled_one q H1) as Ht. fold t in Ht.
    split; [exact Ht|]. fold t in Hm. rewrite Ht in Hm.
    cbv zeta in Hr. revert Hr Hm.
    generalize (ToInt16 (F_fin (q * 32768))). intros v Hr Hm. divmod.
  - intros [Hlo Hhi]. apply ToInt16_small. by apply trunc_scaled_range.
Qed.

Lemma createBlob_wraps_samples_witness :
  let samples := [GeminiService.F_fin 1; GeminiService.F_fin (Qmake 1 2)] in
  samples !! 0%nat = Some (GeminiService.F_fin 1) /\
  exists bytes,
    GeminiService.decode (GeminiService.data (GeminiService.createBlob samples))
      = Some bytes /\
    DecodeAudioData.int16_pairs bytes !! 0%nat = Some (-32768).
Proof.
  intros samples. split; [reflexivity|].
  destruct (createBlob_wraps_samples samples) as (_ & bytes & Hb & _ & _ & H).
  exists bytes. split; [exact Hb|].
  destruct (H 0%nat 1%Q eq_refl) as (v & Hv & _ & _ & H1 & _).
  destruct (H1 (Qeq_refl 1)) as [_ Hv1]. rewrite Hv1 in Hv. exact Hv.
Defined.

End CodecProperties.

(** ** Live session (hooks/useGeminiLive.ts) *)
Section LiveProperties.
Import GeminiLive.


Lemma chained_le (w w' : Q) (l : list (Q * Q)) :
  chained w l w' -> (w <= w')%Q.
Proof.
  revert w. induction l as [|[s e] l IH]; intros w; simpl.
  - intros ->. apply Qle_refl.
  - intros (Hs & He & Hl). apply IH in Hl. lra.
Qed.

Lemma chained_app (w w1 w2 : Q) (l1 l2 : list (Q * Q)) :
  chained w l1 w1 -> chained w1 l2 w2 -> chained w (l1 ++ l2) w2.
Proof.
  revert w. induction l1 as [|[s e] l1 IH]; intros w; simpl.
  - by intros ->.
  - intros (Hs & He & Hl) H2. repeat split; [done..|]. by apply IH.
Qed.

Lemma abutting_app (w w1 : Q) (l1 l2 : list (Q * Q)) :
  chained w l1 w1 -> abutting w l1 -> abutting w1 l2 -> abutting w (l1 ++ l2).
Proof.
  revert w. induction l1 as [|[s e] l1 IH]; intros w; simpl.
  - by intros ->.
  - intros (_ & _ & Hl) [Hs Ha] H2. split; [done|]. by apply IH.
Qed.

Lemma bufferDuration_nonneg (bytes : list Byte.byte) (rate : positive) (d : Q) :
  GeminiService.bufferDuration bytes rate = Some d -> (0 <= d)%Q.
Proof.
  unfold GeminiService.bufferDuration.
  destruct (_ && _); [|discriminate].
  intros [= <-]. unfold Qle. simpl. lia.
Qed.

(** A buffer that decodes has at least one frame. *)
Lemma bufferDuration_pos (bytes : list Byte.byte) (rate : positive) (d : Q) :
  GeminiService.bufferDuration bytes rate = Some d -> (0 < d)%Q.
Proof.
  unfold GeminiService.bufferDuration.
  destruct (_ =? _)%nat; [|discriminate].
  destruct (1 <=? length bytes / 2)%nat eqn:E; [|discriminate].
  apply Nat.leb_le in E. set (n := (length bytes / 2)%nat) in *.
  intros [= <-]. unfold Qlt. cbn [Qnum Qden]. lia.
Qed.

Lemma scheduled_snoc (st : LiveState) (cs : list Call) (c : Call) :
  calls st = cs ->
  forall st', calls st' = cs ++ [c] ->
  scheduled st' = scheduled st ++
    match c with
    | SourceStart _ start duration => [(start, (start + duration)%Q)]
    | _ => []
    end.
Proof.
  intros <- st' H. unfold scheduled. rewrite H, bind_app. simpl.
  by rewrite app_nil_r.
Qed.

(** One chunk: either nothing is scheduled and the watermark stays, or
    one buffer is started at the larger of watermark and clock and the
    watermark moves to its end. *)
Lemma playAudio_cases (currentTime : Q) (audioData : string) (st : LiveState) :
  let st' := playAudio currentTime audioData st in
  let start := Qmax (nextStartTimeRef st) currentTime in
  (calls st' = calls st /\ nextStartTimeRef st' = nextStartTimeRef st) \/
  (exists duration, (0 < duration)%Q /\
     calls st' = calls st ++ [SourceStart (freshSource st) start duration] /\
     nextStartTimeRef st' = (start + duration)%Q).
Proof.
  simpl. unfold playAudio, playAudio_begin.
  destruct (outputContext st); [|by left].
  destruct (truthy audioData); [|by left].
  destruct (GeminiService.decode audioData) as [bytes|]; simpl; [|by left].
  destruct (GeminiService.bufferDuration bytes 24000) as [d|] eqn:E;
    simpl; [|by left].
  right. exists d. split; [by eapply bufferDuration_pos|done].
Qed.

Lemma playAudio_chained (currentTime : Q) (audioData : string) (st : LiveState) :
  let st' := playAudio currentTime audioData st in
  exists new,
    scheduled st' = scheduled st ++ new /\
    chained (nextStartTimeRef st) new (nextStartTimeRef st') /\
    ((currentTime <= nextStartTimeRef st)%Q -> abutting (nextStartTimeRef st) new).
Proof.
  intros st'.
  destruct (playAudio_cases currentTime audioData st) as [[Hc Hw]|(d & Hd & Hc & Hw)];
    fold st' in Hc, Hw.
  - exists []. rewrite app_nil_r. unfold scheduled. rewrite Hc.
    split; [done|]. split; [exact Hw|done].
  - eexists. split; [by eapply scheduled_snoc|].
    simpl. rewrite Hw. split.
    + split; [apply Q.le_max_l|]. split; [lra|done].
    + intros Hle. split; [|done]. by apply Q.max_l.
Qed.


Lemma playAll_cons (c : Q * string) (cs : list (Q * string)) (st : LiveState) :
  playAll (c :: cs) st = playAll cs (playAudio c.1 c.2 st).
Proof. reflexivity. Qed.

(** Counterexample to C2 as worded (no gaps): a buffer of three frames
    starts at clock 0 and ends at 3/24000; the next chunk arrives at
    clock 1 and starts there, long after the first has ended. *)
Lemma playback_gap_after_underrun :
  GeminiLive.scheduled (GeminiLive.playAll GeminiLive.twoChunks GeminiLive.liveExample)
    = [(0%Q, (0 + Qmake 3 24000)%Q); (1%Q, (1 + Qmake 3 24000)%Q)] /\
  ~ GeminiLive.abutting 0
      (GeminiLive.scheduled
         (GeminiLive.playAll GeminiLive.twoChunks GeminiLive.liveExample)).
Proof.
  assert (H : scheduled (playAll twoChunks liveExample)
    = [(0%Q, (0 + Qmake 3 24000)%Q); (1%Q, (1 + Qmake 3 24000)%Q)])
    by (vm_compute; reflexivity).
  split; [exact H|]. rewrite H. simpl.
  intros (_ & Hgap & _). vm_compute in Hgap. discriminate Hgap.
Qed.

(** A task that handles one message is that message handled alone. *)
Lemma playBatch_single (c : Q * string) (st : LiveState) :
  playBatch [c] st = playAudio c.1 c.2 st.
Proof.
  unfold playBatch, beginAll, playAudio. cbn [foldl fst snd].
  destruct (playAudio_begin c.1 c.2 st) as [st1 [k|]]; reflexivity.
Qed.

Lemma playTasks_one_each (tasks : list (list (Q * string))) (st : LiveState) :
  Forall (fun task => (length task <= 1)%nat) tasks ->
  playTasks tasks st = playAll (concat tasks) st.
Proof.
  revert st. induction tasks as [|task tasks IH]; intros st Hall; [reflexivity|].
  apply Forall_cons_1 in Hall as [Hlen Hall].
  unfold playTasks, playAll in *. cbn [foldl concat]. rewrite foldl_app.
  destruct task as [|c [|c' task]]; [by apply IH| |simpl in Hlen; lia].
  rewrite playBatch_single. cbn [foldl]. by apply IH.
Qed.

(** C2 (amended). Each played chunk starts at the larger of the
    watermark and the output clock, and moves the watermark to that start
    plus the buffer duration.  Over any run of tasks of a session that
    handle at most one audio message each (so that the continuation of
    each handler has run before the next message is handled), the
    watermark never decreases and every buffer starts no earlier than the
    end of the one before it, so buffers never overlap; when every chunk
    arrives with the clock at or before the watermark, each buffer starts
    exactly at the end of the previous one.  A chunk that arrives with
    the clock past the watermark starts at the clock reading, after a
    gap. *)
Theorem playback_never_overlaps
    (tasks : list (list (Q * string))) (st : GeminiLive.LiveState) :
  Forall (fun task => (length task <= 1)%nat) tasks ->
  let st' := GeminiLive.playTasks tasks st in
  (forall currentTime audioData,
     let st1 := GeminiLive.playBatch [(currentTime, audioData)] st in
     let start := Qmax (GeminiLive.nextStartTimeRef st) currentTime in
     GeminiLive.calls st1 <> GeminiLive.calls st ->
     exists duration, (0 < duration)%Q /\
       GeminiLive.calls st1 = GeminiLive.calls st
         ++ [GeminiLive.SourceStart (GeminiLive.freshSource st) start duration] /\
       GeminiLive.nextStartTimeRef st1 = (start + duration)%Q /\
       ((currentTime <= GeminiLive.nextStartTimeRef st)%Q ->
          (start == GeminiLive.nextStartTimeRef st)%Q) /\
       ((GeminiLive.nextStartTimeRef st < currentTime)%Q ->
          (start == currentTime)%Q /\ (GeminiLive.nextStartTimeRef st < start)%Q)) /\
  (GeminiLive.nextStartTimeRef st <= GeminiLive.nextStartTimeRef st')%Q /\
  exists new,
    GeminiLive.scheduled st' = GeminiLive.scheduled st ++ new /\
    chained (GeminiLive.nextStartTimeRef st) new (GeminiLive.nextStartTimeRef st') /\
    ((forall pre task post, tasks = pre ++ task :: post ->
        Forall (fun c =>
                  (c.1 <= GeminiLive.nextStartTimeRef (GeminiLive.playTasks pre st))%Q)
               task) ->
     abutting (GeminiLive.nextStartTimeRef st) new).
Proof.
  intros Hone st'. split.
  { intros currentTime audioData st1 start Hne. subst st1.
    rewrite playBatch_single in *. cbn [fst snd] in *.
    destruct (playAudio_cases currentTime audioData st)
      as [[Hc _]|(d & Hd & Hc & Hw)]; [by destruct Hne|].
    exists d. split; [exact Hd|]. split; [exact Hc|]. split; [exact Hw|].
    split.
    - intros Hle. by apply Q.max_l.
    - intros Hlt.
      assert (Hmax : (start == currentTime)%Q)
        by (apply Q.max_r; by apply Qlt_le_weak).
      split; [exact Hmax|]. by rewrite Hmax. }
  assert (H : exists new,
    scheduled st' = scheduled st ++ new /\
    chained (nextStartTimeRef st) new (nextStartTimeRef st') /\
    ((forall pre task post, tasks = pre ++ task :: post ->
        Forall (fun c => (c.1 <= nextStartTimeRef (playTasks pre st))%Q) task) ->
     abutting (nextStartTimeRef st) new)).
  { subst st'. revert st. induction tasks as [|task tasks IH]; intros st.
    - exists []. rewrite app_nil_r. by repeat split.
    - apply Forall_cons_1 in Hone as [Hlen Hone].
      change (playTasks (task :: tasks) st) with (playTasks tasks (playBatch task st)).
      destruct (IH Hone (playBatch task st)) as (new2 & Hs2 & Hc2 & Ha2).
      destruct task as [|c [|c' task]]; [| |simpl in Hlen; lia].
      + (* a task without audio *)
        exists new2. split; [exact Hs2|]. split; [exact Hc2|].
        intros Harr. apply Ha2. intros pre task post ->.
        apply (Harr ([] :: pre) task post). reflexivity.
      + (* a task with one chunk *)
        rewrite playBatch_single in *.
        destruct (playAudio_chained c.1 c.2 st) as (new1 & Hs1 & Hc1 & Ha1).
        exists (new1 ++ new2). split; [|split].
        * by rewrite Hs2, Hs1, app_assoc.
        * by eapply chained_app.
        * intros Harr. eapply abutting_app; [exact Hc1| |].
          -- apply Ha1.
             pose proof (Harr [] [c] tasks eq_refl) as Hc.
             by apply Forall_cons_1 in Hc as [Hc _].
          -- apply Ha2. intros pre task post ->.
             pose proof (Harr ([c] :: pre) task post eq_refl) as Hc.
             change (playTasks ([c] :: pre) st)
               with (playTasks pre (playBatch [c] st)) in Hc.
             by rewrite playBatch_single in Hc. }
  destruct H as (new & Hs & Hc & Ha).
  split; [by eapply chained_le|]. by exists new.
Qed.

Lemma playback_never_overlaps_witness :
  let tasks := [[(0%Q, "AAAAAAAA")]; [(0%Q, "AAAAAAAA")]] in
  Forall (fun task : list (Q * string) => (length task <= 1)%nat) tasks /\
  (forall pre task post, tasks = pre ++ task :: post ->
     Forall (fun c =>
               (c.1 <= GeminiLive.nextStartTimeRef
                         (GeminiLive.playTasks pre liveExample))%Q) task) /\
  exists new,
    GeminiLive.scheduled (GeminiLive.playTasks tasks liveExample)
      = GeminiLive.scheduled liveExample ++ new /\
    abutting (GeminiLive.nextStartTimeRef liveExample) new.
Proof.
  intros tasks.
  assert (Hone : Forall (fun task : list (Q * string) => (length task <= 1)%nat) tasks).
  { repeat constructor. }
  assert (Harr : forall pre task post, tasks = pre ++ task :: post ->
     Forall (fun c =>
               (c.1 <= GeminiLive.nextStartTimeRef
                         (GeminiLive.playTasks pre liveExample))%Q) task).
  { intros pre task post H.
    destruct pre as [|c1 [|c2 [|c3 pre]]]; simplify_eq/=.
    - repeat constructor. vm_compute. discriminate.
    - repeat constructor. vm_compute. discriminate. }
  split; [exact Hone|]. split; [exact Harr|].
  destruct (playback_never_overlaps tasks liveExample Hone)
    as (_ & _ & new & Hs & _ & Ha).
  exists new. split; [exact Hs|]. exact (Ha Harr).
Defined.

Lemma playAudio_begin_decoded (t : Q) (a : string) (d : Q) (c : nat)
    (st : LiveState) :
  outputContext st = Some c -> truthy a = true ->
  GeminiService.decode a ≫= (fun bytes => GeminiService.bufferDuration bytes 24000)
    = Some d ->
  exists st1,
    playAudio_begin t a st
      = (st1, Some (mkSuspended c (Qmax (nextStartTimeRef st) t) d)) /\
    outputContext st1 = Some c /\
    nextStartTimeRef st1 = nextStartTimeRef st /\
    calls st1 = calls st.
Proof.
  intros Hctx Ha Hd. unfold playAudio_begin. rewrite Hctx, Ha, Hd.
  eexists. split; [reflexivity|]. by rewrite <- Hctx.
Qed.

(** Two audio messages handled by one task are both placed against the
    watermark as it was before the task: the second does not wait for
    the first.  Whenever the second clock reading lies before the end of
    the first buffer, the second buffer starts before the first has
    ended, and the watermark ends at the end of the second buffer,
    whichever ends later. *)
Theorem batched_chunks_overlap
    (t1 t2 : Q) (a1 a2 : string) (d1 d2 : Q) (c : nat) (st : GeminiLive.LiveState) :
  GeminiLive.outputContext st = Some c ->
  truthy a1 = true -> truthy a2 = true ->
  GeminiService.decode a1 ≫= (fun bytes => GeminiService.bufferDuration bytes 24000)
    = Some d1 ->
  GeminiService.decode a2 ≫= (fun bytes => GeminiService.bufferDuration bytes 24000)
    = Some d2 ->
  let w := GeminiLive.nextStartTimeRef st in
  let st' := GeminiLive.playBatch [(t1, a1); (t2, a2)] st in
  GeminiLive.scheduled st'
    = GeminiLive.scheduled st
        ++ [(Qmax w t1, (Qmax w t1 + d1)%Q); (Qmax w t2, (Qmax w t2 + d2)%Q)] /\
  GeminiLive.nextStartTimeRef st' = (Qmax w t2 + d2)%Q /\
  ((t2 < Qmax w t1 + d1)%Q -> (Qmax w t2 < Qmax w t1 + d1)%Q).
Proof.
  intros Hctx Ha1 Ha2 Hd1 Hd2 w st'. subst st'.
  destruct (playAudio_begin_decoded t1 a1 d1 c st Hctx Ha1 Hd1)
    as (st1 & Hb1 & Hctx1 & Hw1 & Hc1).
  destruct (playAudio_begin_decoded t2 a2 d2 c st1 Hctx1 Ha2 Hd2)
    as (st2 & Hb2 & Hctx2 & Hw2 & Hc2).
  unfold playBatch, beginAll. cbn [foldl fst snd].
  rewrite Hb1. cbn [fst snd]. rewrite Hb2, Hw1. fold w.
  unfold resumeAll, playAudio_resume, scheduled. simpl.
  split; [|split].
  - rewrite Hc2, Hc1, !bind_app. simpl. by rewrite <- app_assoc.
  - reflexivity.
  - intros Hlt.
    assert (H0 : (0 < d1)%Q).
    { destruct (GeminiService.decode a1) as [bytes|]; [|discriminate].
      by eapply bufferDuration_pos. }
    fold w.
    destruct (Q.max_spec w t2) as [[_ ->]|[_ ->]]; [exact Hlt|].
    pose proof (Q.le_max_l w t1). lra.
Qed.

Lemma batched_chunks_overlap_witness :
  let st' := GeminiLive.playBatch [(0%Q, "AAAAAAAA"); (0%Q, "AAAAAAAA")] liveExample in
  (0 < Qmax (GeminiLive.nextStartTimeRef liveExample) 0 + Qmake 3 24000)%Q /\
  (Qmax (GeminiLive.nextStartTimeRef liveExample) 0
     < Qmax (GeminiLive.nextStartTimeRef liveExample) 0 + Qmake 3 24000)%Q /\
  GeminiLive.scheduled st'
    = [(Qmax 0 0, (Qmax 0 0 + Qmake 3 24000)%Q);
       (Qmax 0 0, (Qmax 0 0 + Qmake 3 24000)%Q)].
Proof.
  intros st'.
  assert (Hlt : (0 < Qmax (GeminiLive.nextStartTimeRef liveExample) 0 + Qmake 3 24000)%Q)
    by (vm_compute; reflexivity).
  split; [exact Hlt|].
  destruct (batched_chunks_overlap 0 0 "AAAAAAAA" "AAAAAAAA"
              (Qmake 3 24000) (Qmake 3 24000) 2%nat liveExample
              eq_refl eq_refl eq_refl eq_refl eq_refl) as (Hs & _ & Hov).
  split; [exact (Hov Hlt)|exact Hs].
Defined.




End LiveProperties.

(** ** Speech recognition (hooks/useSpeechRecognition.ts) *)
Section SpeechProperties.
Import SpeechRecognition.


Lemma onresult_flags (r : list (string * bool)) (st : State) :
  isListening (onresult r st) = isListening st /\
  isListeningRef (onresult r st) = isListeningRef st /\
  timers (onresult r st) = timers st /\
  calls (onresult r st) = calls st.
Proof. unfold onresult. by destruct (foldl _ _ _). Qed.

Lemma no_extra_calls (l : list Call) :
  exists extra, l = l ++ extra /\ RecStart ∉ extra.
Proof. exists []. rewrite app_nil_r. split; [done|]. apply not_elem_of_nil. Qed.

(** Once stopped, every event but a new [startListening] keeps the hook
    stopped, calls no [start] and arms no timer. *)
Lemma step_stopped (st : State) (e : Event) :
  stopped st -> isStartListening e = false ->
  stopped (step st e) /\
  (exists extra, calls (step st e) = calls st ++ extra /\ RecStart ∉ extra) /\
  (exists k, timers (step st e) = drop k (timers st)).
Proof.
  intros [Hl Hr] He.
  destruct e as [| | |err|r| |]; simpl; try discriminate.
  - (* stopListening *)
    unfold stopListening.
    destruct (recognitionRef st && rendered st).
    + split; [done|]. split; [|by exists 0%nat].
      exists [RecStop]. split; [done|].
      intros H%list_elem_of_singleton. discriminate.
    + split; [done|]. split; [|by exists 0%nat].
      apply no_extra_calls.
  - (* onend *)
    unfold onend. rewrite Hr.
    split; [done|]. split; [|by exists 0%nat].
    apply no_extra_calls.
  - (* onerror *)
    split.
    + split; simpl; [by destruct (isFatalError err)|done].
    + split; [|by exists 0%nat].
      exists [ConsoleError]. split; [done|].
      intros H%list_elem_of_singleton. discriminate.
  - (* onresult *)
    destruct (onresult_flags r st) as (H1 & H2 & H3 & H4).
    split; [split; congruence|].
    split; [|exists 0%nat; by rewrite H3].
    rewrite H4. apply no_extra_calls.
  - (* the timer fires *)
    unfold restart. destruct (timers st) as [|t pending] eqn:Et.
    + split; [done|]. split; [|exists 0%nat; by rewrite Et].
      apply no_extra_calls.
    + simpl. rewrite Hr. simpl.
      split; [done|]. split; [|by exists 1%nat].
      apply no_extra_calls.
  - (* commit *)
    unfold commit. split.
    + split; simpl; [done|]. by destruct (bool_decide _).
    + split; [|by exists 0%nat].
      apply no_extra_calls.
Qed.

Lemma run_stopped (evs : list Event) (st : State) :
  stopped st -> forallb (fun e => negb (isStartListening e)) evs = true ->
  stopped (run evs st) /\
  (exists extra, calls (run evs st) = calls st ++ extra /\ RecStart ∉ extra) /\
  (exists k, timers (run evs st) = drop k (timers st)).
Proof.
  revert st. induction evs as [|e evs IH]; intros st Hst Hevs; simpl.
  - split; [done|]. split; [|by exists 0%nat].
    apply no_extra_calls.
  - simpl in Hevs. apply andb_true_iff in Hevs as [He Hevs].
    apply negb_true_iff in He.
    destruct (step_stopped st e Hst He) as (Hst1 & (x1 & Hc1 & Hx1) & (k1 & Ht1)).
    destruct (IH (step st e) Hst1 Hevs) as (Hst2 & (x2 & Hc2 & Hx2) & (k2 & Ht2)).
    split; [done|]. split.
    + exists (x1 ++ x2). rewrite Hc2, Hc1, app_assoc. split; [done|].
      rewrite elem_of_app. tauto.
    + exists (k1 + k2)%nat. by rewrite Ht2, Ht1, drop_drop.
Qed.

(** Counterexample to C3 as worded (after any invocation of
    [stopListening]): called before the render that follows
    [startListening], it still sees [isListening] false and does
    nothing; the flag then becomes true, and the next end event restarts
    the recognizer. *)
Lemma stop_before_render_is_ignored :
  let evs := [SpeechRecognition.StartListening; SpeechRecognition.StopListening;
              SpeechRecognition.Commit; SpeechRecognition.OnEnd;
              SpeechRecognition.TimerFires] in
  let st := SpeechRecognition.run evs (SpeechRecognition.initial true) in
  SpeechRecognition.stopListening
    (SpeechRecognition.startListening (SpeechRecognition.initial true))
    = SpeechRecognition.startListening (SpeechRecognition.initial true) /\
  SpeechRecognition.calls st
    = [SpeechRecognition.RecStart; SpeechRecognition.ConsoleLog;
       SpeechRecognition.RecStart] /\
  SpeechRecognition.isListeningRef st = true.
Proof. cbv zeta. split; [reflexivity|]. split; reflexivity. Qed.

(** C3 (amended). After an effective [stopListening] (a recognizer
    exists and the hook is rendered as listening) the flag is false
    before [stop] is called, and whatever follows short of a new
    [startListening] (end events, errors, results, timers firing,
    renders, further stops) never calls [start] and never arms a restart
    timer.  In any state, [onend] arms a restart only with the flag true,
    and the timer callback calls [start] only with the flag still
    true. *)
Theorem no_restart_after_stop
    (st : SpeechRecognition.State) (evs : list SpeechRecognition.Event) :
  SpeechRecognition.recognitionRef st = true ->
  SpeechRecognition.rendered st = true ->
  forallb (fun e => negb (SpeechRecognition.isStartListening e)) evs = true ->
  let st1 := SpeechRecognition.stopListening st in
  let st2 := SpeechRecognition.run evs st1 in
  SpeechRecognition.isListeningRef st1 = false /\
  SpeechRecognition.calls st1
    = SpeechRecognition.calls st ++ [SpeechRecognition.RecStop] /\
  SpeechRecognition.isListeningRef st2 = false /\
  (exists extra,
     SpeechRecognition.calls st2 = SpeechRecognition.calls st1 ++ extra /\
     SpeechRecognition.RecStart ∉ extra) /\
  (exists k, SpeechRecognition.timers st2 = drop k (SpeechRecognition.timers st)) /\
  (forall s, SpeechRecognition.isListeningRef s = false ->
     SpeechRecognition.onend s = s /\
     SpeechRecognition.calls (SpeechRecognition.restart s)
       = SpeechRecognition.calls s).
Proof.
  intros Hrec Hren Hevs st1 st2.
  assert (Hst1 : stopped st1).
  { subst st1. unfold stopListening. by rewrite Hrec, Hren. }
  assert (Hc1 : calls st1 = calls st ++ [RecStop]).
  { subst st1. unfold stopListening. by rewrite Hrec, Hren. }
  assert (Ht1 : timers st1 = timers st).
  { subst st1. unfold stopListening. by rewrite Hrec, Hren. }
  destruct (run_stopped evs st1 Hst1 Hevs) as ([_ Hr2] & Hx & Ht).
  rewrite Ht1 in Ht.
  split; [apply Hst1|]. split; [exact Hc1|]. split; [exact Hr2|].
  split; [exact Hx|]. split; [exact Ht|].
  intros s Hs. split.
  - unfold onend. by rewrite Hs.
  - unfold restart. destruct (timers s); [done|]. simpl. by rewrite Hs.
Qed.

Lemma no_restart_after_stop_witness :
  let evs := [SpeechRecognition.OnEnd; SpeechRecognition.Commit;
              SpeechRecognition.TimerFires; SpeechRecognition.OnEnd;
              SpeechRecognition.TimerFires] in
  SpeechRecognition.recognitionRef listeningExample = true /\
  SpeechRecognition.rendered listeningExample = true /\
  forallb (fun e => negb (SpeechRecognition.isStartListening e)) evs = true /\
  exists extra,
    SpeechRecognition.calls
      (SpeechRecognition.run evs (SpeechRecognition.stopListening listeningExample))
    = SpeechRecognition.calls (SpeechRecognition.stopListening listeningExample)
        ++ extra /\
    SpeechRecognition.RecStart ∉ extra.
Proof.
  intros evs. split; [reflexivity|]. split; [reflexivity|]. split; [reflexivity|].
  exact (proj1 (proj2 (proj2 (proj2
    (no_restart_after_stop listeningExample evs eq_refl eq_refl eq_refl))))).
Defined.

Lemma step_timers_delay (st : State) (e : Event) :
  Forall (fun d => d = restartDelay) (timers st) ->
  Forall (fun d => d = restartDelay) (timers (step st e)).
Proof.
  intros H. destruct e as [| | |err|r| |]; simpl.
  - unfold startListening. by destruct (_ && _).
  - unfold stopListening. by destruct (_ && _).
  - unfold onend. destruct (isListeningRef st); [|done]. simpl.
    apply Forall_app. split; [done|]. by constructor.
  - done.
  - by destruct (onresult_flags r st) as (_ & _ & -> & _).
  - unfold restart.
    destruct (timers st) as [|t pending] eqn:E; [by rewrite E|]. simpl.
    by apply Forall_cons_1 in H as [_ H].
  - done.
Qed.

(** C5. An end event while the flag is true arms exactly one timer, of
    250 ms, and nothing else; with the flag false it does nothing.  When
    that timer fires with the flag still true and a recognizer present,
    [start] is called, once: the drop is followed by one reconnect
    attempt, after which no timer of it is left and a further firing does
    nothing.  With the flag false the callback calls nothing.  The error
    handler arms no timer and calls no [start]: it logs, the errors
    not-allowed and service-not-allowed clear the listening state, and any
    other error leaves it.  Along any run every pending timer has the
    delay 250. *)
Theorem single_fixed_delay_reconnect :
  SpeechRecognition.restartDelay = 250 /\
  (forall st, SpeechRecognition.isListeningRef st = true ->
     SpeechRecognition.timers (SpeechRecognition.onend st)
       = SpeechRecognition.timers st ++ [250] /\
     SpeechRecognition.calls (SpeechRecognition.onend st)
       = SpeechRecognition.calls st ++ [SpeechRecognition.ConsoleLog] /\
     SpeechRecognition.isListening (SpeechRecognition.onend st)
       = SpeechRecognition.isListening st /\
     SpeechRecognition.isListeningRef (SpeechRecognition.onend st) = true) /\
  (forall st, SpeechRecognition.isListeningRef st = false ->
     SpeechRecognition.onend st = st) /\
  (forall st,
     SpeechRecognition.isListeningRef st = true ->
     SpeechRecognition.recognitionRef st = true ->
     SpeechRecognition.timers st = [] ->
     let st' := SpeechRecognition.restart (SpeechRecognition.onend st) in
     SpeechRecognition.calls st'
       = SpeechRecognition.calls st
           ++ [SpeechRecognition.ConsoleLog; SpeechRecognition.RecStart] /\
     SpeechRecognition.timers st' = [] /\
     SpeechRecognition.restart st' = st') /\
  (forall st t pending,
     SpeechRecognition.timers st = t :: pending ->
     SpeechRecognition.timers (SpeechRecognition.restart st) = pending /\
     (SpeechRecognition.isListeningRef st = true ->
      SpeechRecognition.recognitionRef st = true ->
      SpeechRecognition.calls (SpeechRecognition.restart st)
        = SpeechRecognition.calls st ++ [SpeechRecognition.RecStart]) /\
     (SpeechRecognition.isListeningRef st = false ->
      SpeechRecognition.calls (SpeechRecognition.restart st)
        = SpeechRecognition.calls st)) /\
  (forall st,
     length (SpeechRecognition.timers (SpeechRecognition.restart st))
       = pred (length (SpeechRecognition.timers st)) /\
     (SpeechRecognition.calls (SpeechRecognition.restart st)
        = SpeechRecognition.calls st \/
      SpeechRecognition.calls (SpeechRecognition.restart st)
        = SpeechRecognition.calls st ++ [SpeechRecognition.RecStart])) /\
  (forall e st,
     SpeechRecognition.timers (SpeechRecognition.onerror e st)
       = SpeechRecognition.timers st /\
     SpeechRecognition.calls (SpeechRecognition.onerror e st)
       = SpeechRecognition.calls st ++ [SpeechRecognition.ConsoleError] /\
     SpeechRecognition.isListeningRef (SpeechRecognition.onerror e st)
       = SpeechRecognition.isListeningRef st) /\
  (forall st,
     SpeechRecognition.isListening (SpeechRecognition.onerror "not-allowed" st)
       = false /\
     SpeechRecognition.isListening
       (SpeechRecognition.onerror "service-not-allowed" st) = false) /\
  (forall e st, e <> "not-allowed" -> e <> "service-not-allowed" ->
     SpeechRecognition.isListening (SpeechRecognition.onerror e st)
       = SpeechRecognition.isListening st) /\
  (forall evs supported,
     Forall (fun d => d = 250)
       (SpeechRecognition.timers
          (SpeechRecognition.run evs (SpeechRecognition.initial supported)))).
Proof.
  split; [reflexivity|].
  split; [|split; [|split; [|split; [|split; [|split; [|split; [|split]]]]]]].
  - intros st H. unfold onend. by rewrite H.
  - intros st H. unfold onend. by rewrite H.
  - intros st Href Hrec Ht. unfold onend. rewrite Href.
    unfold restart. simpl. rewrite Ht, Hrec. simpl.
    split; [by rewrite <- app_assoc|]. split; reflexivity.
  - intros st t pending Ht. unfold restart. rewrite Ht. cbn [timers calls].
    split; [reflexivity|]. split.
    + by intros -> ->.
    + by intros ->.
  - intros st. unfold restart. destruct (timers st) as [|t pending] eqn:E; simpl.
    + rewrite E. by split; [|left].
    + split; [done|]. destruct (_ && _); [by right|by left].
  - done.
  - done.
  - intros e st H1 H2. unfold onerror, isFatalError. cbn [isListening].
    by rewrite !bool_decide_eq_false_2.
  - intros evs supported.
    assert (H : forall st, Forall (fun d => d = restartDelay) (timers st) ->
              Forall (fun d => d = restartDelay) (timers (run evs st))).
    { induction evs as [|e evs IH]; intros st Hst; simpl; [done|].
      by apply IH, step_timers_delay. }
    apply H. constructor.
Qed.

(** A drop while listening: one message, one timer, one [start]. *)
Lemma single_fixed_delay_reconnect_witness :
  SpeechRecognition.isListeningRef listeningExample = true /\
  SpeechRecognition.recognitionRef listeningExample = true /\
  SpeechRecognition.timers listeningExample = [] /\
  SpeechRecognition.timers (SpeechRecognition.onend listeningExample) = [250] /\
  SpeechRecognition.calls
    (SpeechRecognition.restart (SpeechRecognition.onend listeningExample))
    = [SpeechRecognition.RecStart; SpeechRecognition.ConsoleLog;
       SpeechRecognition.RecStart].
Proof.
  split; [reflexivity|]. split; [reflexivity|]. split; [reflexivity|].
  destruct single_fixed_delay_reconnect as (_ & Hend & _ & Hdrop & _).
  split.
  - exact (proj1 (Hend listeningExample eq_refl)).
  - exact (proj1 (Hdrop listeningExample eq_refl eq_refl eq_refl)).
Defined.

End SpeechProperties.

(** ** Session histories (App.tsx) *)
Section AppFlowProperties.
Import App AppFlow.

Lemma extends_refl (s : Session) : extends s s.
Proof. by repeat split. Qed.

Lemma extends_trans (s1 s2 s3 : Session) :
  extends s1 s2 -> extends s2 s3 -> extends s1 s3.
Proof.
  intros (Hi & Hv & Ht) (Hi' & Hv' & Ht'). repeat split.
  - congruence.
  - by etrans.
  - by etrans.
Qed.

Lemma appendVersion_extends (url p : string) (s : Session) :
  extends s (appendVersion url p s).
Proof. repeat split; simpl; [by apply prefix_app_r|done]. Qed.

Lemma addTurn_extends (user ai : string) (s : Session) :
  extends s (addTurn user ai s).
Proof. repeat split; simpl; [done|by apply prefix_app_r]. Qed.

Lemma setCurrentIndex_extends (i : nat) (s : Session) :
  extends s (setCurrentIndex i s).
Proof. by repeat split. Qed.

Lemma mapSession_extends (i : string) (f : Session -> Session)
    (l : list Session) (k : nat) (s : Session) :
  (forall s0, extends s0 (f s0)) ->
  l !! k = Some s ->
  exists s', mapSession i f l !! k = Some s' /\ extends s s'.
Proof.
  intros Hf Hk. unfold mapSession. rewrite list_lookup_fmap, Hk. simpl.
  eexists. split; [reflexivity|].
  destruct (decide (id s = i)); [apply Hf|apply extends_refl].
Qed.

Lemma updateSession_extends (f : Session -> Session) (st : AppState)
    (k : nat) (s : Session) :
  (forall s0, extends s0 (f s0)) ->
  sessions st !! k = Some s ->
  exists s', sessions (updateSession f st) !! k = Some s' /\ extends s s'.
Proof.
  intros Hf Hk. unfold updateSession.
  destruct (activeSessionIdRef st) as [i|];
    [|exists s; split; [done|apply extends_refl]].
  destruct (truthy i); [|exists s; split; [done|apply extends_refl]].
  simpl. by apply mapSession_extends.
Qed.

Lemma step_extends (st : AppState) (e : Event) (k : nat) (s : Session) :
  sessions st !! k = Some s ->
  exists s', sessions (step st e) !! k = Some s' /\ extends s s'.
Proof.
  intros Hk.
  assert (Hsame : exists s', sessions st !! k = Some s' /\ extends s s')
    by (exists s; split; [done|apply extends_refl]).
  destruct e as [f now| |p o|user ai|i|i| |a|]; simpl.
  - destruct f as [base64|]; simpl; [|done].
    exists s. split; [|apply extends_refl].
    by apply lookup_app_l_Some.
  - unfold handleGenerate_begin. by destruct (findSession _ _).
  - destruct o as [resultUrl|]; simpl; [|done].
    apply (updateSession_extends _ st k s); [|done].
    apply appendVersion_extends.
  - unfold handleTurnComplete.
    destruct (activeSessionIdRef st) as [i|]; [|done].
    destruct (truthy i); [|done].
    simpl. apply mapSession_extends; [|done]. apply addTurn_extends.
  - apply updateSession_extends; [|done]. apply setCurrentIndex_extends.
  - done.
  - done.
  - by destruct a.
  - done.
Qed.

(** X1. Histories are append-only: along any run of events, the session
    at a given place keeps its identifier, its versions stay as the first
    versions of its later history, and its transcript lines stay as the
    first lines of its later transcript. *)
Theorem history_append_only
    (evs : list App.Event) (st : App.AppState) (k : nat) (s : Session) :
  App.sessions st !! k = Some s ->
  exists s',
    App.sessions (App.run evs st) !! k = Some s' /\
    id s' = id s /\
    versions s `prefix_of` versions s' /\
    transcript s `prefix_of` transcript s'.
Proof.
  revert st s. induction evs as [|e evs IH]; intros st s Hk; simpl.
  - exists s. by repeat split.
  - destruct (step_extends st e k s Hk) as (s1 & Hk1 & He1).
    destruct (IH (step st e) s1 Hk1) as (s2 & Hk2 & He2).
    exists s2. split; [exact Hk2|].
    exact (extends_trans s s1 s2 He1 He2).
Qed.

Lemma history_append_only_witness :
  let st := App.commitRefs
    (App.handleImageUpload (App.FileRead "data:image/png;base64,AAAA")
       1700000000000 App.initial).1 in
  let evs := [App.EditSettle "add a hat" (App.EditResolved "data:image/png;base64,BBBB");
              App.SelectVersion 0; App.TurnComplete "hello" "hi"; App.NewSession] in
  App.sessions st !! 0%nat
    = Some (App.newSession "data:image/png;base64,AAAA" 1700000000000) /\
  exists s', App.sessions (App.run evs st) !! 0%nat = Some s' /\
    versions (App.newSession "data:image/png;base64,AAAA" 1700000000000)
      `prefix_of` versions s'.
Proof.
  intros st evs. split; [reflexivity|].
  destruct (history_append_only evs st 0%nat
              (App.newSession "data:image/png;base64,AAAA" 1700000000000) eq_refl)
    as (s' & Hk & _ & Hv & _).
  exists s'. split; [exact Hk|exact Hv].
Defined.


Lemma newSession_wf (base64 : string) (now : Z) :
  wfSession (newSession base64 now).
Proof.
  split; [apply truthy_toString|]. split.
  - by exists base64, [].
  - by repeat constructor.
Qed.

Lemma appendVersion_wf (url p : string) (s : Session) :
  wfSession s -> wfSession (appendVersion url p s).
Proof.
  intros (Hi & (b & rest & Hv) & Hall). split; [done|]. split; simpl.
  - rewrite Hv. by exists b, (rest ++ [mkMediaVersion url p image]).
  - apply Forall_app. split; [done|]. by repeat constructor.
Qed.

Lemma mapSession_wf (i : string) (f : Session -> Session) (l : list Session) :
  (forall s, wfSession s -> wfSession (f s)) ->
  Forall wfSession l -> Forall wfSession (mapSession i f l).
Proof.
  intros Hf Hl. unfold mapSession. apply Forall_fmap.
  eapply Forall_impl; [exact Hl|]. intros s Hs. simpl.
  destruct (decide (id s = i)); [by apply Hf|done].
Qed.

Lemma updateSession_wf (f : Session -> Session) (st : AppState) :
  (forall s, wfSession s -> wfSession (f s)) ->
  wfState st -> wfState (updateSession f st).
Proof.
  intros Hf [Hs Hr]. unfold updateSession.
  destruct (activeSessionIdRef st) as [i|]; [|done].
  destruct (truthy i); [|done].
  split; simpl; [by apply mapSession_wf|done].
Qed.

Lemma step_wf (st : AppState) (e : Event) : wfState st -> wfState (step st e).
Proof.
  intros Hwf. pose proof Hwf as [Hs Hr].
  destruct e as [f now| |p o|user ai|i|i| |a|]; simpl.
  - destruct f as [base64|]; simpl; [|done].
    split; simpl; [|done].
    apply Forall_app. split; [done|].
    constructor; [apply newSession_wf|constructor].
  - unfold handleGenerate_begin. by destruct (findSession _ _).
  - destruct o as [resultUrl|]; simpl; [|done].
    destruct (updateSession_wf (appendVersion resultUrl p) st) as [Hs' Hr'];
      [apply appendVersion_wf|done|done].
  - unfold handleTurnComplete.
    destruct (activeSessionIdRef st) as [i|]; [|done].
    destruct (truthy i); [|done].
    split; simpl; [|done]. by apply mapSession_wf.
  - by apply updateSession_wf.
  - done.
  - done.
  - by destruct a.
  - by split.
Qed.

Lemma run_wf (evs : list Event) (st : AppState) :
  wfState st -> wfState (run evs st).
Proof.
  revert st. induction evs as [|e evs IH]; intros st Hwf; simpl; [done|].
  by apply IH, step_wf.
Qed.

Lemma find_elem_of (i : string) (l : list Session) (s : Session) :
  List.find (fun s => bool_decide (id s = i)) l = Some s -> s ∈ l /\ id s = i.
Proof.
  intros H. apply find_some in H as [Hin Hid].
  split; [by apply list_elem_of_In|]. by apply bool_decide_eq_true in Hid.
Qed.

(** X2. In every state reached from the empty application, each session
    (in the state and in the ref the handlers read) has a non-empty
    identifier, starts with the uploaded original and holds images only;
    so whenever an edit request finds its session, it also finds a source
    image: the request never fails for want of a version. *)
Theorem sessions_stay_well_formed (evs : list App.Event) :
  let st := App.run evs App.initial in
  Forall AppFlow.wfSession (App.sessions st) /\
  Forall AppFlow.wfSession (App.sessionsRef st) /\
  forall st' effs source,
    App.handleGenerate_begin st = Some (st', effs, source) ->
    exists session sourceImage,
      session ∈ App.sessionsRef st /\
      App.activeSessionIdRef st = Some (id session) /\
      last (versions session) = Some sourceImage /\
      source = Some (src sourceImage).
Proof.
  intros st.
  assert (Hwf : wfState st) by (apply run_wf; split; constructor).
  destruct Hwf as [Hs Hr]. split; [exact Hs|]. split; [exact Hr|].
  intros st' effs source. unfold handleGenerate_begin.
  destruct (activeSessionIdRef st) as [i|] eqn:Ha; [|discriminate].
  simpl. destruct (List.find _ _) as [session|] eqn:Hf; [|discriminate].
  intros [= _ _ <-].
  apply find_elem_of in Hf as [Hin Hid].
  rewrite Forall_forall in Hr.
  destruct (Hr session Hin) as (_ & (b & rest & Hv) & _).
  destruct (last (versions session)) as [v|] eqn:Hl.
  - exists session, v. by subst i.
  - apply last_None in Hl. congruence.
Qed.

Lemma sessions_stay_well_formed_witness :
  let evs := [App.Upload (App.FileRead "data:image/png;base64,AAAA") 1700000000000;
              App.Commit] in
  exists session sourceImage,
    session ∈ App.sessionsRef (App.run evs App.initial) /\
    last (versions session) = Some sourceImage.
Proof.
  intros evs.
  destruct (App.handleGenerate_begin (App.run evs App.initial))
    as [[[st' effs] source]|] eqn:E; [|vm_compute in E; discriminate E].
  destruct (proj2 (proj2 (sessions_stay_well_formed evs)) st' effs source E)
    as (session & v & Hin & _ & Hl & _).
  exists session, v. split; [exact Hin|exact Hl].
Defined.

Lemma find_mapSession (i : string) (f : Session -> Session)
    (l : list Session) (s : Session) :
  (forall s0, id (f s0) = id s0) ->
  List.find (fun s => bool_decide (id s = i)) l = Some s ->
  List.find (fun s => bool_decide (id s = i)) (mapSession i f l) = Some (f s).
Proof.
  intros Hf. induction l as [|x l IH]; simpl; [discriminate|].
  pose proof (Hf x) as Hfx.
  destruct (decide (id x = i)) as [Hx|Hx]; repeat case_bool_decide;
    try congruence.
  exact IH.
Qed.

(** X3. Edits chain: once a successful edit has been applied to the
    active session and the result rendered, the next edit request takes
    the result of that edit as its source image. *)
Theorem next_edit_starts_from_last_result
    (st : App.AppState) (p resultUrl i : string) (s : Session) :
  App.activeSessionId st = Some i ->
  App.activeSessionIdRef st = Some i ->
  truthy i = true ->
  App.findSession (Some i) (App.sessions st) = Some s ->
  let st1 := App.commitRefs
    (App.handleGenerate_settle p (App.EditResolved resultUrl) st).1.1 in
  exists st' effs,
    App.handleGenerate_begin st1 = Some (st', effs, Some resultUrl) /\
    App.sessions st' = App.sessions st1.
Proof.
  intros Hact Href Hi Hfind st1.
  unfold handleGenerate_begin.
  assert (Hact1 : activeSessionIdRef st1 = Some i).
  { subst st1. simpl. unfold updateSession. by rewrite Href, Hi. }
  assert (Hsess : sessionsRef st1
                  = mapSession i (appendVersion resultUrl p) (sessions st)).
  { subst st1. simpl. unfold updateSession. by rewrite Href, Hi. }
  rewrite Hact1, Hsess. simpl.
  simpl in Hfind. rewrite (find_mapSession i _ _ s); [|done|exact Hfind].
  eexists _, _. split.
  - simpl. rewrite last_snoc. reflexivity.
  - reflexivity.
Qed.

Lemma next_edit_starts_from_last_result_witness :
  let st := App.commitRefs
    (App.handleImageUpload (App.FileRead "data:image/png;base64,AAAA")
       1700000000000 App.initial).1 in
  App.activeSessionId st = Some "1700000000000" /\
  App.activeSessionIdRef st = Some "1700000000000" /\
  truthy "1700000000000" = true /\
  App.findSession (Some "1700000000000") (App.sessions st)
    = Some (App.newSession "data:image/png;base64,AAAA" 1700000000000) /\
  exists st' effs,
    App.handleGenerate_begin
      (App.commitRefs
         (App.handleGenerate_settle "add a hat"
            (App.EditResolved "data:image/png;base64,BBBB") st).1.1)
    = Some (st', effs, Some "data:image/png;base64,BBBB").
Proof.
  intros st. repeat (split; [reflexivity|]).
  destruct (next_edit_starts_from_last_result st "add a hat"
              "data:image/png;base64,BBBB" "1700000000000"
              (App.newSession "data:image/png;base64,AAAA" 1700000000000)
              eq_refl eq_refl eq_refl eq_refl) as (st' & effs & H & _).
  by exists st', effs.
Defined.

Lemma step_indexOk (st : AppState) (e : Event) :
  Forall indexOk (sessions st) -> clickOk st e ->
  Forall indexOk (sessions (step st e)).
Proof.
  intros Hok Hclick.
  assert (Hmap : forall i f,
            (forall s, s ∈ sessions st -> id s = i -> indexOk s -> indexOk (f s)) ->
            Forall indexOk (mapSession i f (sessions st))).
  { intros i f Hf. unfold mapSession. apply Forall_fmap.
    rewrite Forall_forall in *. intros s Hs. simpl.
    destruct (decide (id s = i)); [by apply Hf; auto|by apply Hok]. }
  destruct e as [f now| |p o|user ai|i|i| |a|]; simpl.
  - destruct f as [base64|]; simpl; [|done].
    apply Forall_app. split; [done|].
    constructor; [|constructor]. unfold indexOk. simpl. lia.
  - unfold handleGenerate_begin. by destruct (findSession _ _).
  - destruct o as [resultUrl|]; simpl; [|done].
    unfold updateSession.
    destruct (activeSessionIdRef st) as [i|]; [|done].
    destruct (truthy i); [|done]. simpl. apply Hmap.
    intros s _ _ _. unfold indexOk. simpl. rewrite length_app. simpl. lia.
  - unfold handleTurnComplete.
    destruct (activeSessionIdRef st) as [i|]; [|done].
    destruct (truthy i); [|done]. simpl. apply Hmap.
    by intros s _ _ Hs.
  - unfold updateSession. simpl in Hclick.
    destruct (activeSessionIdRef st) as [j|] eqn:Hj; [|done].
    destruct (truthy j); [|done]. simpl. apply Hmap.
    intros s Hs Hid _. unfold indexOk. simpl. apply Hclick; [done|by subst j].
  - done.
  - done.
  - by destruct a.
  - done.
Qed.

(** X4. The version on display always exists: if every session's current
    index points into its versions, it still does after any run of events
    whose timeline clicks carry an index of a version of the session they
    update. *)
Theorem current_index_stays_in_range
    (evs : list App.Event) (st : App.AppState) :
  Forall AppFlow.indexOk (App.sessions st) ->
  AppFlow.clicksInRange st evs ->
  forall s, s ∈ App.sessions (App.run evs st) ->
    exists v, versions s !! currentIndex s = Some v.
Proof.
  intros Hok Hclicks.
  assert (H : Forall indexOk (sessions (run evs st))).
  { revert st Hok Hclicks. induction evs as [|e evs IH]; intros st Hok Hc; simpl.
    - done.
    - destruct Hc as [Hc1 Hc2]. apply IH; [by apply step_indexOk|done]. }
  intros s Hs. rewrite Forall_forall in H.
  apply lookup_lt_is_Some_2, H, Hs.
Qed.

Lemma current_index_stays_in_range_witness :
  let st := App.commitRefs
    (App.handleImageUpload (App.FileRead "data:image/png;base64,AAAA")
       1700000000000 App.initial).1 in
  let evs := [App.EditSettle "add a hat" (App.EditResolved "data:image/png;base64,BBBB");
              App.SelectVersion 0; App.SelectVersion 1] in
  Forall AppFlow.indexOk (App.sessions st) /\
  AppFlow.clicksInRange st evs /\
  forall s, s ∈ App.sessions (App.run evs st) ->
    exists v, versions s !! currentIndex s = Some v.
Proof.
  intros st evs.
  assert (Hok : Forall AppFlow.indexOk (App.sessions st)).
  { repeat constructor. }
  assert (Hc : AppFlow.clicksInRange st evs).
  { repeat split.
    - intros s Hs _. apply list_elem_of_singleton in Hs. subst s. simpl. lia.
    - intros s Hs _. apply list_elem_of_singleton in Hs. subst s. simpl. lia. }
  split; [exact Hok|]. split; [exact Hc|].
  exact (current_index_stays_in_range evs st Hok Hc).
Defined.

(** X5. A fresh upload starts voice mode on the uploaded image: after a
    file is read while no live session runs, the effect that watches the
    active session calls [startSession] with the data URI of the file,
    provided no older session bears the same timestamp identifier. *)
Theorem upload_auto_starts_live_session
    (st : App.AppState) (base64 : string) (now : Z) :
  (forall s0, s0 ∈ App.sessions st -> id s0 <> toString now) ->
  AppFlow.autoStart false
    (App.handleImageUpload (App.FileRead base64) now st).1 = Some base64 /\
  AppFlow.handleStartLiveSession
    (App.handleImageUpload (App.FileRead base64) now st).1 = Some base64 /\
  AppFlow.autoStart true
    (App.handleImageUpload (App.FileRead base64) now st).1 = None.
Proof.
  intros Hfresh. unfold autoStart, handleStartLiveSession, activeSession. simpl.
  rewrite truthy_toString, length_app. simpl.
  rewrite (find_app_fresh (toString now) (sessions st) (newSession base64 now))
    by done.
  replace (length (sessions st) + 1 =? 0)%nat with false
    by (symmetry; apply Nat.eqb_neq; lia).
  done.
Qed.

Lemma upload_auto_starts_live_session_witness :
  (forall s0, s0 ∈ App.sessions App.initial -> id s0 <> toString 1700000000000) /\
  AppFlow.autoStart false
    (App.handleImageUpload (App.FileRead "data:image/png;base64,AAAA")
       1700000000000 App.initial).1 = Some "data:image/png;base64,AAAA".
Proof.
  assert (H : forall s0, s0 ∈ App.sessions App.initial ->
                id s0 <> toString 1700000000000).
  { intros s0 Hs. by apply elem_of_nil in Hs. }
  split; [exact H|].
  exact (proj1 (upload_auto_starts_live_session App.initial
                  "data:image/png;base64,AAAA" 1700000000000 H)).
Defined.

End AppFlowProperties.

(** ** Data URIs (services/geminiService.ts, editImage) *)
Section EditImageProperties.
Import EditImage.

Lemma split_nonempty (sep : ascii) (s : string) : split sep s <> [].
Proof.
  destruct s as [|c s]; simpl; [done|].
  destruct (Ascii.eqb c sep); [done|]. by destruct (split sep s).
Qed.

Lemma list_ascii_of_string_app (a b : string) :
  list_ascii_of_string (a +:+ b) = list_ascii_of_string a ++ list_ascii_of_string b.
Proof.
  induction a as [|c a IH]; [reflexivity|].
  change (String c a +:+ b) with (String c (a +:+ b)). simpl. by rewrite IH.
Qed.

Lemma free_of_app (c : ascii) (a b : string) :
  free_of c (a +:+ b) <-> free_of c a /\ free_of c b.
Proof.
  unfold free_of. rewrite list_ascii_of_string_app. apply not_elem_of_app.
Qed.

Lemma free_of_cons (c x : ascii) (s : string) :
  free_of c (String x s) <-> x <> c /\ free_of c s.
Proof.
  unfold free_of. simpl. rewrite not_elem_of_cons.
  split; intros [H1 H2]; (split; [congruence|done]).
Qed.

Lemma append_empty_r (s : string) : s +:+ EmptyString = s.
Proof.
  induction s as [|c s IH]; [reflexivity|].
  change (String c s +:+ EmptyString) with (String c (s +:+ EmptyString)).
  by rewrite IH.
Qed.

(** A separator-free prefix joins the first piece of what follows. *)
Lemma split_app_free (sep : ascii) (s1 s2 : string) :
  free_of sep s1 ->
  split sep (s1 +:+ s2) =
    match split sep s2 with
    | piece :: pieces => (s1 +:+ piece) :: pieces
    | [] => [s1]
    end.
Proof.
  induction s1 as [|c s1 IH]; intros Hfree.
  - change (EmptyString +:+ s2) with s2.
    pose proof (split_nonempty sep s2). by destruct (split sep s2).
  - apply free_of_cons in Hfree as [Hc Hfree].
    change (String c s1 +:+ s2) with (String c (s1 +:+ s2)). simpl.
    rewrite (proj2 (Ascii.eqb_neq c sep) Hc), IH by done.
    pose proof (split_nonempty sep s2). by destruct (split sep s2).
Qed.

Lemma split_free (sep : ascii) (s : string) : free_of sep s -> split sep s = [s].
Proof.
  intros Hfree. rewrite <- (append_empty_r s) at 1.
  rewrite split_app_free by done. simpl. by rewrite append_empty_r.
Qed.

Lemma split_pieces_free (c sep : ascii) (s : string) :
  free_of c s -> Forall (free_of c) (split sep s).
Proof.
  induction s as [|x s IH]; intros Hfree; simpl.
  - by repeat constructor.
  - apply free_of_cons in Hfree as [Hx Hfree]. specialize (IH Hfree).
    destruct (Ascii.eqb x sep).
    + constructor; [|done]. unfold free_of. simpl. apply not_elem_of_nil.
    + pose proof (split_nonempty sep s).
      destruct (split sep s) as [|piece pieces]; [done|].
      apply Forall_cons_1 in IH as [Hp Hps].
      constructor; [|done]. by apply free_of_cons.
Qed.

Lemma dataUri_pieces (mimeType bytes : string) :
  free_of "," mimeType -> free_of "," bytes ->
  split "," (dataUri mimeType bytes)
  = [("data:" +:+ mimeType +:+ ";base64"); bytes].
Proof.
  intros Hm Hb. unfold dataUri.
  rewrite (split_app_free "," "data:") by free_literal.
  rewrite (split_app_free "," mimeType) by done.
  change (split "," (";base64," +:+ bytes)) with (";base64" :: split "," bytes).
  by rewrite (split_free "," bytes).
Qed.

Lemma header_mimeType (mimeType : string) :
  free_of ":" mimeType -> free_of ";" mimeType ->
  (afterColon ← split ":" ("data:" +:+ mimeType +:+ ";base64") !! 1%nat;
   split ";" afterColon !! 0%nat) = Some mimeType.
Proof.
  intros Hc Hs.
  change (split ":" ("data:" +:+ mimeType +:+ ";base64"))
    with ("data" :: split ":" (mimeType +:+ ";base64")).
  rewrite (split_free ":" (mimeType +:+ ";base64")).
  2:{ apply free_of_app. split; [done|free_literal]. }
  simpl. rewrite (split_app_free ";" mimeType) by done.
  change (split ";" ";base64") with [EmptyString; "base64"].
  simpl. by rewrite append_empty_r.
Qed.

Lemma dataUri_parse (mimeType payload : string) :
  free_of "," mimeType -> free_of ":" mimeType -> free_of ";" mimeType ->
  free_of "," payload ->
  sourceMimeType (dataUri mimeType payload) = Some mimeType /\
  sourceData (dataUri mimeType payload) = Some payload.
Proof.
  intros Hm1 Hm2 Hm3 Hp. unfold sourceMimeType, sourceData.
  rewrite dataUri_pieces by done. simpl.
  split; [|reflexivity]. by apply header_mimeType.
Qed.

(** X6. A data URI of the form the service returns reads back: for a
    MIME type free of comma, colon and semicolon and a payload free of
    commas, the service's own parsing of [dataUri mimeType payload] gives
    that MIME type and that payload. *)
Theorem dataUri_reads_back (mimeType payload : string) :
  free_of "," mimeType -> free_of ":" mimeType -> free_of ";" mimeType ->
  free_of "," payload ->
  EditImage.sourceMimeType (EditImage.dataUri mimeType payload) = Some mimeType /\
  EditImage.sourceData (EditImage.dataUri mimeType payload) = Some payload.
Proof.
  intros Hm1 Hm2 Hm3 Hp. by apply dataUri_parse.
Qed.

Lemma dataUri_reads_back_witness :
  free_of "," "image/png" /\ free_of ":" "image/png" /\ free_of ";" "image/png" /\
  free_of "," "iVBORw0KGgo=" /\
  EditImage.sourceMimeType (EditImage.dataUri "image/png" "iVBORw0KGgo=")
    = Some "image/png".
Proof.
  assert (H1 : free_of "," "image/png") by free_literal.
  assert (H2 : free_of ":" "image/png") by free_literal.
  assert (H3 : free_of ";" "image/png") by free_literal.
  assert (H4 : free_of "," "iVBORw0KGgo=") by free_literal.
  repeat (split; [assumption|]).
  exact (proj1 (dataUri_reads_back "image/png" "iVBORw0KGgo=" H1 H2 H3 H4)).
Defined.

Lemma firstImage_split (parts : list Part) (url : string) :
  firstImage parts = Some url ->
  exists before part after mimeType bytes,
    parts = before ++ part :: after /\
    Forall (fun q => inlineData q = None) before /\
    inlineData part = Some (mimeType, bytes) /\
    url = dataUri mimeType bytes.
Proof.
  induction parts as [|q parts IH]; simpl; [discriminate|].
  destruct (inlineData q) as [[m b]|] eqn:Hq.
  - intros [= <-]. by exists [], q, parts, m, b.
  - intros H. destruct (IH H) as (before & part & after & m & b & -> & Hb & Hp & ->).
    exists (q :: before), part, after, m, b. repeat split; [|done].
    by constructor.
Qed.

(** X7. When [editImage] returns, the vendor was asked with the MIME
    type and payload read off the source and with the prompt, and the
    result is the data URI of the first part of the vendor's answer to
    that request that carries an image; and when that part's MIME type
    and payload are free of the separators, a further edit that starts
    from the returned URI sends the vendor exactly that payload and MIME
    type.  A source with no colon makes the call fail before the vendor
    is asked. *)
Theorem editImage_result_feeds_next_edit
    (key : string) (generateContent : EditImage.Request -> option (list EditImage.Part))
    (imageBase64 prompt url : string) :
  EditImage.editImage (Some key) generateContent imageBase64 prompt = Some url ->
  truthy key = true /\
  exists mimeType0 parts before part after mimeType payload,
    EditImage.sourceMimeType imageBase64 = Some mimeType0 /\
    generateContent
      (EditImage.mkRequest (EditImage.sourceData imageBase64) mimeType0 prompt)
      = Some parts /\
    parts = before ++ part :: after /\
    Forall (fun q => EditImage.inlineData q = None) before /\
    EditImage.inlineData part = Some (mimeType, payload) /\
    url = EditImage.dataUri mimeType payload /\
    (free_of "," mimeType -> free_of ":" mimeType -> free_of ";" mimeType ->
     free_of "," payload ->
     forall generateContent' prompt',
       EditImage.editImage (Some key) generateContent' url prompt'
       = generateContent' (EditImage.mkRequest (Some payload) mimeType prompt')
           ≫= EditImage.firstImage).
Proof.
  unfold editImage. destruct (truthy key) eqn:Hkey; [|discriminate].
  destruct (sourceMimeType imageBase64) as [m0|] eqn:Hm0; [|discriminate].
  simpl. destruct (generateContent _) as [parts|] eqn:Hgen; [|discriminate]. simpl.
  intros Hfirst. split; [done|].
  destruct (firstImage_split parts url Hfirst)
    as (before & part & after & m & b & Hparts & Hb & Hp & Hurl).
  exists m0, parts, before, part, after, m, b.
  repeat (split; [done|]).
  intros H1 H2 H3 H4 gen' p'. subst url.
  destruct (dataUri_parse m b H1 H2 H3 H4) as [-> ->]. reflexivity.
Qed.

Lemma editImage_result_feeds_next_edit_witness :
  let answer := fun _ : EditImage.Request =>
    Some [EditImage.mkPart None (Some "done");
          EditImage.mkPart (Some ("image/png", "BBBB")) None] in
  EditImage.editImage (Some "k") answer "data:image/jpeg;base64,AAAA" "add a hat"
    = Some "data:image/png;base64,BBBB" /\
  exists mimeType0 parts,
    EditImage.sourceMimeType "data:image/jpeg;base64,AAAA" = Some mimeType0 /\
    answer (EditImage.mkRequest (EditImage.sourceData "data:image/jpeg;base64,AAAA")
              mimeType0 "add a hat") = Some parts.
Proof.
  intros answer. split; [reflexivity|].
  destruct (editImage_result_feeds_next_edit "k" answer
              "data:image/jpeg;base64,AAAA" "add a hat"
              "data:image/png;base64,BBBB" eq_refl)
    as (_ & m0 & parts & _ & _ & _ & _ & _ & Hm0 & Hgen & _).
  exists m0, parts. split; [exact Hm0|exact Hgen].
Defined.

Lemma editImage_none
    (apiKey : option string) (generateContent : Request -> option (list Part))
    (imageBase64 prompt : string) :
  free_of ":" imageBase64 \/ apiKey = None \/ apiKey = Some EmptyString ->
  editImage apiKey generateContent imageBase64 prompt = None.
Proof.
  intros H. unfold editImage. destruct H as [Hfree|[->| ->]]; [|done|done].
  destruct apiKey as [key|]; [|done]. destruct (truthy key); [|done].
  unfold sourceMimeType.
  pose proof (split_pieces_free ":" "," imageBase64 Hfree) as Hpieces.
  pose proof (split_nonempty "," imageBase64).
  destruct (split "," imageBase64) as [|header pieces]; [done|].
  apply Forall_cons_1 in Hpieces as [Hheader _].
  simpl. by rewrite (split_free ":" header).
Qed.

(** X8. A source image with no colon makes [editImage] throw, whatever
    the vendor would answer; so does a missing or empty API key. *)
Theorem editImage_rejects_malformed_source
    (apiKey : option string)
    (generateContent : EditImage.Request -> option (list EditImage.Part))
    (imageBase64 prompt : string) :
  free_of ":" imageBase64 \/ apiKey = None \/ apiKey = Some EmptyString ->
  EditImage.editImage apiKey generateContent imageBase64 prompt = None /\
  EditImage.editOutcome apiKey generateContent imageBase64 prompt
    = App.EditRejected.
Proof.
  intros H. pose proof (editImage_none apiKey generateContent imageBase64 prompt H)
    as Hnone.
  split; [exact Hnone|]. unfold editOutcome. by rewrite Hnone.
Qed.

Lemma editImage_rejects_malformed_source_witness :
  (free_of ":" "not a data uri" \/ Some "k" = None \/ Some "k" = Some EmptyString) /\
  EditImage.editImage (Some "k") (fun _ => Some []) "not a data uri" "add a hat"
    = None.
Proof.
  assert (H : free_of ":" "not a data uri" \/ Some "k" = @None string
              \/ Some "k" = Some EmptyString) by (left; free_literal).
  split; [exact H|].
  exact (proj1 (editImage_rejects_malformed_source (Some "k") (fun _ => Some [])
                  "not a data uri" "add a hat" H)).
Defined.

(** X26. Without an API key no edit gets through: a tool call to
    editImage on an active session ends as Failed, with the error banner
    set, and leaves every session as it was; a tool call under any other
    name does nothing at all. *)
Theorem tool_call_without_key_fails
    (apiKey : option string)
    (generateContent : EditImage.Request -> option (list EditImage.Part))
    (name promptArg : string) (st : App.AppState) (session : Session) :
  apiKey = None \/ apiKey = Some EmptyString ->
  App.findSession (App.activeSessionIdRef st) (App.sessionsRef st) = Some session ->
  let out := AppFlow.handleFunctionCall
               (EditImage.editOutcome apiKey generateContent) name promptArg st in
  App.sessions out.1.1 = App.sessions st /\
  (name = "editImage" ->
     out.2 = App.GenError "Failed" /\
     App.error out.1.1 = Some "Generation failed. Please try again." /\
     App.isLoading out.1.1 = false) /\
  (name <> "editImage" -> out = (st, [], App.GenError "Unknown")).
Proof.
  intros Hkey Hfind. unfold AppFlow.handleFunctionCall.
  destruct (decide (name = "editImage")) as [Hname|Hname]; simpl.
  - unfold App.handleGenerate, App.handleGenerate_begin. rewrite Hfind.
    assert (Hrej : forall img, editOutcome apiKey generateContent img promptArg
                               = App.EditRejected).
    { intros img. unfold editOutcome.
      rewrite editImage_none; [done|]. by right. }
    destruct (src <$> last (versions session)) as [img|]; [rewrite Hrej|];
      simpl; (split; [done|]); (split; [done|]); by intros ?.
  - split; [done|]. split; [by intros ?|done].
Qed.

Lemma tool_call_without_key_fails_witness :
  let st := App.commitRefs
    (App.handleImageUpload (App.FileRead "data:image/png;base64,AAAA")
       1700000000000 App.initial).1 in
  (@None string = None \/ @None string = Some EmptyString) /\
  App.findSession (App.activeSessionIdRef st) (App.sessionsRef st)
    = Some (App.newSession "data:image/png;base64,AAAA" 1700000000000) /\
  App.sessions
    (AppFlow.handleFunctionCall
       (EditImage.editOutcome None (fun _ => Some [])) "editImage" "add a hat" st).1.1
  = App.sessions st.
Proof.
  intros st.
  assert (H : @None string = None \/ @None string = Some EmptyString) by (by left).
  split; [exact H|]. split; [reflexivity|].
  exact (proj1 (tool_call_without_key_fails None (fun _ => Some []) "editImage"
                  "add a hat" st
                  (App.newSession "data:image/png;base64,AAAA" 1700000000000)
                  H eq_refl)).
Defined.

End EditImageProperties.

(** ** Base64 output and PCM audio (services/geminiService.ts) *)
Section AudioCodecProperties.
Import GeminiService DecodeAudioData.

Lemma length_btoa_groups (l : list N) :
  length (btoa_groups l) = (4 * ((length l + 2) / 3))%nat.
Proof.
  induction l as [|a|a b|a b c rest IH] using list_ind3; try reflexivity.
  change (btoa_groups (a :: b :: c :: rest)) with
    (b64_char (a / 4) :: b64_char ((a mod 4) * 16 + b / 16)
     :: b64_char ((b mod 16) * 4 + c / 64) :: b64_char (c mod 64)
     :: btoa_groups rest)%N.
  cbn [length]. rewrite IH.
  replace (S (S (S (length rest))) + 2)%nat with (length rest + 2 + 1 * 3)%nat by lia.
  rewrite Nat.div_add by lia. lia.
Qed.

Lemma btoa_groups_chars (l : list N) :
  Forall (fun c => c ∈ alphabet \/ c = pad) (btoa_groups l).
Proof.
  rewrite btoa_groups_split. apply Forall_app. split.
  - apply Forall_fmap, Forall_true. intros n. left. apply b64_char_in_alphabet.
  - apply Forall_replicate. by right.
Qed.

(** X9. The base64 text of [n] bytes has [4 * ceil(n / 3)] characters,
    each a letter of the base64 alphabet or the padding sign. *)
Theorem encode_shape (bytes : list Byte.byte) :
  String.length (GeminiService.encode bytes) = (4 * ((length bytes + 2) / 3))%nat /\
  Forall (fun c => c ∈ GeminiService.alphabet \/ c = GeminiService.pad)
    (list_ascii_of_string (GeminiService.encode bytes)).
Proof.
  rewrite encode_as_btoa. unfold btoa.
  rewrite length_string_of_list_ascii, !list_ascii_of_string_of_list_ascii.
  split.
  - by rewrite length_btoa_groups, !length_fmap.
  - apply btoa_groups_chars.
Qed.

Lemma ascii_of_byte_inj (l1 l2 : list Byte.byte) :
  ascii_of_byte <$> l1 = ascii_of_byte <$> l2 -> l1 = l2.
Proof.
  intros H. apply (f_equal (fmap byte_of_ascii)) in H.
  rewrite <- !list_fmap_compose in H.
  erewrite !(list_fmap_ext (byte_of_ascii ∘ ascii_of_byte) (fun b => b)) in H;
    [|intros; apply byte_of_ascii_of_byte..].
  by rewrite !list_fmap_id in H.
Qed.

(** X10. Different byte arrays never share a base64 text. *)
Theorem encode_injective (bytes1 bytes2 : list Byte.byte) :
  GeminiService.encode bytes1 = GeminiService.encode bytes2 -> bytes1 = bytes2.
Proof.
  rewrite !encode_as_btoa. intros H.
  apply (f_equal atob) in H. rewrite !atob_btoa in H.
  injection H as H.
  apply (f_equal list_ascii_of_string) in H.
  rewrite !list_ascii_of_string_of_list_ascii in H.
  by apply ascii_of_byte_inj.
Qed.

Lemma encode_injective_witness :
  GeminiService.encode [Byte.x00; Byte.xff] = GeminiService.encode [Byte.x00; Byte.xff] /\
  [Byte.x00; Byte.xff] = [Byte.x00; Byte.xff].
Proof.
  split; [reflexivity|].
  exact (encode_injective [Byte.x00; Byte.xff] [Byte.x00; Byte.xff] eq_refl).
Defined.


(** Induction over a list two elements at a time. *)
Lemma list_ind2 {A} (P : list A -> Prop) :
  P [] -> (forall a, P [a]) ->
  (forall a b rest, P rest -> P (a :: b :: rest)) ->
  forall l, P l.
Proof.
  intros H0 H1 H2 l.
  assert (H : P l /\ forall a, P (a :: l)).
  { induction l as [|x l [IH0 IH1]]; [by auto|]. split; auto. }
  apply H.
Qed.

Lemma int16_of_pair_range (lo hi : Byte.byte) :
  -32768 <= int16_of_pair lo hi < 32768.
Proof.
  unfold int16_of_pair.
  pose proof (Byte.to_N_bounded lo). pose proof (Byte.to_N_bounded hi).
  destruct (Z.leb_spec 32768
              (Z.of_N (Byte.to_N lo) + 256 * Z.of_N (Byte.to_N hi))); lia.
Qed.

Lemma int16_pairs_range (bytes : list Byte.byte) :
  Forall (fun v => -32768 <= v < 32768) (int16_pairs bytes).
Proof.
  induction bytes as [|a|a b rest IH] using list_ind2; try by constructor.
  simpl. constructor; [apply int16_of_pair_range|done].
Qed.

Lemma length_int16_pairs (bytes : list Byte.byte) :
  length (int16_pairs bytes) = (length bytes / 2)%nat.
Proof.
  induction bytes as [|a|a b rest IH] using list_ind2; try reflexivity.
  cbn [int16_pairs length]. rewrite IH.
  replace (S (S (length rest))) with (length rest + 1 * 2)%nat by lia.
  rewrite Nat.div_add by lia. lia.
Qed.

(** The duration used for scheduling is that of the buffer which
    [decodeAudioData] builds for one channel, on any platform. *)
Lemma bufferDuration_decodeAudioData
    (maxChannels : nat) (bytes : list Byte.byte) (rate : positive) :
  (1 <= maxChannels)%nat ->
  GeminiService.bufferDuration bytes rate
  = DecodeAudioData.duration
      <$> DecodeAudioData.decodeAudioData maxChannels bytes rate 1.
Proof.
  intros Hmax.
  unfold GeminiService.bufferDuration, DecodeAudioData.decodeAudioData,
    DecodeAudioData.int16_view.
  destruct (length bytes mod 2 =? 0)%nat; [|reflexivity].
  cbn [mbind option_bind andb].
  rewrite length_int16_pairs, Nat.div_1_r.
  change (1 <=? 1)%nat with true.
  replace (1 <=? maxChannels)%nat with true by (symmetry; by apply Nat.leb_le).
  cbn [andb].
  destruct (1 <=? length bytes / 2)%nat; [|reflexivity].
  cbn [fmap option_fmap option_map DecodeAudioData.duration
       DecodeAudioData.channelData DecodeAudioData.sampleRate seq list_fmap].
  by rewrite length_for_fill.
Qed.

(** X11. A decoded buffer has the requested number of channels (at
    least one), each of [(bytes / 2) / channels] frames and at least one; frame
    [i] of channel [c] is the 16-bit little-endian sample number
    [i * channels + c] over 32768, hence at least -1 and below 1.  A
    buffer of odd length, or too short for one frame, is refused.
    ([maxChannels] is the channel limit of the platform.) *)
Theorem decodeAudioData_shape
    (maxChannels : nat) (bytes : list Byte.byte) (rate : positive)
    (numChannels : nat) (buffer : DecodeAudioData.AudioBuffer) :
  DecodeAudioData.decodeAudioData maxChannels bytes rate numChannels = Some buffer ->
  let frames := (length bytes / 2 / numChannels)%nat in
  (length bytes mod 2 = 0)%nat /\
  (1 <= numChannels <= maxChannels)%nat /\ (1 <= frames)%nat /\
  length (DecodeAudioData.channelData buffer) = numChannels /\
  DecodeAudioData.duration buffer = Qmake (Z.of_nat frames) rate /\
  forall c channel,
    DecodeAudioData.channelData buffer !! c = Some channel ->
    length channel = frames /\
    forall i q, channel !! i = Some q ->
      (-1 <= q)%Q /\ (q < 1)%Q /\
      exists v, DecodeAudioData.int16_pairs bytes !! (i * numChannels + c)%nat = Some v /\
                q = Qmake v 32768.
Proof.
  unfold decodeAudioData, int16_view.
  destruct (length bytes mod 2 =? 0)%nat eqn:Heven; [|discriminate].
  cbn [mbind option_bind]. rewrite length_int16_pairs.
  destruct (1 <=? numChannels)%nat eqn:H1; [|discriminate].
  destruct (numChannels <=? maxChannels)%nat eqn:H32; [|discriminate].
  destruct (1 <=? length bytes / 2 / numChannels)%nat eqn:Hf; [|discriminate].
  cbn [andb]. intros Hb. injection Hb as <-.
  set (frames := (length bytes / 2 / numChannels)%nat) in *.
  apply Nat.eqb_eq in Heven. apply Nat.leb_le in H1, H32, Hf.
  assert (Hchan : forall c channel,
            ((fun channel =>
               for_fill 0%Q frames
                 (fun i => toFloat (int16_pairs bytes !! (i * numChannels + channel)%nat)))
             <$> seq 0 numChannels) !! c = Some channel ->
            (c < numChannels)%nat /\
            channel = for_fill 0%Q frames
              (fun i => toFloat (int16_pairs bytes !! (i * numChannels + c)%nat))).
  { intros c channel Hc. rewrite list_lookup_fmap in Hc.
    destruct (seq 0 numChannels !! c) as [c'|] eqn:Hseq; [|discriminate].
    apply lookup_seq in Hseq as [-> Hlt]. simpl in Hc.
    split; [done|]. by injection Hc. }
  split; [done|]. split; [lia|]. split; [done|].
  split; [simpl; by rewrite length_fmap, length_seq|].
  split.
  { unfold duration. simpl. destruct numChannels as [|n]; [lia|].
    rewrite <- cons_seq. simpl. by rewrite length_for_fill. }
  simpl. intros c channel Hc.
  destruct (Hchan c channel Hc) as [Hlt ->].
  split; [apply length_for_fill|].
  intros i q Hq.
  pose proof (lookup_lt_Some _ _ _ Hq) as Hi. rewrite length_for_fill in Hi.
  rewrite for_fill_lookup in Hq by done. injection Hq as <-.
  assert (Hidx : (i * numChannels + c < length (int16_pairs bytes))%nat).
  { rewrite length_int16_pairs.
    pose proof (Nat.div_mod (length bytes / 2) numChannels ltac:(lia)) as Hdm.
    fold frames in Hdm. nia. }
  destruct (lookup_lt_is_Some_2 _ _ Hidx) as [v Hv]. rewrite Hv. simpl.
  pose proof (int16_pairs_range bytes) as Hr. rewrite Forall_forall in Hr.
  assert (Hvr : -32768 <= v < 32768)
    by (apply Hr; eapply list_elem_of_lookup_2; exact Hv).
  split; [unfold Qle; simpl; lia|].
  split; [unfold Qlt; simpl; lia|]. by exists v.
Qed.


Lemma decodeAudioData_shape_witness :
  exists buffer,
    DecodeAudioData.decodeAudioData 32 [Byte.x00; Byte.x80; Byte.xff; Byte.x7f]
      24000 1 = Some buffer /\
    length (DecodeAudioData.channelData buffer) = 1%nat /\
    DecodeAudioData.duration buffer = Qmake 2 24000.
Proof.
  eexists. split; [reflexivity|].
  pose proof (decodeAudioData_shape 32 [Byte.x00; Byte.x80; Byte.xff; Byte.x7f]
                24000 1 _ eq_refl) as (_ & _ & _ & Hlen & Hdur & _).
  split; [exact Hlen|exact Hdur].
Defined.

Lemma trunc_on_grid (k : Z) : trunc (Qmake k 32768 * 32768) = k.
Proof.
  unfold trunc, Qmult. cbn [Qnum Qden].
  change (Z.pos (32768 * 1)) with 32768. apply Z.quot_mul. lia.
Qed.

(** X12. The live audio format survives its own round trip: the blob
    made from a non-empty block of microphone samples decodes, as one
    channel, to one frame per sample, each the 16-bit value of that sample
    over 32768; a sample already of the form [k / 32768] with
    [-32768 <= k < 32768] comes back unchanged. *)
Theorem pcm_loopback
    (maxChannels : nat) (samples : list GeminiService.Float32) (rate : positive) :
  (1 <= maxChannels)%nat ->
  samples <> [] ->
  exists buffer,
    DecodeAudioData.loopback maxChannels samples rate = Some buffer /\
    DecodeAudioData.channelData buffer
      = [(fun v => Qmake v 32768) <$> GeminiService.samples_int16 samples] /\
    DecodeAudioData.duration buffer = Qmake (Z.of_nat (length samples)) rate /\
    forall i k,
      samples !! i = Some (GeminiService.F_fin (Qmake k 32768)) ->
      -32768 <= k < 32768 ->
      exists channel,
        DecodeAudioData.channelData buffer !! 0%nat = Some channel /\
        channel !! i = Some (Qmake k 32768).
Proof.
  intros Hmax Hne. unfold loopback. rewrite decode_createBlob. cbn [mbind option_bind].
  destruct (int16_pairs_bytes (samples_int16 samples) (samples_int16_range samples))
    as [Hpairs Hlen].
  assert (Hn : length (samples_int16 samples) = length samples)
    by apply length_for_fill.
  assert (Hpos : (1 <= length samples)%nat)
    by (destruct samples; [done|simpl; lia]).
  unfold decodeAudioData, int16_view.
  rewrite Hlen, Hn.
  replace (2 * length samples mod 2 =? 0)%nat with true
    by (symmetry; apply Nat.eqb_eq; rewrite Nat.mul_comm; apply Nat.Div0.mod_mul).
  cbn [mbind option_bind]. rewrite Hpairs, Hn, Nat.div_1_r.
  replace (1 <=? length samples)%nat with true
    by (symmetry; by apply Nat.leb_le).
  change (1 <=? 1)%nat with true.
  replace (1 <=? maxChannels)%nat with true by (symmetry; by apply Nat.leb_le).
  cbn [andb seq fmap list_fmap].
  assert (Hchan : for_fill 0%Q (length samples)
            (fun i => toFloat (samples_int16 samples !! (i * 1 + 0)%nat))
          = (fun v => Qmake v 32768) <$> samples_int16 samples).
  { rewrite for_fill_spec. apply list_eq. intros i.
    rewrite !list_lookup_fmap.
    destruct (decide (i < length samples)%nat) as [Hi|Hi].
    - rewrite lookup_seq_lt by done. simpl.
      replace (i * 1 + 0)%nat with i by lia.
      destruct (lookup_lt_is_Some_2 (samples_int16 samples) i ltac:(lia)) as [v Hv].
      by rewrite Hv.
    - rewrite lookup_seq_ge by lia.
      by rewrite (proj2 (lookup_ge_None (samples_int16 samples) i)) by lia. }
  eexists. split; [reflexivity|]. cbn [channelData]. rewrite Hchan.
  split; [reflexivity|]. split.
  - unfold duration. cbn [channelData sampleRate].
    by rewrite length_fmap, Hn.
  - intros i k Hi Hk. eexists. split; [reflexivity|].
    rewrite list_lookup_fmap, (samples_int16_lookup samples i _ Hi).
    cbn [fmul32768 fmap option_fmap option_map].
    rewrite ToInt16_small by (rewrite trunc_on_grid; lia).
    by rewrite trunc_on_grid.
Qed.

Lemma pcm_loopback_witness :
  [GeminiService.F_fin (Qmake (-16384) 32768); GeminiService.F_fin (Qmake 1 32768)]
    <> [] /\
  exists buffer,
    DecodeAudioData.loopback 32
      [GeminiService.F_fin (Qmake (-16384) 32768); GeminiService.F_fin (Qmake 1 32768)]
      24000 = Some buffer /\
    DecodeAudioData.channelData buffer
      = [[Qmake (-16384) 32768; Qmake 1 32768]].
Proof.
  assert (Hne : [GeminiService.F_fin (Qmake (-16384) 32768);
                 GeminiService.F_fin (Qmake 1 32768)] <> []) by discriminate.
  assert (Hmax : (1 <= 32)%nat) by lia.
  split; [exact Hne|].
  destruct (pcm_loopback 32 _ 24000%positive Hmax Hne) as (buffer & Hb & Hc & _).
  exists buffer. split; [exact Hb|]. rewrite Hc. reflexivity.
Defined.

End AudioCodecProperties.

(** ** Life cycle of the live session (hooks/useGeminiLive.ts) *)
Section LiveHookProperties.
Import GeminiLive LiveHook.

Lemma stopSession_idempotent_aux (st : LiveState) :
  stopSession (stopSession st) = stopSession st.
Proof.
  unfold stopSession. cbn [sessionPromiseRef streamRef sourceNode
    processorNode inputContext outputContext audioSourcesRef whenSet
    currentInputTranscriptionRef currentOutputTranscriptionRef aiSpeaking
    freshSource calls].
  rewrite elements_empty. cbn [fmap list_fmap app].
  rewrite app_nil_r. reflexivity.
Qed.

(** X13. Stopping twice is stopping once: a second [stopSession] makes no
    call and changes nothing. *)
Theorem stopSession_idempotent (st : GeminiLive.LiveState) :
  GeminiLive.stopSession (GeminiLive.stopSession st) = GeminiLive.stopSession st /\
  GeminiLive.calls (GeminiLive.stopSession (GeminiLive.stopSession st))
    = GeminiLive.calls (GeminiLive.stopSession st).
Proof. by rewrite stopSession_idempotent_aux. Qed.

Lemma playAudio_without_output (currentTime : Q) (audioData : string)
    (st : LiveState) :
  outputContext st = None -> playAudio currentTime audioData st = st.
Proof. intros H. unfold playAudio, playAudio_begin. by rewrite H. Qed.

(** X14. Audio that arrives after a stop is dropped: on a stopped hook no
    chunk is scheduled, the watermark stays 0 and the source set stays
    empty, however many chunks come. *)
Theorem no_playback_after_stop
    (chunks : list (Q * string)) (st : GeminiLive.LiveState) :
  GeminiLive.playAll chunks (GeminiLive.stopSession st) = GeminiLive.stopSession st.
Proof.
  induction chunks as [|c chunks IH]; [reflexivity|].
  rewrite playAll_cons, playAudio_without_output by reflexivity.
  exact IH.
Qed.

Lemma playAudio_speaking (currentTime : Q) (audioData : string) (st : LiveState) :
  speakingWhilePlaying st -> speakingWhilePlaying (playAudio currentTime audioData st).
Proof.
  unfold speakingWhilePlaying, playAudio, playAudio_begin. intros Hst.
  destruct (outputContext st); [|done].
  destruct (truthy audioData); [|done].
  assert (Hsp : (if decide (size (audioSourcesRef st) = 0%nat)
                 then true else aiSpeaking st) = true).
  { destruct (decide _) as [_|Hsz]; [done|]. apply Hst.
    intros He. apply Hsz. rewrite He. apply size_empty. }
  destruct (GeminiService.decode audioData ≫= _); simpl; by intros _.
Qed.

Lemma onServerContent_sources (i o : option string) (tc : bool) (st : LiveState) :
  audioSourcesRef (onServerContent i o tc st).1 = audioSourcesRef st /\
  aiSpeaking (onServerContent i o tc st).1 = aiSpeaking st /\
  outputContext (onServerContent i o tc st).1 = outputContext st /\
  calls (onServerContent i o tc st).1 = calls st /\
  nextStartTimeRef (onServerContent i o tc st).1 = nextStartTimeRef st.
Proof. unfold onServerContent. by destruct tc. Qed.

(** The first half of the audio branch keeps the set of sources and
    never lowers the status; when it leaves a continuation pending, the
    status is speaking. *)
Lemma playAudio_begin_speaking (currentTime : Q) (audioData : string)
    (st : LiveState) :
  speakingWhilePlaying st ->
  let out := playAudio_begin currentTime audioData st in
  audioSourcesRef out.1 = audioSourcesRef st /\
  (aiSpeaking st = true -> aiSpeaking out.1 = true) /\
  (out.2 <> None -> aiSpeaking out.1 = true).
Proof.
  unfold speakingWhilePlaying, playAudio_begin. intros Hst.
  destruct (outputContext st); [|done].
  destruct (truthy audioData); [|done].
  assert (Hsp : (if decide (size (audioSourcesRef st) = 0%nat)
                 then true else aiSpeaking st) = true).
  { destruct (decide _) as [_|Hsz]; [done|]. apply Hst.
    intros He. apply Hsz. rewrite He. apply size_empty. }
  simpl. by rewrite Hsp.
Qed.

Lemma resumeAll_speaking (ks : list Suspended) (st : LiveState) :
  aiSpeaking (resumeAll ks st) = aiSpeaking st.
Proof.
  revert st. induction ks as [|k ks IH]; intros st; [reflexivity|].
  unfold resumeAll in *. cbn [foldl]. by rewrite IH.
Qed.

(** A task that delivers one message is that message handled alone. *)
Lemma onmessages_single (t : Q) (msg : Message) (h : Hook) :
  onmessages [(t, msg)] h
  = ((onmessage t msg h).1, option_list (onmessage t msg h).2).
Proof.
  unfold onmessages, onmessage, onmessage_begin, playAudio.
  cbn [foldl fst snd].
  destruct (onServerContent _ _ _ (live h)) as [st1 turn].
  destruct (audioData msg) as [audio|]; [|reflexivity].
  destruct (playAudio_begin t audio st1) as [st2 [k|]]; reflexivity.
Qed.

Lemma onmessage_begin_speaking (t : Q) (msg : Message) (st : LiveState) :
  speakingWhilePlaying st ->
  let out := onmessage_begin t msg st in
  speakingWhilePlaying out.1.1 /\
  (aiSpeaking st = true -> aiSpeaking out.1.1 = true) /\
  (out.2 <> None -> aiSpeaking out.1.1 = true).
Proof.
  intros Hst. unfold onmessage_begin.
  destruct (onServerContent _ _ _ st) as [st1 turn] eqn:E.
  destruct (onServerContent_sources (inputTranscription msg)
              (outputTranscription msg) (turnComplete msg) st) as (Hs & Ha & _).
  rewrite E in Hs, Ha. cbn [fst] in Hs, Ha.
  assert (H1 : speakingWhilePlaying st1).
  { unfold speakingWhilePlaying. by rewrite Hs, Ha. }
  destruct (audioData msg) as [audio|]; cbn [fst snd].
  - destruct (playAudio_begin_speaking t audio st1 H1) as (Hsrc & Hkeep & Hk).
    destruct (playAudio_begin t audio st1) as [st2 k]. cbn [fst snd] in *.
    split; [|split].
    + unfold speakingWhilePlaying. rewrite Hsrc. intros Hne.
      apply Hkeep. by apply H1.
    + intros Hsp. apply Hkeep. by rewrite Ha.
    + exact Hk.
  - split; [exact H1|]. split; [by rewrite Ha|done].
Qed.

(** Several messages in one task keep the indicator in step: every
    pending continuation was left with the status speaking, and nothing
    lowers it before the continuations run. *)
Lemma onmessages_speaking (msgs : list (Q * Message)) (h : Hook) :
  speakingWhilePlaying (live h) -> speakingWhilePlaying (live (onmessages msgs h).1).
Proof.
  intros Hh. unfold onmessages.
  set (f := fun (acc : LiveState * list (string * string) * list Suspended)
                (m : Q * Message) =>
              let '(st', turn, k) := onmessage_begin m.1 m.2 acc.1.1 in
              (st', acc.1.2 ++ option_list turn, acc.2 ++ option_list k)).
  assert (H : forall acc,
            speakingWhilePlaying acc.1.1 ->
            (acc.2 <> [] -> aiSpeaking acc.1.1 = true) ->
            let out := foldl f acc msgs in
            speakingWhilePlaying out.1.1 /\
            (out.2 <> [] -> aiSpeaking out.1.1 = true)).
  { induction msgs as [|m msgs IH]; intros acc H1 H2; [done|].
    cbn [foldl]. apply IH.
    - unfold f. destruct (onmessage_begin_speaking m.1 m.2 acc.1.1 H1) as (Ha & _).
      by destruct (onmessage_begin m.1 m.2 acc.1.1) as [[st' turn] k].
    - unfold f.
      destruct (onmessage_begin_speaking m.1 m.2 acc.1.1 H1) as (_ & Hkeep & Hk).
      destruct (onmessage_begin m.1 m.2 acc.1.1) as [[st' turn] k].
      cbn [fst snd] in *. intros Hne.
      destruct (decide (acc.2 = [])) as [He|Hne'].
      + apply Hk. rewrite He in Hne. by destruct k.
      + apply Hkeep. by apply H2. }
  destruct (H (live h, [], [])) as (H1 & H2); [done..|].
  destruct (foldl f (live h, [], []) msgs) as [[st1 turns] ks].
  cbn [fst snd live] in *.
  destruct ks as [|k ks]; [exact H1|].
  intros _. rewrite resumeAll_speaking. by apply H2.
Qed.

Lemma onended_speaking (source : nat) (st : LiveState) :
  speakingWhilePlaying st -> speakingWhilePlaying (onended source st).
Proof.
  unfold speakingWhilePlaying, onended. simpl. intros Hst Hne.
  destruct (decide _) as [Hsz|_].
  - apply size_empty_inv in Hsz. destruct Hne. by apply leibniz_equiv.
  - apply Hst. intros He. apply Hne. rewrite He.
    apply set_eq. intros x. rewrite elem_of_difference, elem_of_empty. tauto.
Qed.

Lemma step_speaking (h : Hook) (e : Event) :
  speakingWhilePlaying (live h) -> speakingWhilePlaying (live (step h e)).
Proof.
  intros Hh. destruct e as [env img|src proc|samples|t msg|msgs|source|]; simpl.
  - unfold startSession. destruct (isLive (live h)); [done|].
    destruct (userMedia env); [|by intros ?].
    destruct (keyPresent (apiKey env)); [done|by intros ?].
  - unfold onopen. by destruct (inputContext (live h)), (streamRef (live h)).
  - done.
  - unfold onmessage.
    destruct (onServerContent _ _ _ (live h)) as [st1 turn] eqn:E.
    assert (H1 : speakingWhilePlaying st1).
    { destruct (onServerContent_sources (inputTranscription msg)
                  (outputTranscription msg) (turnComplete msg) (live h))
        as (Hs & Ha & _).
      rewrite E in Hs, Ha. unfold speakingWhilePlaying. simpl in *.
      by rewrite Hs, Ha. }
    simpl. destruct (audioData msg); [by apply playAudio_speaking|done].
  - by apply onmessages_speaking.
  - by apply onended_speaking.
  - by intros ?.
Qed.

(** X15. The speaking indicator never lags behind the audio: in every
    state reached by the hook, if a playback source is still in the set
    then the last status reported to the application is speaking. *)
Theorem speaking_while_sources_play (evs : list LiveHook.Event) :
  let st := LiveHook.live (LiveHook.run evs LiveHook.initial) in
  GeminiLive.audioSourcesRef st <> ∅ -> GeminiLive.aiSpeaking st = true.
Proof.
  assert (H : forall h, speakingWhilePlaying (live h) ->
                        speakingWhilePlaying (live (run evs h))).
  { induction evs as [|e evs IH]; intros h Hh; simpl; [done|].
    by apply IH, step_speaking. }
  apply H. by intros ?.
Qed.


Lemma speaking_while_sources_play_witness :
  let env := LiveHook.mkStartEnv (Some [3%nat; 4%nat]) 1 2 (Some "k")
               (GeminiLive.Connected 7) in
  let evs := [LiveHook.Start env None; LiveHook.Open 5 6;
              LiveHook.Receive 0%Q
                (LiveHook.mkMessage None None false (Some "AAAAAAAA"))] in
  GeminiLive.audioSourcesRef (LiveHook.live (LiveHook.run evs LiveHook.initial)) <> ∅ /\
  GeminiLive.aiSpeaking (LiveHook.live (LiveHook.run evs LiveHook.initial)) = true.
Proof.
  intros env evs.
  assert (Hne : GeminiLive.audioSourcesRef
                  (LiveHook.live (LiveHook.run evs LiveHook.initial)) <> ∅).
  { intros H. apply (f_equal (fun s => bool_decide (0%nat ∈ s))) in H.
    vm_compute in H. discriminate H. }
  split; [exact Hne|].
  exact (speaking_while_sources_play evs Hne).
Defined.

Lemma stopSession_released (st : LiveState) : released (stopSession st).
Proof. by repeat split. Qed.

(** X16. A start that fails leaves nothing acquired: when the microphone
    is refused or the API key is missing, the hook reports Connection
    failed and holds no reference; a microphone that had been granted
    has every track stopped and both new audio contexts closed. *)
Theorem failed_start_releases
    (env : LiveHook.StartEnv) (img : option string) (h : LiveHook.Hook) :
  GeminiLive.isLive (LiveHook.live h) = false ->
  LiveHook.userMedia env = None \/ LiveHook.keyPresent (LiveHook.apiKey env) = false ->
  let h' := LiveHook.startSession env img h in
  LiveHook.error h' = Some "Connection failed" /\
  LiveHook.released (LiveHook.live h') /\
  LiveHook.sent h' = LiveHook.sent h /\
  forall tracks, LiveHook.userMedia env = Some tracks ->
    (forall t, t ∈ tracks -> GeminiLive.TrackStop t ∈ GeminiLive.calls (LiveHook.live h')) /\
    GeminiLive.ContextClose (LiveHook.inputContextId env)
      ∈ GeminiLive.calls (LiveHook.live h') /\
    GeminiLive.ContextClose (LiveHook.outputContextId env)
      ∈ GeminiLive.calls (LiveHook.live h').
Proof.
  intros Hlive Hfail. unfold startSession. rewrite Hlive.
  destruct (userMedia env) as [tracks|] eqn:Hmedia.
  - destruct Hfail as [Hfail|Hkey]; [discriminate|]. rewrite Hkey.
    cbv zeta. split; [reflexivity|]. split; [apply stopSession_released|].
    split; [reflexivity|].
    intros tracks' [= <-]. unfold startFailed, stopSession.
    cbn [live calls sessionPromiseRef streamRef sourceNode processorNode
         inputContext outputContext audioSourcesRef whenSet].
    split; [|split; in_app].
    intros t Ht.
    assert (TrackStop t ∈ TrackStop <$> tracks) by (by apply list_elem_of_fmap_2).
    in_app.
  - cbv zeta. split; [reflexivity|]. split; [apply stopSession_released|].
    split; [reflexivity|]. intros tracks. discriminate.
Qed.

Lemma failed_start_releases_witness :
  let env := LiveHook.mkStartEnv (Some [3%nat; 4%nat]) 1 2 None
               (GeminiLive.Connected 7) in
  GeminiLive.isLive (LiveHook.live LiveHook.initial) = false /\
  (LiveHook.userMedia env = None \/
   LiveHook.keyPresent (LiveHook.apiKey env) = false) /\
  GeminiLive.calls (LiveHook.live (LiveHook.startSession env None LiveHook.initial))
  = [GeminiLive.TrackStop 3; GeminiLive.TrackStop 4;
     GeminiLive.ContextClose 1; GeminiLive.ContextClose 2] /\
  LiveHook.error (LiveHook.startSession env None LiveHook.initial)
  = Some "Connection failed".
Proof.
  intros env. split; [reflexivity|].
  assert (H : LiveHook.userMedia env = None \/
              LiveHook.keyPresent (LiveHook.apiKey env) = false) by (by right).
  split; [exact H|]. split; [reflexivity|].
  exact (proj1 (failed_start_releases env None LiveHook.initial eq_refl H)).
Defined.

Lemma playAudio_heldRefs (t : Q) (audio : string) (st : LiveState) :
  heldRefs (playAudio t audio st) = heldRefs st.
Proof.
  unfold playAudio, playAudio_begin.
  destruct (outputContext st) eqn:Ho; [|done].
  destruct (truthy audio); [|done].
  destruct (GeminiService.decode audio ≫= _);
    unfold heldRefs; simpl; by rewrite Ho.
Qed.

Lemma playAudio_begin_heldRefs (t : Q) (audio : string) (st : LiveState) :
  heldRefs (playAudio_begin t audio st).1 = heldRefs st.
Proof.
  unfold playAudio_begin.
  destruct (outputContext st) eqn:Ho; [|done].
  destruct (truthy audio); [|done].
  unfold heldRefs; simpl; by rewrite Ho.
Qed.

Lemma resumeAll_heldRefs (ks : list Suspended) (st : LiveState) :
  heldRefs (resumeAll ks st) = heldRefs st.
Proof.
  revert st. induction ks as [|k ks IH]; intros st; [reflexivity|].
  unfold resumeAll in *. cbn [foldl]. by rewrite IH.
Qed.

Lemma onmessage_begin_heldRefs (t : Q) (msg : Message) (st : LiveState) :
  heldRefs (onmessage_begin t msg st).1.1 = heldRefs st.
Proof.
  unfold onmessage_begin.
  destruct (onServerContent _ _ _ st) as [st1 turn] eqn:E.
  assert (H1 : heldRefs st1 = heldRefs st).
  { unfold onServerContent in E. by destruct (turnComplete msg); injection E as <- _. }
  destruct (audioData msg) as [audio|]; [|done].
  pose proof (playAudio_begin_heldRefs t audio st1) as H2.
  destruct (playAudio_begin t audio st1) as [st2 k]. cbn [fst] in *. congruence.
Qed.

Lemma onmessages_heldRefs (msgs : list (Q * Message)) (h : Hook) :
  heldRefs (live (onmessages msgs h).1) = heldRefs (live h).
Proof.
  unfold onmessages.
  set (f := fun (acc : LiveState * list (string * string) * list Suspended)
                (m : Q * Message) =>
              let '(st', turn, k) := onmessage_begin m.1 m.2 acc.1.1 in
              (st', acc.1.2 ++ option_list turn, acc.2 ++ option_list k)).
  assert (H : forall acc, heldRefs (foldl f acc msgs).1.1 = heldRefs acc.1.1).
  { induction msgs as [|m msgs IH]; intros acc; [done|].
    cbn [foldl]. rewrite IH. unfold f.
    pose proof (onmessage_begin_heldRefs m.1 m.2 acc.1.1) as Hm.
    by destruct (onmessage_begin m.1 m.2 acc.1.1) as [[st' turn] k]. }
  specialize (H (live h, [], [])).
  destruct (foldl f (live h, [], []) msgs) as [[st1 turns] ks].
  cbn [fst snd live] in *. by rewrite resumeAll_heldRefs.
Qed.

Lemma step_heldRefs (h : Hook) (e : Event) :
  whileOpen e -> heldRefs (live (step h e)) = heldRefs (live h).
Proof.
  destruct e as [env img|src proc|samples|t msg|msgs|source|]; simpl; try done.
  - intros _. unfold onmessage.
    destruct (onServerContent _ _ _ (live h)) as [st1 turn] eqn:E.
    assert (H1 : heldRefs st1 = heldRefs (live h)).
    { unfold onServerContent in E. by destruct (turnComplete msg); injection E as <- _. }
    simpl. destruct (audioData msg); [by rewrite playAudio_heldRefs|done].
  - intros _. apply onmessages_heldRefs.
Qed.

Lemma run_heldRefs (evs : list Event) (h : Hook) :
  Forall whileOpen evs -> heldRefs (live (run evs h)) = heldRefs (live h).
Proof.
  revert h. induction evs as [|e evs IH]; intros h Hevs; simpl; [done|].
  apply Forall_cons_1 in Hevs as [He Hevs].
  rewrite IH by done. by apply step_heldRefs.
Qed.

(** X17. What a session acquires, its stop releases: after a start that
    succeeded and opened, and whatever audio and messages followed, the
    stop closes the vendor session, stops every track of the microphone,
    disconnects both audio nodes, closes both audio contexts, stops every
    source still in the set, and leaves the hook holding nothing. *)
Theorem stop_releases_what_start_acquired
    (env : LiveHook.StartEnv) (img : option string)
    (sourceId processorId session : nat) (tracks : list nat)
    (evs : list LiveHook.Event) (h : LiveHook.Hook) :
  GeminiLive.isLive (LiveHook.live h) = false ->
  LiveHook.userMedia env = Some tracks ->
  LiveHook.keyPresent (LiveHook.apiKey env) = true ->
  LiveHook.connect env = GeminiLive.Connected session ->
  Forall LiveHook.whileOpen evs ->
  let up := LiveHook.run evs
              (LiveHook.onopen sourceId processorId (LiveHook.startSession env img h)) in
  let down := LiveHook.step up LiveHook.Stop in
  let log := GeminiLive.calls (LiveHook.live down) in
  LiveHook.released (LiveHook.live down) /\
  GeminiLive.SessionClose session ∈ log /\
  (forall t, t ∈ tracks -> GeminiLive.TrackStop t ∈ log) /\
  GeminiLive.NodeDisconnect sourceId ∈ log /\
  GeminiLive.NodeDisconnect processorId ∈ log /\
  GeminiLive.ContextClose (LiveHook.inputContextId env) ∈ log /\
  GeminiLive.ContextClose (LiveHook.outputContextId env) ∈ log /\
  (forall s, s ∈ GeminiLive.audioSourcesRef (LiveHook.live up) ->
     GeminiLive.SourceStop s ∈ log).
Proof.
  intros Hlive Hmedia Hkey Hconn Hevs up down log.
  assert (Hrefs : heldRefs (live up)
          = (Some (Connected session), Some tracks, Some sourceId,
             Some processorId, Some (inputContextId env),
             Some (outputContextId env))).
  { subst up. rewrite run_heldRefs by done.
    unfold startSession. rewrite Hlive, Hmedia, Hkey, Hconn. reflexivity. }
  unfold heldRefs in Hrefs. injection Hrefs as Hp Hs Hsn Hpn Hic Hoc.
  split; [apply stopSession_released|].
  subst log down. cbn [step withLive live]. unfold stopSession.
  rewrite Hp, Hs, Hsn, Hpn, Hic, Hoc. cbn [calls whenSet].
  split; [in_app|]. split.
  { intros t Ht.
    assert (TrackStop t ∈ TrackStop <$> tracks) by (by apply list_elem_of_fmap_2).
    in_app. }
  do 4 (split; [in_app|]).
  intros s Hs'.
  assert (SourceStop s ∈ SourceStop <$> elements (audioSourcesRef (live up))).
  { apply list_elem_of_fmap_2. by apply elem_of_elements. }
  in_app.
Qed.

Lemma stop_releases_what_start_acquired_witness :
  let env := LiveHook.mkStartEnv (Some [3%nat; 4%nat]) 1 2 (Some "k")
               (GeminiLive.Connected 7) in
  let evs := [LiveHook.Receive 0%Q
                (LiveHook.mkMessage (Some "hi") None false (Some "AAAAAAAA"));
              LiveHook.AudioProcess [GeminiService.F_fin 1]] in
  GeminiLive.isLive (LiveHook.live LiveHook.initial) = false /\
  LiveHook.userMedia env = Some [3%nat; 4%nat] /\
  LiveHook.keyPresent (LiveHook.apiKey env) = true /\
  LiveHook.connect env = GeminiLive.Connected 7 /\
  Forall LiveHook.whileOpen evs /\
  LiveHook.released
    (LiveHook.live
       (LiveHook.step
          (LiveHook.run evs
             (LiveHook.onopen 5 6 (LiveHook.startSession env None LiveHook.initial)))
          LiveHook.Stop)).
Proof.
  intros env evs.
  assert (Hevs : Forall LiveHook.whileOpen evs) by (by repeat constructor).
  repeat (split; [reflexivity|]). split; [exact Hevs|].
  exact (proj1 (stop_releases_what_start_acquired env None 5 6 7 [3%nat; 4%nat]
                  evs LiveHook.initial eq_refl eq_refl eq_refl eq_refl Hevs)).
Defined.

Lemma startSession_succeeds (env : StartEnv) (img : option string)
    (h : Hook) (tracks : list nat) :
  isLive (live h) = false ->
  userMedia env = Some tracks ->
  keyPresent (apiKey env) = true ->
  let h' := startSession env img h in
  isLive (live h') = false /\
  heldRefs (live h')
    = (Some (connect env), Some tracks, sourceNode (live h),
       processorNode (live h), Some (inputContextId env),
       Some (outputContextId env)) /\
  calls (live h') = calls (live h) /\
  audioSourcesRef (live h') = audioSourcesRef (live h).
Proof.
  intros Hlive Hmedia Hkey. unfold startSession.
  rewrite Hlive, Hmedia, Hkey. by repeat split.
Qed.

(** X18. A second start before the first has opened orphans the first
    microphone: both starts succeed, the references are overwritten, and
    a later stop, though it leaves the hook holding nothing, never stops
    a track that only the first stream had. *)
Theorem second_start_orphans_first_stream
    (env1 env2 : LiveHook.StartEnv) (img1 img2 : option string)
    (tracks1 tracks2 : list nat) (t : nat) (h : LiveHook.Hook) :
  GeminiLive.isLive (LiveHook.live h) = false ->
  LiveHook.userMedia env1 = Some tracks1 ->
  LiveHook.keyPresent (LiveHook.apiKey env1) = true ->
  LiveHook.userMedia env2 = Some tracks2 ->
  LiveHook.keyPresent (LiveHook.apiKey env2) = true ->
  t ∈ tracks1 -> (t ∉ tracks2) ->
  (GeminiLive.TrackStop t ∉ GeminiLive.calls (LiveHook.live h)) ->
  let started := LiveHook.startSession env2 img2 (LiveHook.startSession env1 img1 h) in
  let down := LiveHook.step started LiveHook.Stop in
  GeminiLive.streamRef (LiveHook.live started) = Some tracks2 /\
  LiveHook.released (LiveHook.live down) /\
  (GeminiLive.TrackStop t ∉ GeminiLive.calls (LiveHook.live down)) /\
  (GeminiLive.TrackStop t
     ∉ GeminiLive.calls (LiveHook.live (LiveHook.step down LiveHook.Stop))).
Proof.
  intros Hlive Hm1 Hk1 Hm2 Hk2 Ht1 Ht2 Hlog started down.
  destruct (startSession_succeeds env1 img1 h tracks1 Hlive Hm1 Hk1)
    as (Hlive1 & Hrefs1 & Hcalls1 & Hsrc1).
  destruct (startSession_succeeds env2 img2 (startSession env1 img1 h) tracks2
              Hlive1 Hm2 Hk2) as (Hlive2 & Hrefs2 & Hcalls2 & Hsrc2).
  fold started in Hlive2, Hrefs2, Hcalls2, Hsrc2.
  unfold heldRefs in Hrefs1, Hrefs2.
  injection Hrefs1 as _ _ Hsn1 Hpn1 _ _.
  injection Hrefs2 as Hp Hs Hsn Hpn Hic Hoc.
  assert (Hdown : TrackStop t ∉ calls (live down)).
  { subst down. cbn [step withLive live]. unfold stopSession.
    rewrite Hp, Hs, Hsn, Hpn, Hic, Hoc, Hcalls2, Hcalls1. cbn [calls whenSet].
    rewrite !not_elem_of_app. repeat split.
    - exact Hlog.
    - destruct (connect env2); [|apply not_elem_of_nil].
      intros H%list_elem_of_singleton. discriminate.
    - intros H%list_elem_of_fmap. destruct H as (t' & Heq & Ht').
      injection Heq as <-. done.
    - destruct (sourceNode (live (startSession env1 img1 h)));
        [|apply not_elem_of_nil].
      intros H%list_elem_of_singleton. discriminate.
    - destruct (processorNode (live (startSession env1 img1 h)));
        [|apply not_elem_of_nil].
      intros H%list_elem_of_singleton. discriminate.
    - intros H%list_elem_of_singleton. discriminate.
    - intros H%list_elem_of_singleton. discriminate.
    - intros H%list_elem_of_fmap. destruct H as (s & Heq & _). discriminate. }
  split; [exact Hs|].
  split; [apply stopSession_released|]. split; [exact Hdown|].
  unfold down in *. cbn [step withLive live] in *.
  by rewrite stopSession_idempotent_aux.
Qed.

Lemma second_start_orphans_first_stream_witness :
  let env1 := LiveHook.mkStartEnv (Some [3%nat; 4%nat]) 1 2 (Some "k")
                (GeminiLive.Connected 7) in
  let env2 := LiveHook.mkStartEnv (Some [13%nat; 14%nat]) 11 12 (Some "k")
                (GeminiLive.Connected 17) in
  GeminiLive.isLive (LiveHook.live LiveHook.initial) = false /\
  3%nat ∈ [3%nat; 4%nat] /\ (3%nat ∉ [13%nat; 14%nat]) /\
  (GeminiLive.TrackStop 3 ∉ GeminiLive.calls (LiveHook.live LiveHook.initial)) /\
  (GeminiLive.TrackStop 3
     ∉ GeminiLive.calls
         (LiveHook.live
            (LiveHook.step
               (LiveHook.startSession env2 None
                  (LiveHook.startSession env1 None LiveHook.initial))
               LiveHook.Stop))).
Proof.
  intros env1 env2.
  assert (H1 : 3%nat ∈ [3%nat; 4%nat]) by apply list_elem_of_here.
  assert (H2 : 3%nat ∉ [13%nat; 14%nat]).
  { intros H. repeat (apply elem_of_cons in H as [H|H]; [discriminate H|]).
    by apply elem_of_nil in H. }
  assert (H3 : GeminiLive.TrackStop 3 ∉ GeminiLive.calls (LiveHook.live LiveHook.initial))
    by apply not_elem_of_nil.
  split; [reflexivity|]. split; [exact H1|]. split; [exact H2|]. split; [exact H3|].
  exact (proj1 (proj2 (proj2
    (second_start_orphans_first_stream env1 env2 None None
       [3%nat; 4%nat] [13%nat; 14%nat] 3%nat LiveHook.initial
       eq_refl eq_refl eq_refl eq_refl eq_refl H1 H2 H3)))).
Defined.


Lemma append_assoc (a b c : string) : (a +:+ b) +:+ c = a +:+ (b +:+ c).
Proof.
  induction a as [|x a IH]; [reflexivity|].
  change (String x a +:+ b) with (String x (a +:+ b)).
  change (String x (a +:+ b) +:+ c) with (String x ((a +:+ b) +:+ c)).
  by rewrite IH.
Qed.

Lemma playAudio_transcription (t : Q) (audio : string) (st : LiveState) :
  currentInputTranscriptionRef (playAudio t audio st) = currentInputTranscriptionRef st /\
  currentOutputTranscriptionRef (playAudio t audio st) = currentOutputTranscriptionRef st /\
  interimTranscript (playAudio t audio st) = interimTranscript st.
Proof.
  unfold playAudio, playAudio_begin.
  destruct (outputContext st); [|done].
  destruct (truthy audio); [|done].
  by destruct (GeminiService.decode audio ≫= _).
Qed.

Lemma onmessage_fragment (t : Q) (msg : Message) (h : Hook) :
  turnComplete msg = false ->
  (onmessage t msg h).2 = None /\
  currentInputTranscriptionRef (live (onmessage t msg h).1)
    = currentInputTranscriptionRef (live h)
        +:+ default EmptyString (inputTranscription msg) /\
  currentOutputTranscriptionRef (live (onmessage t msg h).1)
    = currentOutputTranscriptionRef (live h)
        +:+ default EmptyString (outputTranscription msg).
Proof.
  intros Htc. unfold onmessage, onServerContent. rewrite Htc.
  split; [reflexivity|]. cbn [fst live].
  destruct (audioData msg) as [audio|]; [|done].
  destruct (playAudio_transcription t audio
    (mkLive (isLive (live h)) (sessionPromiseRef (live h)) (inputContext (live h))
       (outputContext (live h)) (streamRef (live h)) (sourceNode (live h))
       (processorNode (live h)) (nextStartTimeRef (live h))
       (audioSourcesRef (live h))
       (currentInputTranscriptionRef (live h)
          +:+ default EmptyString (inputTranscription msg))
       (currentOutputTranscriptionRef (live h)
          +:+ default EmptyString (outputTranscription msg))
       (if inputTranscription msg is Some _
        then currentInputTranscriptionRef (live h)
               +:+ default EmptyString (inputTranscription msg)
        else interimTranscript (live h))
       (aiSpeaking (live h)) (freshSource (live h)) (calls (live h))))
    as (-> & -> & _).
  done.
Qed.

Lemma onmessage_final (t : Q) (msg : Message) (h : Hook) :
  turnComplete msg = true ->
  (onmessage t msg h).2
    = Some (currentInputTranscriptionRef (live h)
              +:+ default EmptyString (inputTranscription msg),
            currentOutputTranscriptionRef (live h)
              +:+ default EmptyString (outputTranscription msg)) /\
  currentInputTranscriptionRef (live (onmessage t msg h).1) = EmptyString /\
  currentOutputTranscriptionRef (live (onmessage t msg h).1) = EmptyString /\
  interimTranscript (live (onmessage t msg h).1) = EmptyString.
Proof.
  intros Htc. unfold onmessage, onServerContent. rewrite Htc.
  split; [reflexivity|]. cbn [fst live].
  destruct (audioData msg) as [audio|]; [|done].
  destruct (playAudio_transcription t audio
    (mkLive (isLive (live h)) (sessionPromiseRef (live h)) (inputContext (live h))
       (outputContext (live h)) (streamRef (live h)) (sourceNode (live h))
       (processorNode (live h)) (nextStartTimeRef (live h))
       (audioSourcesRef (live h)) EmptyString EmptyString EmptyString
       (aiSpeaking (live h)) (freshSource (live h)) (calls (live h))))
    as (-> & -> & ->).
  done.
Qed.

Lemma receive_fragments (frags : list (Q * Message)) (h : Hook)
    (turns : list (string * string)) :
  Forall (fun m => turnComplete m.2 = false) frags ->
  let out := foldl receive (h, turns) frags in
  out.2 = turns /\
  currentInputTranscriptionRef (live out.1)
    = currentInputTranscriptionRef (live h)
        +:+ joinAll ((fun m => inputTranscription m.2) <$> frags) /\
  currentOutputTranscriptionRef (live out.1)
    = currentOutputTranscriptionRef (live h)
        +:+ joinAll ((fun m => outputTranscription m.2) <$> frags).
Proof.
  revert h turns. induction frags as [|m frags IH]; intros h turns Hall.
  - simpl. by rewrite !append_empty_r.
  - apply Forall_cons_1 in Hall as [Hm Hall].
    destruct (onmessage_fragment m.1 m.2 h Hm) as (Hturn & Hin & Hout).
    assert (Hrec : receive (h, turns) m = ((onmessage m.1 m.2 h).1, turns)).
    { unfold receive. cbn [fst snd].
      destruct (onmessage m.1 m.2 h) as [h' turn]. simpl in Hturn. subst turn.
      simpl. by rewrite app_nil_r. }
    cbn [foldl]. rewrite Hrec.
    destruct (IH (onmessage m.1 m.2 h).1 turns Hall) as (H1 & H2 & H3).
    cbv zeta. split; [exact H1|].
    rewrite H2, H3, Hin, Hout, !fmap_cons. unfold joinAll. cbn [foldr].
    by rewrite !append_assoc.
Qed.

(** X19. A spoken turn reaches the transcript whole and in order: when
    the fragments of a turn arrive in any number of messages and a last
    message completes the turn, the hook hands the application the input
    fragments joined in order and the output fragments joined in order,
    and clears its buffers and the interim line; the application then
    appends to the active session the You line and the AI line (each only
    if its text is not empty), and touches neither versions nor current
    index. *)
Theorem turn_reaches_transcript
    (frags : list (Q * LiveHook.Message)) (t : Q) (last : LiveHook.Message)
    (h : LiveHook.Hook) (app : App.AppState) (i : string) :
  Forall (fun m => LiveHook.turnComplete m.2 = false) frags ->
  LiveHook.turnComplete last = true ->
  GeminiLive.currentInputTranscriptionRef (LiveHook.live h) = EmptyString ->
  GeminiLive.currentOutputTranscriptionRef (LiveHook.live h) = EmptyString ->
  App.activeSessionIdRef app = Some i -> truthy i = true ->
  let user := LiveHook.joinAll
    ((fun m => LiveHook.inputTranscription m.2) <$> frags ++ [(t, last)]) in
  let ai := LiveHook.joinAll
    ((fun m => LiveHook.outputTranscription m.2) <$> frags ++ [(t, last)]) in
  let out := LiveHook.receiveAll (frags ++ [(t, last)]) h in
  out.2 = [(user, ai)] /\
  GeminiLive.currentInputTranscriptionRef (LiveHook.live out.1) = EmptyString /\
  GeminiLive.currentOutputTranscriptionRef (LiveHook.live out.1) = EmptyString /\
  GeminiLive.interimTranscript (LiveHook.live out.1) = EmptyString /\
  forall k s, App.sessions app !! k = Some s -> id s = i ->
    exists s',
      App.sessions (LiveHook.deliver out.2 app) !! k = Some s' /\
      transcript s' = transcript s ++ App.lineIf "**You:** " user
                        ++ App.lineIf "**AI:** " ai /\
      versions s' = versions s /\ currentIndex s' = currentIndex s.
Proof.
  intros Hfrags Hlast Hin0 Hout0 Href Hi. cbv zeta.
  destruct (receive_fragments frags h [] Hfrags) as (Hturns & Hin & Hout).
  unfold receiveAll. rewrite foldl_snoc.
  destruct (foldl receive (h, []) frags) as [h1 turns1].
  cbn [fst snd] in Hturns, Hin, Hout. rewrite Hturns.
  destruct (onmessage_final t last h1 Hlast) as (Hturn & Hr1 & Hr2 & Hr3).
  unfold receive. cbn [fst snd].
  destruct (onmessage t last h1) as [h2 turn]. cbn [fst snd] in Hturn, Hr1, Hr2, Hr3.
  rewrite Hturn. cbn [fst snd option_list]. rewrite app_nil_l.
  assert (Hjoin : forall (cur : string) (l : list (option string)) (o : option string),
            (cur +:+ joinAll l) +:+ default EmptyString o
            = cur +:+ joinAll (l ++ [o])).
  { intros cur l o. rewrite append_assoc. f_equal. unfold joinAll.
    rewrite foldr_app. simpl. rewrite append_empty_r.
    induction l as [|o' l IH]; simpl; [reflexivity|].
    rewrite append_assoc. f_equal. exact IH. }
  rewrite Hin, Hout, !Hjoin, Hin0, Hout0, !fmap_app.
  change (EmptyString +:+ ?x) with x.
  repeat (split; [done|]).
  intros k s Hk Hid. simpl. unfold App.handleTurnComplete.
  rewrite Href, Hi. simpl.
  rewrite mapSession_lookup, Hk. simpl.
  destruct (decide (id s = i)); [|done].
  eexists. split; [reflexivity|]. done.
Qed.

Lemma turn_reaches_transcript_witness :
  let frags := [(0%Q, LiveHook.mkMessage (Some "add a ") None false None);
                (0%Q, LiveHook.mkMessage (Some "hat") (Some "Sure") false None)] in
  let last := LiveHook.mkMessage None (Some ", done.") true None in
  let app := App.commitRefs
    (App.handleImageUpload (App.FileRead "data:image/png;base64,AAAA")
       1700000000000 App.initial).1 in
  Forall (fun m => LiveHook.turnComplete m.2 = false) frags /\
  LiveHook.turnComplete last = true /\
  (LiveHook.receiveAll (frags ++ [(0%Q, last)]) LiveHook.initial).2
    = [("add a hat", "Sure, done.")].
Proof.
  intros frags last app.
  assert (Hf : Forall (fun m => LiveHook.turnComplete m.2 = false) frags)
    by (by repeat constructor).
  split; [exact Hf|]. split; [reflexivity|].
  exact (proj1 (turn_reaches_transcript frags 0%Q last LiveHook.initial app
                  "1700000000000" Hf eq_refl eq_refl eq_refl eq_refl eq_refl)).
Defined.

End LiveHookProperties.

(** ** Transcripts and restarts (hooks/useSpeechRecognition.ts) *)
Section SpeechCountProperties.
Import SpeechRecognition SpeechCounts.

Lemma onresult_loop (results : list (string * bool)) (final interim : string) :
  foldl (fun '(final, interim) '(part, isFinal) =>
           if isFinal : bool then (final +:+ part +:+ " ", interim)
           else (final, interim +:+ part))
        (final, interim) results
  = (final +:+ finals results, interim +:+ interims results).
Proof.
  revert final interim.
  induction results as [|[part isFinal] results IH]; intros final interim; simpl.
  - by rewrite !append_empty_r.
  - destruct isFinal; rewrite IH; by rewrite !append_assoc.
Qed.

(** X20. Recognition results only add to what is final: after a result
    event the final transcript is the old one followed by every final
    part, each with a space after it, in order; what is shown is that
    final transcript followed by the interim parts in order; flags,
    timers and calls are untouched. *)
Theorem onresult_extends_final_transcript
    (results : list (string * bool)) (st : SpeechRecognition.State) :
  let st' := SpeechRecognition.onresult results st in
  SpeechRecognition.finalTranscriptRef st'
    = SpeechRecognition.finalTranscriptRef st +:+ SpeechCounts.finals results /\
  SpeechRecognition.transcript st'
    = SpeechRecognition.finalTranscriptRef st' +:+ SpeechCounts.interims results /\
  SpeechRecognition.isListening st' = SpeechRecognition.isListening st /\
  SpeechRecognition.isListeningRef st' = SpeechRecognition.isListeningRef st /\
  SpeechRecognition.timers st' = SpeechRecognition.timers st /\
  SpeechRecognition.calls st' = SpeechRecognition.calls st.
Proof.
  unfold onresult. rewrite onresult_loop. simpl. repeat split.
Qed.

Lemma startCalls_app (l k : list Call) :
  startCalls (l ++ k) = (startCalls l + startCalls k)%nat.
Proof. unfold startCalls. by rewrite List.filter_app, length_app. Qed.

Lemma step_budget (st : State) (e : Event) :
  (startCalls (calls (step st e)) + length (timers (step st e))
   <= startCalls (calls st) + length (timers st)
      + (if isStartListening e then 1 else 0)
      + (if isOnEnd e then 1 else 0))%nat.
Proof.
  destruct e as [| | |err|r| |]; simpl.
  - unfold startListening. destruct (_ && _); simpl; [|lia].
    rewrite startCalls_app. unfold startCalls. simpl. lia.
  - unfold stopListening. destruct (_ && _); simpl; [|lia].
    rewrite startCalls_app. unfold startCalls. simpl. lia.
  - unfold onend. destruct (isListeningRef st); simpl; [|lia].
    rewrite startCalls_app, length_app. unfold startCalls. simpl. lia.
  - rewrite startCalls_app. unfold startCalls. simpl. lia.
  - destruct (onresult_flags r st) as (_ & _ & -> & ->). lia.
  - unfold restart. destruct (timers st) as [|t pending] eqn:E; [rewrite E; lia|].
    simpl. destruct (_ && _); [|lia].
    rewrite startCalls_app. unfold startCalls. simpl. lia.
  - lia.
Qed.

(** X21. Restarts are paid for: along any run of the hook, the calls of
    [recognition.start()] made so far plus the restart timers still
    pending never exceed the number of [startListening] calls plus the
    number of end events. *)
Theorem starts_bounded_by_requests_and_ends
    (evs : list SpeechRecognition.Event) (supported : bool) :
  let st := SpeechRecognition.run evs (SpeechRecognition.initial supported) in
  (SpeechCounts.startCalls (SpeechRecognition.calls st)
   + length (SpeechRecognition.timers st)
   <= length (List.filter SpeechRecognition.isStartListening evs)
      + length (List.filter SpeechCounts.isOnEnd evs))%nat.
Proof.
  assert (H : forall st,
    (startCalls (calls (run evs st)) + length (timers (run evs st))
     <= startCalls (calls st) + length (timers st)
        + length (List.filter isStartListening evs)
        + length (List.filter isOnEnd evs))%nat).
  { induction evs as [|e evs IH]; intros st; simpl; [lia|].
    specialize (IH (step st e)). pose proof (step_budget st e) as Hs.
    destruct (isStartListening e), (isOnEnd e); simpl; lia. }
  apply (H (initial supported)).
Qed.

(** X22. A permission denial ends listening for good: once the render
    that follows a fatal error has run on a hook that was listening, the
    flag is false, and whatever follows short of a new [startListening]
    calls [start] no more and arms no timer, even if restart timers were
    pending. *)
Theorem fatal_error_ends_listening
    (st : SpeechRecognition.State) (e : string)
    (evs : list SpeechRecognition.Event) :
  SpeechRecognition.isFatalError e = true ->
  SpeechRecognition.rendered st = true ->
  forallb (fun ev => negb (SpeechRecognition.isStartListening ev)) evs = true ->
  let st1 := SpeechRecognition.commit (SpeechRecognition.onerror e st) in
  let st2 := SpeechRecognition.run evs st1 in
  SpeechRecognition.isListening st1 = false /\
  SpeechRecognition.isListeningRef st1 = false /\
  SpeechRecognition.isListeningRef st2 = false /\
  (exists extra,
     SpeechRecognition.calls st2 = SpeechRecognition.calls st1 ++ extra /\
     SpeechRecognition.RecStart ∉ extra) /\
  (exists k, SpeechRecognition.timers st2 = drop k (SpeechRecognition.timers st)).
Proof.
  intros Hfatal Hren Hevs st1 st2.
  assert (Hst1 : stopped st1).
  { subst st1. unfold commit, onerror, stopped. simpl. by rewrite Hfatal, Hren. }
  destruct (run_stopped evs st1 Hst1 Hevs) as ([_ Hr2] & Hx & Ht).
  destruct Hst1 as [Hl1 Hr1].
  split; [exact Hl1|]. split; [exact Hr1|]. split; [exact Hr2|].
  split; [exact Hx|]. exact Ht.
Qed.

Lemma fatal_error_ends_listening_witness :
  let st := SpeechRecognition.onend SpeechRecognition.listeningExample in
  let evs := [SpeechRecognition.OnEnd; SpeechRecognition.TimerFires;
              SpeechRecognition.OnEnd] in
  SpeechRecognition.isFatalError "not-allowed" = true /\
  SpeechRecognition.rendered st = true /\
  forallb (fun ev => negb (SpeechRecognition.isStartListening ev)) evs = true /\
  SpeechRecognition.isListeningRef
    (SpeechRecognition.run evs
       (SpeechRecognition.commit (SpeechRecognition.onerror "not-allowed" st)))
  = false.
Proof.
  intros st evs. repeat (split; [reflexivity|]).
  exact (proj1 (proj2 (proj2
    (fatal_error_ends_listening st "not-allowed" evs eq_refl eq_refl eq_refl)))).
Defined.

End SpeechCountProperties.

(** ** Viewer, mascot and transcript lines (App.tsx) *)
Section ViewProperties.

(** The zoom levels: 1, 1.5, 2, 2.5, 3. *)
Lemma zoom_step (v : MediaViewer.Viewer) (a : MediaViewer.Action) :
  (exists k, 0 <= k <= 4 /\ (MediaViewer.scale v == 1 + inject_Z k * (1 # 2))%Q) ->
  exists k, 0 <= k <= 4 /\
    (MediaViewer.scale (MediaViewer.step v a) == 1 + inject_Z k * (1 # 2))%Q.
Proof.
  intros (k & Hk & Hs).
  assert (Hinj : forall a b : Z, a <= b -> (inject_Z a <= inject_Z b)%Q).
  { intros a0 b0 H. by rewrite <- Zle_Qle. }
  pose proof (Hinj 0 k ltac:(lia)) as H0. pose proof (Hinj k 4 ltac:(lia)) as H4.
  destruct a; simpl.
  - destruct (decide (k = 0)) as [->|Hne].
    + exists 0. split; [lia|]. change (inject_Z 0) with 0%Q in *.
      rewrite Q.max_l; lra.
    + exists (k - 1). split; [lia|].
      pose proof (Hinj 1 k ltac:(lia)) as H1.
      change (inject_Z 1) with 1%Q in *.
      rewrite Q.max_r by lra.
      unfold Z.sub. rewrite inject_Z_plus.
      change (inject_Z (- (1))) with (-1)%Q. lra.
  - destruct (decide (k = 4)) as [->|Hne].
    + exists 4. split; [lia|]. change (inject_Z 4) with 4%Q in *.
      rewrite Q.min_l; lra.
    + exists (k + 1). split; [lia|].
      pose proof (Hinj k 3 ltac:(lia)) as H3.
      change (inject_Z 3) with 3%Q in *.
      rewrite Q.min_r by lra.
      rewrite inject_Z_plus. change (inject_Z 1) with 1%Q. lra.
  - exists 0. split; [lia|]. change (inject_Z 0) with 0%Q. lra.
  - by exists k.
  - by exists k.
Qed.

(** X23. The zoom never leaves its range: whatever buttons are pressed,
    starting from scale 1, the scale is one of 1, 1.5, 2, 2.5 and 3; in
    particular it stays between 1 and 3. *)
Theorem zoom_stays_in_range (actions : list MediaViewer.Action) :
  let s := MediaViewer.scale (MediaViewer.run actions MediaViewer.initial) in
  (exists k, 0 <= k <= 4 /\ (s == 1 + inject_Z k * (1 # 2))%Q) /\
  (1 <= s)%Q /\ (s <= 3)%Q.
Proof.
  assert (H : forall v,
    (exists k, 0 <= k <= 4 /\ (MediaViewer.scale v == 1 + inject_Z k * (1 # 2))%Q) ->
    exists k, 0 <= k <= 4 /\
      (MediaViewer.scale (MediaViewer.run actions v) == 1 + inject_Z k * (1 # 2))%Q).
  { induction actions as [|a actions IH]; intros v Hv; simpl; [done|].
    by apply IH, zoom_step. }
  destruct (H MediaViewer.initial) as (k & Hk & Hs).
  { exists 0. split; [lia|]. simpl. change (inject_Z 0) with 0%Q. lra. }
  simpl. split; [by exists k|].
  assert (H0 : (inject_Z 0 <= inject_Z k)%Q) by (rewrite <- Zle_Qle; lia).
  assert (H4 : (inject_Z k <= inject_Z 4)%Q) by (rewrite <- Zle_Qle; lia).
  change (inject_Z 0) with 0%Q in H0. change (inject_Z 4) with 4%Q in H4.
  split; lra.
Qed.

(** X24. The pupils stay in their sockets: for a window of positive
    size the offset computed from a pointer position lies between -4 and
    4 wherever the pointer is, and for a pointer inside the window it is
    the position scaled to that range (in exact arithmetic); in the speaking, drawing
    and success modes the pointer does not move the pupils. *)
Theorem pupil_stays_in_socket (client inner : Q) :
  (0 < inner)%Q ->
  (-4 <= Mascot.pupil client inner)%Q /\ (Mascot.pupil client inner <= 4)%Q /\
  ((0 <= client)%Q /\ (client <= inner)%Q ->
   (Mascot.pupil client inner == client / inner * 8 - 4)%Q) /\
  forall mode y h pos,
    mode = Mascot.speaking \/ mode = Mascot.drawing \/ mode = Mascot.success ->
    Mascot.handleMouseMove mode client y inner h pos = pos.
Proof.
  intros Hinner. unfold Mascot.pupil.
  set (x := (client / inner * 8 - 4)%Q).
  split; [apply Q.le_max_l|]. split.
  { apply Q.max_lub; [lra|]. apply Q.le_min_l. }
  split.
  - intros [H0 H1].
    assert (Hr : (0 <= client / inner)%Q /\ (client / inner <= 1)%Q).
    { split.
      - apply Qle_shift_div_l; [done|]. lra.
      - apply Qle_shift_div_r; [done|]. lra. }
    destruct Hr as [Hr0 Hr1].
    rewrite Q.min_r by (subst x; lra).
    rewrite Q.max_r by (subst x; lra). reflexivity.
  - intros mode y h pos [->|[->| ->]]; reflexivity.
Qed.

Lemma pupil_stays_in_socket_witness :
  (0 < 1920)%Q /\ (Mascot.pupil 2500 1920 <= 4)%Q.
Proof.
  assert (H : (0 < 1920)%Q) by reflexivity.
  split; [exact H|].
  exact (proj1 (proj2 (pupil_stays_in_socket 2500 1920 H))).
Defined.

(** X25. The board shows what was said: a line that a completed turn
    adds to the transcript is drawn on the user's side exactly when it is
    the You line, and its text is the spoken text, the tag and the one
    space after it removed and nothing else. *)
Theorem transcript_lines_render_as_spoken (user ai : string) :
  VisionBoard.renderLine ("**You:** " +:+ user) = (true, user) /\
  VisionBoard.renderLine ("**AI:** " +:+ ai) = (false, ai) /\
  VisionBoard.renderLine
    <$> (App.lineIf "**You:** " user ++ App.lineIf "**AI:** " ai)
  = (if truthy user then [(true, user)] else [])
    ++ (if truthy ai then [(false, ai)] else []).
Proof.
  assert (Hu : VisionBoard.renderLine ("**You:** " +:+ user) = (true, user))
    by reflexivity.
  assert (Ha : VisionBoard.renderLine ("**AI:** " +:+ ai) = (false, ai))
    by reflexivity.
  split; [exact Hu|]. split; [exact Ha|].
  unfold App.lineIf. destruct (truthy user), (truthy ai); simpl;
    by rewrite ?Hu, ?Ha.
Qed.

End ViewProperties.
